(** * Strategic deconfliction of UAV waypoint trajectories (2D and 3D)

    A shallow embedding of [strategic_deconfliction_2d.py] and
    [strategic_deconfliction_3d.py]: Euclidean distance, stable sorting of
    waypoints by time, linear interpolation, position lookup, and the pairwise
    sampling detector [check_all_paths_conflict] with its adaptive time step;
    and the interactive part of the scripts ([get_drone_path], the plotting
    function and the main block) as actions on a console state: the lines
    still to be read, the text printed so far and the plotting calls made.

    Numbers.  The Python code computes with [float], the binary64 format of
    IEEE 754.  The code is embedded twice.

    First on real numbers ([R]), in [Generic], [D2], [D3] and [Both]:
    arithmetic is exact, [math.sqrt] is the real square root, and
    [round(v, 2)] rounds the exact value half-to-even on the second decimal.
    This embedding idealises the arithmetic: what is proved on it is a
    statement about the exact computation.  Concrete inputs used with it are
    binary fractions on which the float computation is exact as well.

    Then on binary64 numbers ([PrimFloat.float]), in module [B64]: every
    operation is rounded as Python rounds it, the exceptions of the
    arithmetic are results, and a [while] loop is allowed a bounded number
    of turns.  What depends on rounding, on overflow or on the loop coming
    to an end is stated and proved on [B64]. *)

From Stdlib Require Import Reals Lra Lia String ZArith Bool List Permutation.
From Stdlib Require DecimalString.
From Stdlib Require Floats.
Import ListNotations.
Import PrimFloat.PrimFloatNotations.
Number Notation PrimFloat.float PrimFloat.parser PrimFloat.printer
  : float_scope.
Set Warnings "-inexact-float".
Local Open Scope R_scope.

(** ** Numbers *)

(** Python's [a <= b] on numbers, as a boolean. *)
Definition Rleb (a b : R) : bool := if Rle_dec a b then true else false.

(** Python's [a >= b]. *)
Definition Rgeb (a b : R) : bool := if Rge_dec a b then true else false.

(** Python's [a == b]. *)
Definition Reqb (a b : R) : bool := if Req_dec_T a b then true else false.

(** Nearest integer, ties to the even one (the rounding rule of [round]). *)
Definition round_half_even (v : R) : Z :=
  let f := Int_part v in
  let r := frac_part v in
  if Rlt_dec r (1 / 2) then f
  else if Rlt_dec (1 / 2) r then (f + 1)%Z
  else if Z.even f then f else (f + 1)%Z.

(** [round(v, 2)]. *)
Definition round2 (v : R) : R := IZR (round_half_even (v * 100)) / 100.

(** ** Conflict events and reports *)

(** One entry of the ["conflicts"] list: the dict with keys
    ["time"], ["location"], ["distance"], ["between"]. *)
Record ConflictEvent (P : Type) : Type := mkEvent {
  ev_time : R;
  ev_location : P;
  ev_distance : R;
  ev_between : string * string
}.
Arguments mkEvent {P} _ _ _ _.
Arguments ev_time {P} _.
Arguments ev_location {P} _.
Arguments ev_distance {P} _.
Arguments ev_between {P} _.

(** The returned dict: [{"status": "CLEAR"}] or
    [{"status": "CONFLICT", "conflicts": conflicts}]. *)
Inductive Report (P : Type) : Type :=
| CLEAR : Report P
| CONFLICT (conflicts : list (ConflictEvent P)) : Report P.
Arguments CLEAR {P}.
Arguments CONFLICT {P} _.

(** [result["status"]]. *)
Definition status {P} (r : Report P) : string :=
  match r with
  | CLEAR => "CLEAR"
  | CONFLICT _ => "CONFLICT"
  end.

(** The events a report carries ([result.get("conflicts", [])]). *)
Definition conflicts_of {P} (r : Report P) : list (ConflictEvent P) :=
  match r with
  | CLEAR => []
  | CONFLICT cs => cs
  end.

(** ** The detector, shared by the two files

    [sort_path_by_time], [get_position_at_time] and
    [check_all_paths_conflict] have the same text in both files, up to the
    index of the timestamp in a waypoint tuple ([p[2]] or [p[3]]), the
    distance function, [interpolate], and the rounding of the location.
    These four are the variables of the section. *)

Module Generic.

Section Detector.

Context {W P : Type}.
Variable stamp : W -> R.
Variable interpolate : W -> W -> R -> P.
Variable distance : P -> P -> R.
Variable round_location : P -> P.

(** [sorted(path, key=stamp)] is a stable sort: a waypoint is placed before
    the first already sorted waypoint whose timestamp is not smaller. *)
Fixpoint insert_by_time (w : W) (sorted : list W) : list W :=
  match sorted with
  | [] => [w]
  | v :: rest =>
      if Rleb (stamp w) (stamp v) then w :: v :: rest
      else v :: insert_by_time w rest
  end.

Definition sort_path_by_time (path : list W) : list W :=
  fold_right insert_by_time [] path.

(** [for i in range(len(path) - 1): if path[i][k] <= t <= path[i+1][k]:
    return interpolate(path[i], path[i+1], t)]; [None] after the loop. *)
Fixpoint get_position_at_time (path : list W) (t : R) : option P :=
  match path with
  | a :: rest =>
      match rest with
      | b :: _ =>
          if Rleb (stamp a) t && Rleb t (stamp b)
          then Some (interpolate a b t)
          else get_position_at_time rest t
      | [] => None
      end
  | [] => None
  end.

(** The body of the [while] loop at sample time [t]: the events appended
    to [conflicts] (none or one). *)
Definition sample_at (d1 d2 : string) (path1 path2 : list W)
           (safety_distance t : R) : list (ConflictEvent P) :=
  match get_position_at_time path1 t, get_position_at_time path2 t with
  | Some pos1, Some pos2 =>
      let dist := distance pos1 pos2 in
      if Rleb dist safety_distance
      then [mkEvent (round2 t) (round_location pos1) (round2 dist) (d1, d2)]
      else []
  | _, _ => []
  end.

(** [while t <= end_time: ...; t += effective_step], with fuel. *)
Fixpoint sampling_loop (fuel : nat) (d1 d2 : string) (path1 path2 : list W)
         (safety_distance effective_step end_time t : R)
  : list (ConflictEvent P) :=
  match fuel with
  | O => []
  | S fuel' =>
      if Rleb t end_time
      then sample_at d1 d2 path1 path2 safety_distance t
           ++ sampling_loop fuel' d1 d2 path1 path2 safety_distance
                            effective_step end_time (t + effective_step)
      else []
  end.

(** The sample times the loop visits (the successive values of [t] for
    which the loop body runs). *)
Fixpoint sample_times (fuel : nat) (effective_step end_time t : R) : list R :=
  match fuel with
  | O => []
  | S fuel' =>
      if Rleb t end_time
      then t :: sample_times fuel' effective_step end_time (t + effective_step)
      else []
  end.

(** Fuel that lets the loop run until its guard fails: more than
    [mission_duration / effective_step] iterations are never needed. *)
Definition sampling_fuel (mission_duration effective_step : R) : nat :=
  Z.to_nat (up (mission_duration / effective_step)).

(** [effective_step = time_step;
     if effective_step >= mission_duration:
         effective_step = mission_duration / 20]. *)
Definition adaptive_step (time_step mission_duration : R) : R :=
  if Rgeb time_step mission_duration then mission_duration / 20
  else time_step.

(** The two length tests and the overlap window of two sorted paths:
    [None] when [len(path1) < 2 or len(path2) < 2], otherwise
    [start_time = max(path1[0][k], path2[0][k])] and
    [end_time = min(path1[-1][k], path2[-1][k])]. *)
Definition mission_window (path1 path2 : list W) : option (R * R) :=
  match path1, path2 with
  | a1 :: _ :: _, a2 :: _ :: _ =>
      Some (Rmax (stamp a1) (stamp a2),
            Rmin (stamp (last path1 a1)) (stamp (last path2 a2)))
  | _, _ => None
  end.

(** The body of the two [for] loops for one pair [(d1, d2)] whose waypoint
    lists are [p1] and [p2]: each [continue] is an empty list of events. *)
Definition pair_conflicts (d1 d2 : string) (p1 p2 : list W)
           (safety_distance time_step : R) : list (ConflictEvent P) :=
  let path1 := sort_path_by_time p1 in
  let path2 := sort_path_by_time p2 in
  match mission_window path1 path2 with
  | None => []
  | Some (start_time, end_time) =>
      let mission_duration := end_time - start_time in
      if Rleb mission_duration 0 then []
      else
        let effective_step := adaptive_step time_step mission_duration in
        if Rleb effective_step 0 then []
        else
          sampling_loop (sampling_fuel mission_duration effective_step)
                        d1 d2 path1 path2 safety_distance effective_step
                        end_time (start_time + effective_step)
  end.

(** The fleet: a dict from drone name to waypoint list, in insertion
    order. *)
Definition Fleet : Type := list (string * list W).

(** [list(all_drones_paths.keys())]. *)
Definition drone_names (all_drones_paths : Fleet) : list string :=
  map fst all_drones_paths.

(** [all_drones_paths[name]]; the names looked up are keys of the dict, so
    the default is never returned by the detector. *)
Fixpoint dict_get (all_drones_paths : Fleet) (name : string) : list W :=
  match all_drones_paths with
  | [] => []
  | (k, path) :: rest =>
      if String.eqb k name then path else dict_get rest name
  end.

(** [for i in range(len(drone_names)):
      for j in range(i + 1, len(drone_names)): ...]. *)
Fixpoint pairwise (all_drones_paths : Fleet) (safety_distance time_step : R)
         (names : list string) : list (ConflictEvent P) :=
  match names with
  | [] => []
  | d1 :: later =>
      flat_map (fun d2 =>
                  pair_conflicts d1 d2 (dict_get all_drones_paths d1)
                                 (dict_get all_drones_paths d2)
                                 safety_distance time_step) later
      ++ pairwise all_drones_paths safety_distance time_step later
  end.

Definition check_all_paths_conflict (all_drones_paths : Fleet)
           (safety_distance time_step : R) : Report P :=
  let conflicts :=
    pairwise all_drones_paths safety_distance time_step
             (drone_names all_drones_paths) in
  match conflicts with
  | [] => CLEAR
  | _ :: _ => CONFLICT conflicts
  end.

(** Waypoints in ascending order of timestamp. *)
Fixpoint sorted_by_time (path : list W) : Prop :=
  match path with
  | a :: rest =>
      match rest with
      | b :: _ => stamp a <= stamp b /\ sorted_by_time rest
      | [] => True
      end
  | [] => True
  end.

(** The event reported for the pair [(d1, d2)] at a sample time, and the
    one reported for [(d2, d1)] at the same time: same rounded time and
    distance, the location being the position of the drone named first. *)
Definition mirrored (d1 d2 : string) (path1 path2 : list W)
           (e e' : ConflictEvent P) : Prop :=
  exists t pos1 pos2,
    get_position_at_time path1 t = Some pos1
    /\ get_position_at_time path2 t = Some pos2
    /\ e = mkEvent (round2 t) (round_location pos1)
                   (round2 (distance pos1 pos2)) (d1, d2)
    /\ e' = mkEvent (round2 t) (round_location pos2)
                    (round2 (distance pos1 pos2)) (d2, d1).

End Detector.

End Generic.

(** ** The 2D file: waypoints [(x, y, t)] *)

Module D2.

Definition Point : Type := R * R.
Definition Waypoint : Type := R * R * R.

Definition stamp (p : Waypoint) : R := snd p.
Definition position (p : Waypoint) : Point := fst p.

Definition distance_2d (p1 p2 : Point) : R :=
  sqrt ((fst p1 - fst p2) ^ 2 + (snd p1 - snd p2) ^ 2).

Definition interpolate (p_start p_end : Waypoint) (t : R) : Point :=
  let '(x1, y1, t1) := p_start in
  let '(x2, y2, t2) := p_end in
  if Reqb t2 t1 then (x1, y1)
  else
    let ratio := (t - t1) / (t2 - t1) in
    let x := x1 + ratio * (x2 - x1) in
    let y := y1 + ratio * (y2 - y1) in
    (x, y).

(** [(round(pos1[0], 2), round(pos1[1], 2))]. *)
Definition round_location (pos : Point) : Point :=
  (round2 (fst pos), round2 (snd pos)).

Definition sort_path_by_time := Generic.sort_path_by_time stamp.
Definition get_position_at_time :=
  Generic.get_position_at_time stamp interpolate.
Definition check_all_paths_conflict :=
  Generic.check_all_paths_conflict stamp interpolate distance_2d round_location.

End D2.

(** ** The 3D file: waypoints [(x, y, z, t)] *)

Module D3.

Definition Point : Type := R * R * R.
Definition Waypoint : Type := R * R * R * R.

Definition stamp (p : Waypoint) : R := snd p.
Definition position (p : Waypoint) : Point := fst p.

Definition distance_3d (p1 p2 : Point) : R :=
  let '(x1, y1, z1) := p1 in
  let '(x2, y2, z2) := p2 in
  sqrt ((x1 - x2) ^ 2 + (y1 - y2) ^ 2 + (z1 - z2) ^ 2).

Definition interpolate (p_start p_end : Waypoint) (t : R) : Point :=
  let '(x1, y1, z1, t1) := p_start in
  let '(x2, y2, z2, t2) := p_end in
  if Reqb t2 t1 then (x1, y1, z1)
  else
    let ratio := (t - t1) / (t2 - t1) in
    let x := x1 + ratio * (x2 - x1) in
    let y := y1 + ratio * (y2 - y1) in
    let z := z1 + ratio * (z2 - z1) in
    (x, y, z).

(** [tuple(round(v, 2) for v in pos1)]. *)
Definition round_location (pos : Point) : Point :=
  let '(x, y, z) := pos in (round2 x, round2 y, round2 z).

Definition sort_path_by_time := Generic.sort_path_by_time stamp.
Definition get_position_at_time :=
  Generic.get_position_at_time stamp interpolate.
Definition check_all_paths_conflict :=
  Generic.check_all_paths_conflict stamp interpolate distance_3d round_location.

End D3.

(** ** From the 2D file to the 3D file

    A 2D waypoint [(x, y, t)] flown at altitude 0 is the 3D waypoint
    [(x, y, 0, t)]. *)

Definition lift_point (p : D2.Point) : D3.Point := (fst p, snd p, 0).

Definition lift_waypoint (w : D2.Waypoint) : D3.Waypoint :=
  (lift_point (D2.position w), D2.stamp w).

Definition lift_fleet (fleet : Generic.Fleet (W := D2.Waypoint))
  : Generic.Fleet (W := D3.Waypoint) :=
  map (fun entry => (fst entry, map lift_waypoint (snd entry))) fleet.

Definition lift_event (e : ConflictEvent D2.Point) : ConflictEvent D3.Point :=
  mkEvent (ev_time e) (lift_point (ev_location e)) (ev_distance e)
          (ev_between e).

(** ** Either file

    The specification is about both files; [Variant] names the file, and the
    definitions of [Both] dispatch to it. *)

Inductive Variant : Type := TwoD | ThreeD.

Module Both.

Definition Waypoint (v : Variant) : Type :=
  match v with TwoD => D2.Waypoint | ThreeD => D3.Waypoint end.

Definition Point (v : Variant) : Type :=
  match v with TwoD => D2.Point | ThreeD => D3.Point end.

Definition stamp (v : Variant) : Waypoint v -> R :=
  match v with TwoD => D2.stamp | ThreeD => D3.stamp end.

Definition position (v : Variant) : Waypoint v -> Point v :=
  match v with TwoD => D2.position | ThreeD => D3.position end.

Definition interpolate (v : Variant)
  : Waypoint v -> Waypoint v -> R -> Point v :=
  match v with TwoD => D2.interpolate | ThreeD => D3.interpolate end.

Definition distance (v : Variant) : Point v -> Point v -> R :=
  match v with TwoD => D2.distance_2d | ThreeD => D3.distance_3d end.

Definition round_location (v : Variant) : Point v -> Point v :=
  match v with TwoD => D2.round_location | ThreeD => D3.round_location end.

Definition Fleet (v : Variant) : Type := list (string * list (Waypoint v)).

Definition sort_path_by_time (v : Variant)
  : list (Waypoint v) -> list (Waypoint v) :=
  match v with
  | TwoD => D2.sort_path_by_time
  | ThreeD => D3.sort_path_by_time
  end.

Definition get_position_at_time (v : Variant)
  : list (Waypoint v) -> R -> option (Point v) :=
  match v with
  | TwoD => D2.get_position_at_time
  | ThreeD => D3.get_position_at_time
  end.

Definition check_all_paths_conflict (v : Variant)
  : Fleet v -> R -> R -> Report (Point v) :=
  match v with
  | TwoD => D2.check_all_paths_conflict
  | ThreeD => D3.check_all_paths_conflict
  end.

(** [len(result.get("conflicts", []))]: the number of reported events. *)
Definition conflict_count (v : Variant) (fleet : Fleet v)
           (safety_distance time_step : R) : nat :=
  length (conflicts_of (check_all_paths_conflict v fleet safety_distance
                                                 time_step)).

Definition sorted_by_time (v : Variant) : list (Waypoint v) -> Prop :=
  Generic.sorted_by_time (stamp v).

Definition mission_window (v : Variant)
  : list (Waypoint v) -> list (Waypoint v) -> option (R * R) :=
  Generic.mission_window (stamp v).

Definition sample_at (v : Variant) :=
  Generic.sample_at (stamp v) (interpolate v) (distance v)
                    (round_location v).

Definition pair_conflicts (v : Variant) :=
  Generic.pair_conflicts (stamp v) (interpolate v) (distance v)
                         (round_location v).

End Both.

(** ** Example trajectories

    All coordinates and times are binary fractions. *)

Module Examples.

Local Open Scope string_scope.

(** Two drones that fly the segment from [(0, 0)] to [(10, 0)] in opposite
    directions during [[0, 10]]: at time [t] they are [|10 - 2 t|] apart
    and they meet at [t = 5]. *)
Definition crossing_A : list D2.Waypoint := [(0, 0, 0); (10, 0, 10)].
Definition crossing_B : list D2.Waypoint := [(10, 0, 0); (0, 0, 10)].
Definition crossing : Generic.Fleet :=
  [("A", crossing_A); ("B", crossing_B)].

(** Two drones that hover [129 / 128 = 1.0078125] apart during
    [[0, 10]]. *)
Definition hover_A : list D2.Waypoint := [(0, 0, 0); (0, 0, 10)].
Definition hover_B : list D2.Waypoint :=
  [(129 / 128, 0, 0); (129 / 128, 0, 10)].
Definition hovering : Generic.Fleet := [("A", hover_A); ("B", hover_B)].
Definition hovering_swapped : Generic.Fleet :=
  [("B", hover_B); ("A", hover_A)].

(** The event reported for [hovering] with safety distance [129 / 128]
    and time step [6] (one sample, at [t = 6]). *)
Definition hover_event : ConflictEvent D2.Point :=
  mkEvent 6 (0, 0) (101 / 100) ("A", "B").
Definition hover_event_swapped : ConflictEvent D2.Point :=
  mkEvent 6 (101 / 100, 0) (101 / 100) ("B", "A").

End Examples.

(** The coordinates of a point, in the order of the tuple. *)
Definition coordinates (v : Variant) : Both.Point v -> list R :=
  match v with
  | TwoD => fun p => [fst p; snd p]
  | ThreeD => fun p => let '(x, y, z) := p in [x; y; z]
  end.

(** ** The console and the plotting window

    The rest of each file talks to the user: [input] and [print] on the
    console, and calls of matplotlib.  An action takes the state of the
    console and of the window and gives a result, or the exception it
    raised, and the state afterwards. *)

Module Console.

(** The exceptions the scripts can raise: [input] at the end of the input,
    [int] and [float] on text that is not a number. *)
Inductive Exception : Type := EOFError | ValueError.

(** The calls of matplotlib, with their positional arguments: [plot] is
    [plot(..., marker='o', label=label)] and [scatter] is
    [scatter(..., color='red', s=90)]. *)
Inductive PlotCall : Type :=
| figure (width height : R)
| add_subplot_3d
| plot (coordinates : list (list R)) (label : string)
| scatter (coordinates : list R)
| xlabel (text : string)
| ylabel (text : string)
| zlabel (text : string)
| title (text : string)
| legend
| grid
| show.

(** The lines still to be read, the text written so far, and the calls made
    to matplotlib so far. *)
Record State : Type := mkState {
  stdin : list string;
  stdout : string;
  drawn : list PlotCall
}.

Inductive Result (A : Type) : Type :=
| Returned (a : A)
| Raised (e : Exception).
Arguments Returned {A} _.
Arguments Raised {A} _.

Definition Action (A : Type) : Type := State -> Result A * State.

Definition ret {A : Type} (a : A) : Action A := fun st => (Returned a, st).

Definition raise {A : Type} (e : Exception) : Action A :=
  fun st => (Raised e, st).

Definition bind {A B : Type} (m : Action A) (k : A -> Action B) : Action B :=
  fun st =>
    match m st with
    | (Returned a, st') => k a st'
    | (Raised e, st') => (Raised e, st')
    end.

Definition newline : string := String (Ascii.ascii_of_nat 10) EmptyString.

(** [print(text)]. *)
Definition print (text : string) : Action unit :=
  fun st =>
    (Returned tt,
     mkState (stdin st) (stdout st ++ text ++ newline) (drawn st)).

(** [input(prompt)]: the prompt is written, then a line is read. *)
Definition input (prompt : string) : Action string :=
  fun st =>
    match stdin st with
    | [] => (Raised EOFError,
             mkState [] (stdout st ++ prompt) (drawn st))
    | line :: rest => (Returned line,
                       mkState rest (stdout st ++ prompt) (drawn st))
    end.

(** A call of matplotlib. *)
Definition call (c : PlotCall) : Action unit :=
  fun st => (Returned tt, mkState (stdin st) (stdout st) (drawn st ++ [c])).

(** [str(n)] for a natural number. *)
Definition str_nat (n : nat) : string :=
  DecimalString.NilZero.string_of_uint (Nat.to_uint n).

End Console.

Declare Scope action_scope.
Delimit Scope action_scope with action.
Notation "x <- m ;; k" := (Console.bind m (fun x => k))
  (at level 61, m at next level, right associativity) : action_scope.
Notation "m ;; k" := (Console.bind m (fun _ => k))
  (at level 61, right associativity) : action_scope.

(** ** Reading the input and showing the result, shared by both files *)

Module Script.

Section Shared.

Local Open Scope string_scope.
Local Open Scope action_scope.
Import Console.

(** Python's [int] and [float] on a line of input ([None]: [ValueError]),
    [str] of a float and [repr] of a string. *)
Variable int_of_string : string -> option Z.
Variable float_of_string : string -> option R.
Variable str_float : R -> string.
Variable repr_str : string -> string.

(** [int(text)]. *)
Definition int (text : string) : Action Z :=
  match int_of_string text with
  | Some n => ret n
  | None => raise ValueError
  end.

(** [float(text)]. *)
Definition float (text : string) : Action R :=
  match float_of_string text with
  | Some x => ret x
  | None => raise ValueError
  end.

(** [float(input(prompt))]. *)
Definition float_input (prompt : string) : Action R :=
  line <- input prompt ;; float line.

Context {W P : Type}.

(** [all_drones_paths[name] = path]: the value of an existing key is
    replaced where the key stands, a new key is added at the end. *)
Fixpoint dict_set (all_drones_paths : Generic.Fleet (W := W)) (name : string)
         (path : list W) : Generic.Fleet (W := W) :=
  match all_drones_paths with
  | [] => [(name, path)]
  | (k, old) :: rest =>
      if String.eqb k name then (k, path) :: rest
      else (k, old) :: dict_set rest name path
  end.

(** What differs between the two files. *)
Variable get_drone_path : string -> Action (list W).
Variable check : Generic.Fleet (W := W) -> R -> R -> Report P.
Variable plot_paths : Generic.Fleet (W := W) -> Report P -> Action unit.
Variable str_location : P -> string.
Variable no_conflict_message : string.

(** [for i in range(num_drones): name = input(...);
     all_drones_paths[name] = get_drone_path(name)], from iteration [i]
    on. *)
Fixpoint read_drones (count i : nat)
         (all_drones_paths : Generic.Fleet (W := W))
  : Action (Generic.Fleet (W := W)) :=
  match count with
  | O => ret all_drones_paths
  | S count' =>
      name <- input (newline ++ "Enter name for Drone " ++ str_nat (i + 1)
                             ++ ": ") ;;
      path <- get_drone_path name ;;
      read_drones count' (S i) (dict_set all_drones_paths name path)
  end.

(** [str] of the pair of names. *)
Definition str_between (between : string * string) : string :=
  "(" ++ repr_str (fst between) ++ ", " ++ repr_str (snd between) ++ ")".

(** The line printed for conflict number [idx]. *)
Definition conflict_line (idx : nat) (c : ConflictEvent P) : string :=
  str_nat idx ++ ". Time: " ++ str_float (ev_time c)
  ++ " | Location: " ++ str_location (ev_location c)
  ++ " | Distance: " ++ str_float (ev_distance c)
  ++ " m | Between: " ++ str_between (ev_between c).

(** [for idx, c in enumerate(result["conflicts"], 1): print(...)]. *)
Fixpoint print_conflicts (idx : nat) (conflicts : list (ConflictEvent P))
  : Action unit :=
  match conflicts with
  | [] => ret tt
  | c :: rest => print (conflict_line idx c) ;; print_conflicts (S idx) rest
  end.

(** [print("\n--- RESULT ---")] and the [if]/[else] that prints the
    report. *)
Definition print_result (result : Report P) : Action unit :=
  print (newline ++ "--- RESULT ---") ;;
  match result with
  | CONFLICT conflicts =>
      print (str_nat (length conflicts) ++ " CONFLICT(S) DETECTED" ++ newline) ;;
      print_conflicts 1 conflicts
  | CLEAR => print no_conflict_message
  end.

(** The block under [if __name__ == "__main__":]. *)
Definition main : Action unit :=
  line <- input "Enter number of drones: " ;;
  num_drones <- int line ;;
  all_drones_paths <- read_drones (Z.to_nat num_drones) 0 [] ;;
  SAFETY_DISTANCE <-
    float_input (newline ++ "Enter safety distance (meters): ") ;;
  TIME_STEP <- float_input "Enter time step for checking (seconds): " ;;
  let result := check all_drones_paths SAFETY_DISTANCE TIME_STEP in
  print_result result ;;
  plot_paths all_drones_paths result.

End Shared.

End Script.

(** ** The script of the 2D file *)

Module Script2D.

Section Builtins.

Local Open Scope string_scope.
Local Open Scope action_scope.
Import Console.

Variable int_of_string : string -> option Z.
Variable float_of_string : string -> option R.
Variable str_float : R -> string.
Variable repr_str : string -> string.

(** [for i in range(points): ...; path.append((x, y, t))], from iteration
    [i] on. *)
Fixpoint read_waypoints (count i : nat) (path : list D2.Waypoint)
  : Action (list D2.Waypoint) :=
  match count with
  | O => ret path
  | S count' =>
      print ("Waypoint " ++ str_nat (i + 1) ++ ":") ;;
      x <- Script.float_input float_of_string "  x: " ;;
      y <- Script.float_input float_of_string "  y: " ;;
      t <- Script.float_input float_of_string "  time: " ;;
      read_waypoints count' (S i) (path ++ [(x, y, t)])
  end.

Definition get_drone_path (drone_name : string) : Action (list D2.Waypoint) :=
  line <- input (newline ++ "Enter number of waypoints for " ++ drone_name
                         ++ ": ") ;;
  points <- Script.int int_of_string line ;;
  (if (points <? 2)%Z
   then print ("Warning: Drone '" ++ drone_name
                 ++ "' has insufficient waypoints.")
   else ret tt) ;;
  read_waypoints (Z.to_nat points) 0 [].

(** [for drone_name, path in all_drones_paths.items(): ...]. *)
Fixpoint plot_trajectories (items : Generic.Fleet (W := D2.Waypoint))
  : Action unit :=
  match items with
  | [] => ret tt
  | (drone_name, path) :: rest =>
      (if (length path <? 2)%nat then ret tt
       else
         let path := D2.sort_path_by_time path in
         let x := map (fun p => fst (fst p)) path in
         let y := map (fun p => snd (fst p)) path in
         call (plot [x; y] drone_name)) ;;
      plot_trajectories rest
  end.

(** [for c in result["conflicts"]: cx, cy = c["location"];
     plt.scatter(cx, cy, color='red', s=90)]. *)
Fixpoint plot_conflicts (conflicts : list (ConflictEvent D2.Point))
  : Action unit :=
  match conflicts with
  | [] => ret tt
  | c :: rest =>
      let '(cx, cy) := ev_location c in
      call (scatter [cx; cy]) ;; plot_conflicts rest
  end.

Definition plot_paths_2d (all_drones_paths : Generic.Fleet (W := D2.Waypoint))
           (result : Report D2.Point) : Action unit :=
  call (figure 8 7) ;;
  plot_trajectories all_drones_paths ;;
  match result with
  | CONFLICT conflicts => plot_conflicts conflicts
  | CLEAR => ret tt
  end ;;
  call (xlabel "X Position") ;;
  call (ylabel "Y Position") ;;
  call (title "UAV Strategic Deconfliction (2D)") ;;
  call legend ;;
  call grid ;;
  call show.

(** [str] of a location tuple. *)
Definition str_location (location : D2.Point) : string :=
  "(" ++ str_float (fst location) ++ ", " ++ str_float (snd location) ++ ")".

Definition no_conflict_message : string := "NO CONFLICT ALL PATHS SAFE".

Definition main : Action unit :=
  Script.main int_of_string float_of_string str_float repr_str
       get_drone_path D2.check_all_paths_conflict plot_paths_2d
       str_location no_conflict_message.

End Builtins.

(** The numbers of a path in the order in which they are typed. *)
Definition typed_numbers (path : list D2.Waypoint) : list R :=
  flat_map (fun w => [fst (fst w); snd (fst w); snd w]) path.

End Script2D.

(** ** The script of the 3D file *)

Module Script3D.

Section Builtins.

Local Open Scope string_scope.
Local Open Scope action_scope.
Import Console.

Variable int_of_string : string -> option Z.
Variable float_of_string : string -> option R.
Variable str_float : R -> string.
Variable repr_str : string -> string.

(** [for i in range(points): ...; path.append((x, y, z, t))], from
    iteration [i] on. *)
Fixpoint read_waypoints (count i : nat) (path : list D3.Waypoint)
  : Action (list D3.Waypoint) :=
  match count with
  | O => ret path
  | S count' =>
      print ("Waypoint " ++ str_nat (i + 1) ++ ":") ;;
      x <- Script.float_input float_of_string "  x: " ;;
      y <- Script.float_input float_of_string "  y: " ;;
      z <- Script.float_input float_of_string "  z (altitude): " ;;
      t <- Script.float_input float_of_string "  time: " ;;
      read_waypoints count' (S i) (path ++ [(x, y, z, t)])
  end.

Definition get_drone_path (drone_name : string) : Action (list D3.Waypoint) :=
  line <- input (newline ++ "Enter number of waypoints for " ++ drone_name
                         ++ ": ") ;;
  points <- Script.int int_of_string line ;;
  (if (points <? 2)%Z
   then print ("Drone '" ++ drone_name ++ "' has insufficient waypoints.")
   else ret tt) ;;
  read_waypoints (Z.to_nat points) 0 [].

(** [for drone_name, path in all_drones_paths.items(): ...]. *)
Fixpoint plot_trajectories (items : Generic.Fleet (W := D3.Waypoint))
  : Action unit :=
  match items with
  | [] => ret tt
  | (drone_name, path) :: rest =>
      (if (length path <? 2)%nat then ret tt
       else
         let path := D3.sort_path_by_time path in
         let x := map (fun p => fst (fst (fst p))) path in
         let y := map (fun p => snd (fst (fst p))) path in
         let z := map (fun p => snd (fst p)) path in
         call (plot [x; y; z] drone_name)) ;;
      plot_trajectories rest
  end.

(** [for c in result["conflicts"]: cx, cy, cz = c["location"];
     ax.scatter(cx, cy, cz, color='red', s=90)]. *)
Fixpoint plot_conflicts (conflicts : list (ConflictEvent D3.Point))
  : Action unit :=
  match conflicts with
  | [] => ret tt
  | c :: rest =>
      let '(cx, cy, cz) := ev_location c in
      call (scatter [cx; cy; cz]) ;; plot_conflicts rest
  end.

Definition plot_paths_3d (all_drones_paths : Generic.Fleet (W := D3.Waypoint))
           (result : Report D3.Point) : Action unit :=
  call (figure 9 7) ;;
  call add_subplot_3d ;;
  plot_trajectories all_drones_paths ;;
  match result with
  | CONFLICT conflicts => plot_conflicts conflicts
  | CLEAR => ret tt
  end ;;
  call (xlabel "X Position") ;;
  call (ylabel "Y Position") ;;
  call (zlabel "Altitude (Z)") ;;
  call (title "UAV Strategic Deconfliction (3D)") ;;
  call legend ;;
  call show.

(** [str] of a location tuple. *)
Definition str_location (location : D3.Point) : string :=
  let '(x, y, z) := location in
  "(" ++ str_float x ++ ", " ++ str_float y ++ ", " ++ str_float z ++ ")".

(** The message holds an en dash (U+2013), here in UTF-8. *)
Definition en_dash : string :=
  String (Ascii.ascii_of_nat 226)
         (String (Ascii.ascii_of_nat 128)
                 (String (Ascii.ascii_of_nat 147) EmptyString)).

Definition no_conflict_message : string :=
  "NO CONFLICT " ++ en_dash ++ " ALL PATHS SAFE".

Definition main : Action unit :=
  Script.main int_of_string float_of_string str_float repr_str
       get_drone_path D3.check_all_paths_conflict plot_paths_3d
       str_location no_conflict_message.

End Builtins.

(** The numbers of a path in the order in which they are typed. *)
Definition typed_numbers (path : list D3.Waypoint) : list R :=
  flat_map (fun w => [fst (fst (fst w)); snd (fst (fst w)); snd (fst w); snd w])
           path.

End Script3D.

(** The lines typed for one drone in [main]: its name, its number of
    waypoints, and the numbers of its waypoints. *)
Definition typed_lines (typed : string * string * list string) : list string :=
  fst (fst typed) :: snd (fst typed) :: snd typed.

(** [scatter] calls, the red markers. *)
Definition is_scatter (c : Console.PlotCall) : bool :=
  match c with
  | Console.scatter _ => true
  | _ => false
  end.

(** What is typed for a drone ([name], number of waypoints, numbers) is the
    entry [(name, path)] of the fleet. *)
Definition typed_drone {W : Type} (int_of_string : string -> option Z)
           (float_of_string : string -> option R)
           (typed_numbers : list W -> list R)
           (typed : string * string * list string)
           (entry : string * list W) : Prop :=
  fst (fst typed) = fst entry
  /\ int_of_string (snd (fst typed)) = Some (Z.of_nat (length (snd entry)))
  /\ map float_of_string (snd typed) = map Some (typed_numbers (snd entry)).

(** The calls of [plot_paths_2d] in closed form: the line drawn for a drone,
    if it has at least 2 waypoints, and the marker drawn for a conflict. *)
Definition trajectory_calls_2d (entry : string * list D2.Waypoint)
  : list Console.PlotCall :=
  if (length (snd entry) <? 2)%nat then []
  else [Console.plot
          [map (fun p => fst (fst p)) (D2.sort_path_by_time (snd entry));
           map (fun p => snd (fst p)) (D2.sort_path_by_time (snd entry))]
          (fst entry)].

Definition marker_call_2d (c : ConflictEvent D2.Point) : Console.PlotCall :=
  Console.scatter [fst (ev_location c); snd (ev_location c)].

(** The same for [plot_paths_3d]. *)
Definition trajectory_calls_3d (entry : string * list D3.Waypoint)
  : list Console.PlotCall :=
  if (length (snd entry) <? 2)%nat then []
  else [Console.plot
          [map (fun p => fst (fst (fst p))) (D3.sort_path_by_time (snd entry));
           map (fun p => snd (fst (fst p))) (D3.sort_path_by_time (snd entry));
           map (fun p => snd (fst p)) (D3.sort_path_by_time (snd entry))]
          (fst entry)].

Definition marker_call_3d (c : ConflictEvent D3.Point) : Console.PlotCall :=
  Console.scatter [fst (fst (ev_location c)); snd (fst (ev_location c));
                   snd (ev_location c)].

(** The event names the drone, as first or as second of its pair. *)
Definition involves {P : Type} (name : string) (e : ConflictEvent P) : bool :=
  String.eqb (fst (ev_between e)) name || String.eqb (snd (ev_between e)) name.

(** * The detector on binary64 numbers

    The definitions above compute with real numbers.  Python's [float] is
    the binary64 format of IEEE 754: every [+], [-], [*], [/] and
    [math.sqrt] is rounded to the nearest representable number, [x ** 2]
    raises [OverflowError] when the square of a finite [x] is too large,
    and the [while] loop of the detector adds the step to [t] with a
    rounding at every turn, so that it can end early, late or not at all.
    Module [B64] is the same source text once more on the binary64 numbers
    of the kernel ([PrimFloat.float]), with the exceptions of the
    arithmetic and a bound on the number of turns of each [while] loop.
    Every number is a float, as the main block reads it with
    [float(input(...))]; [x ** 2] is taken as the product [x * x], rounded
    once.  What depends on the arithmetic is settled on these
    definitions. *)

Module B64.

Local Open Scope float_scope.

(** ** Outcomes *)

(** The exceptions of the arithmetic: [x ** 2] that overflows, [x / 0.0],
    and [math.sqrt] of a negative number. *)
Inductive Exception : Type := OverflowError | ZeroDivisionError | ValueError.

(** What a run of a piece of code gives when every [while] loop is allowed
    a bounded number of turns: the value returned, the exception raised, or
    [Unfinished] when a loop has used up its turns. *)
Inductive Run (A : Type) : Type :=
| Returns (a : A)
| Raises (e : Exception)
| Unfinished.
Arguments Returns {A} _.
Arguments Raises {A} _.
Arguments Unfinished {A}.

Definition bind {A B : Type} (m : Run A) (k : A -> Run B) : Run B :=
  match m with
  | Returns a => k a
  | Raises e => Raises e
  | Unfinished => Unfinished
  end.

(** The events of a loop whose body [f] appends to one list. *)
Fixpoint collect {A B : Type} (f : A -> Run (list B)) (l : list A)
  : Run (list B) :=
  match l with
  | [] => Returns []
  | a :: rest =>
      bind (f a) (fun here =>
      bind (collect f rest) (fun later => Returns (here ++ later)))
  end.

(** ** Numbers *)

(** [x / y]: a float division by zero raises. *)
Definition divide (x y : PrimFloat.float) : Run PrimFloat.float :=
  if y =? 0 then Raises ZeroDivisionError else Returns (x / y).

(** [x ** 2]: the square rounded to nearest; [OverflowError] when [x] is
    finite and its square is not. *)
Definition square (x : PrimFloat.float) : Run PrimFloat.float :=
  let y := x * x in
  if PrimFloat.is_finite x && PrimFloat.is_infinity y
  then Raises OverflowError
  else Returns y.

(** [math.sqrt(x)]: [ValueError] below zero. *)
Definition math_sqrt (x : PrimFloat.float) : Run PrimFloat.float :=
  if x <? 0 then Raises ValueError else Returns (PrimFloat.sqrt x).

(** [max(a, b)] keeps [a] unless [b > a]; [min(a, b)] keeps [a] unless
    [b < a]. *)
Definition max (a b : PrimFloat.float) : PrimFloat.float :=
  if a <? b then b else a.

Definition min (a b : PrimFloat.float) : PrimFloat.float :=
  if b <? a then b else a.

(** The integer nearest to [n / d] for [d > 0], ties to the even one. *)
Definition nearest_even_quotient (n d : Z) : Z :=
  let q := (n / d)%Z in
  match (2 * (n mod d) ?= d)%Z with
  | Lt => q
  | Gt => (q + 1)%Z
  | Eq => if Z.even q then q else (q + 1)%Z
  end.

(** [round(v, 2)]: the exact value of [v] is rounded to a whole number of
    hundredths, ties to even, and the result is the float nearest to that
    decimal number; the sign is kept, also for a zero.  From [2 ** 53]
    hundredths on the floats are more than [0.01] apart and [v] is
    returned; [nan] and the infinities are returned as they are. *)
Definition round2 (v : PrimFloat.float) : PrimFloat.float :=
  match FloatOps.Prim2SF v with
  | SpecFloat.S754_finite s m e =>
      let hundredths :=
        match e with
        | Zneg p => nearest_even_quotient (100 * Zpos m) (2 ^ Zpos p)
        | _ => (100 * Zpos m * 2 ^ e)%Z
        end in
      if (hundredths <? 2 ^ 53)%Z
      then
        let r := PrimFloat.of_uint63 (Uint63Axioms.of_Z hundredths) / 100 in
        if s then - r else r
      else v
  | _ => v
  end.

(** ** Conflict events and reports *)

Record ConflictEvent (P : Type) : Type := mkEvent {
  ev_time : PrimFloat.float;
  ev_location : P;
  ev_distance : PrimFloat.float;
  ev_between : string * string
}.
Arguments mkEvent {P} _ _ _ _.
Arguments ev_time {P} _.
Arguments ev_location {P} _.
Arguments ev_distance {P} _.
Arguments ev_between {P} _.

Inductive Report (P : Type) : Type :=
| CLEAR : Report P
| CONFLICT (conflicts : list (ConflictEvent P)) : Report P.
Arguments CLEAR {P}.
Arguments CONFLICT {P} _.

Definition conflicts_of {P} (r : Report P) : list (ConflictEvent P) :=
  match r with
  | CLEAR => []
  | CONFLICT cs => cs
  end.

(** ** The detector, shared by the two files *)

Section Detector.

Context {W P : Type}.
Variable stamp : W -> PrimFloat.float.
Variable interpolate : W -> W -> PrimFloat.float -> Run P.
Variable distance : P -> P -> Run PrimFloat.float.
Variable round_location : P -> P.

(** [sorted(path, key=stamp)] compares the timestamps with [<] only and is
    stable: a waypoint goes behind the sorted waypoints whose timestamp is
    smaller.  (For timestamps that are numbers; the order Python gives to
    a list with a [nan] key is not modelled.) *)
Fixpoint insert_by_time (w : W) (sorted : list W) : list W :=
  match sorted with
  | [] => [w]
  | v :: rest =>
      if stamp v <? stamp w then v :: insert_by_time w rest
      else w :: v :: rest
  end.

Definition sort_path_by_time (path : list W) : list W :=
  fold_right insert_by_time [] path.

(** [for i in range(len(path) - 1): if path[i][k] <= t <= path[i+1][k]:
    return interpolate(path[i], path[i+1], t)]; [None] after the loop. *)
Fixpoint get_position_at_time (path : list W) (t : PrimFloat.float)
  : Run (option P) :=
  match path with
  | a :: rest =>
      match rest with
      | b :: _ =>
          if (stamp a <=? t) && (t <=? stamp b)
          then bind (interpolate a b t) (fun pos => Returns (Some pos))
          else get_position_at_time rest t
      | [] => Returns None
      end
  | [] => Returns None
  end.

(** The body of the [while] loop at sample time [t]: the events appended
    to [conflicts] (none or one). *)
Definition sample_at (d1 d2 : string) (path1 path2 : list W)
           (safety_distance t : PrimFloat.float)
  : Run (list (ConflictEvent P)) :=
  bind (get_position_at_time path1 t) (fun pos1 =>
  bind (get_position_at_time path2 t) (fun pos2 =>
  match pos1, pos2 with
  | Some pos1, Some pos2 =>
      bind (distance pos1 pos2) (fun dist =>
      if dist <=? safety_distance
      then Returns [mkEvent (round2 t) (round_location pos1) (round2 dist)
                            (d1, d2)]
      else Returns [])
  | _, _ => Returns []
  end)).

(** [while t <= end_time: ...; t += effective_step], allowed [turns]
    turns. *)
Fixpoint sampling_loop (turns : nat) (d1 d2 : string) (path1 path2 : list W)
         (safety_distance effective_step end_time t : PrimFloat.float)
  : Run (list (ConflictEvent P)) :=
  match turns with
  | O => Unfinished
  | S turns' =>
      if t <=? end_time
      then
        bind (sample_at d1 d2 path1 path2 safety_distance t) (fun here =>
        bind (sampling_loop turns' d1 d2 path1 path2 safety_distance
                            effective_step end_time (t + effective_step))
             (fun later => Returns (here ++ later)))
      else Returns []
  end.

(** The values [t] takes while the guard of the loop holds, in at most
    [turns] turns: the sample times. *)
Fixpoint sample_times (turns : nat)
         (effective_step end_time t : PrimFloat.float)
  : list PrimFloat.float :=
  match turns with
  | O => []
  | S turns' =>
      if t <=? end_time
      then t :: sample_times turns' effective_step end_time
                             (t + effective_step)
      else []
  end.

(** The guard fails within [turns] turns: the loop ends (unless its body
    raises). *)
Fixpoint loop_ends (turns : nat)
         (effective_step end_time t : PrimFloat.float) : bool :=
  match turns with
  | O => false
  | S turns' =>
      if t <=? end_time
      then loop_ends turns' effective_step end_time (t + effective_step)
      else true
  end.

(** [effective_step = time_step;
     if effective_step >= mission_duration:
         effective_step = mission_duration / 20]. *)
Definition adaptive_step (time_step mission_duration : PrimFloat.float)
  : PrimFloat.float :=
  if mission_duration <=? time_step then mission_duration / 20
  else time_step.

(** The two length tests and the overlap window of two sorted paths:
    [None] when [len(path1) < 2 or len(path2) < 2], otherwise
    [start_time = max(path1[0][k], path2[0][k])] and
    [end_time = min(path1[-1][k], path2[-1][k])]. *)
Definition mission_window (path1 path2 : list W)
  : option (PrimFloat.float * PrimFloat.float) :=
  match path1, path2 with
  | a1 :: _ :: _, a2 :: _ :: _ =>
      Some (max (stamp a1) (stamp a2),
            min (stamp (last path1 a1)) (stamp (last path2 a2)))
  | _, _ => None
  end.

(** What the three tests before the loop leave of a pair: [None] at a
    [continue], otherwise the end of the window, the effective step and
    the first sample time. *)
Definition sampling_plan (p1 p2 : list W) (time_step : PrimFloat.float)
  : option (PrimFloat.float * PrimFloat.float * PrimFloat.float) :=
  match mission_window (sort_path_by_time p1) (sort_path_by_time p2) with
  | None => None
  | Some (start_time, end_time) =>
      let mission_duration := end_time - start_time in
      if mission_duration <=? 0 then None
      else
        let effective_step := adaptive_step time_step mission_duration in
        if effective_step <=? 0 then None
        else Some (end_time, effective_step, start_time + effective_step)
  end.

(** The body of the two [for] loops for one pair [(d1, d2)] whose waypoint
    lists are [p1] and [p2]. *)
Definition pair_conflicts (turns : nat) (d1 d2 : string) (p1 p2 : list W)
           (safety_distance time_step : PrimFloat.float)
  : Run (list (ConflictEvent P)) :=
  match sampling_plan p1 p2 time_step with
  | None => Returns []
  | Some (end_time, effective_step, t) =>
      sampling_loop turns d1 d2 (sort_path_by_time p1) (sort_path_by_time p2)
                    safety_distance effective_step end_time t
  end.

(** The sample times of a pair, in at most [turns] turns. *)
Definition pair_sample_times (turns : nat) (p1 p2 : list W)
           (time_step : PrimFloat.float) : list PrimFloat.float :=
  match sampling_plan p1 p2 time_step with
  | None => []
  | Some (end_time, effective_step, t) =>
      sample_times turns effective_step end_time t
  end.

(** [for i in range(len(drone_names)):
      for j in range(i + 1, len(drone_names)): ...]. *)
Fixpoint pairwise (turns : nat) (all_drones_paths : Generic.Fleet (W := W))
         (safety_distance time_step : PrimFloat.float)
         (names : list string) : Run (list (ConflictEvent P)) :=
  match names with
  | [] => Returns []
  | d1 :: later =>
      bind (collect (fun d2 =>
                       pair_conflicts turns d1 d2
                                      (Generic.dict_get all_drones_paths d1)
                                      (Generic.dict_get all_drones_paths d2)
                                      safety_distance time_step) later)
           (fun here =>
      bind (pairwise turns all_drones_paths safety_distance time_step later)
           (fun rest => Returns (here ++ rest)))
  end.

Definition check_all_paths_conflict (turns : nat)
           (all_drones_paths : Generic.Fleet (W := W))
           (safety_distance time_step : PrimFloat.float) : Run (Report P) :=
  bind (pairwise turns all_drones_paths safety_distance time_step
                 (Generic.drone_names all_drones_paths))
       (fun conflicts =>
          match conflicts with
          | [] => Returns CLEAR
          | _ :: _ => Returns (CONFLICT conflicts)
          end).

(** Waypoints in ascending order of timestamp. *)
Fixpoint sorted_by_time (path : list W) : Prop :=
  match path with
  | a :: rest =>
      match rest with
      | b :: _ => (stamp a <=? stamp b) = true /\ sorted_by_time rest
      | [] => True
      end
  | [] => True
  end.

End Detector.

(** The sample times strictly inside the open interval
    [(start_time, end_time)]. *)
Definition interior_samples (start_time end_time : PrimFloat.float)
           (times : list PrimFloat.float) : list PrimFloat.float :=
  filter (fun t => (start_time <? t) && (t <? end_time)) times.

(** ** The 2D file: waypoints [(x, y, t)] *)

Module D2.

Definition Point : Type := PrimFloat.float * PrimFloat.float.
Definition Waypoint : Type :=
  PrimFloat.float * PrimFloat.float * PrimFloat.float.

Definition stamp (p : Waypoint) : PrimFloat.float := snd p.
Definition position (p : Waypoint) : Point := fst p.

Definition distance_2d (p1 p2 : Point) : Run PrimFloat.float :=
  bind (square (fst p1 - fst p2)) (fun dx2 =>
  bind (square (snd p1 - snd p2)) (fun dy2 =>
  math_sqrt (dx2 + dy2))).

Definition interpolate (p_start p_end : Waypoint) (t : PrimFloat.float)
  : Run Point :=
  let '(x1, y1, t1) := p_start in
  let '(x2, y2, t2) := p_end in
  if t2 =? t1 then Returns (x1, y1)
  else
    bind (divide (t - t1) (t2 - t1)) (fun ratio =>
    let x := x1 + ratio * (x2 - x1) in
    let y := y1 + ratio * (y2 - y1) in
    Returns (x, y)).

Definition round_location (pos : Point) : Point :=
  (round2 (fst pos), round2 (snd pos)).

Definition sort_path_by_time := sort_path_by_time stamp.
Definition get_position_at_time := get_position_at_time stamp interpolate.
Definition check_all_paths_conflict :=
  check_all_paths_conflict stamp interpolate distance_2d round_location.

End D2.

(** ** The 3D file: waypoints [(x, y, z, t)] *)

Module D3.

Definition Point : Type :=
  PrimFloat.float * PrimFloat.float * PrimFloat.float.
Definition Waypoint : Type :=
  PrimFloat.float * PrimFloat.float * PrimFloat.float * PrimFloat.float.

Definition stamp (p : Waypoint) : PrimFloat.float := snd p.
Definition position (p : Waypoint) : Point := fst p.

Definition distance_3d (p1 p2 : Point) : Run PrimFloat.float :=
  let '(x1, y1, z1) := p1 in
  let '(x2, y2, z2) := p2 in
  bind (square (x1 - x2)) (fun dx2 =>
  bind (square (y1 - y2)) (fun dy2 =>
  bind (square (z1 - z2)) (fun dz2 =>
  math_sqrt (dx2 + dy2 + dz2)))).

Definition interpolate (p_start p_end : Waypoint) (t : PrimFloat.float)
  : Run Point :=
  let '(x1, y1, z1, t1) := p_start in
  let '(x2, y2, z2, t2) := p_end in
  if t2 =? t1 then Returns (x1, y1, z1)
  else
    bind (divide (t - t1) (t2 - t1)) (fun ratio =>
    let x := x1 + ratio * (x2 - x1) in
    let y := y1 + ratio * (y2 - y1) in
    let z := z1 + ratio * (z2 - z1) in
    Returns (x, y, z)).

Definition round_location (pos : Point) : Point :=
  let '(x, y, z) := pos in (round2 x, round2 y, round2 z).

Definition sort_path_by_time := sort_path_by_time stamp.
Definition get_position_at_time := get_position_at_time stamp interpolate.
Definition check_all_paths_conflict :=
  check_all_paths_conflict stamp interpolate distance_3d round_location.

End D3.

(** ** Both files at once *)

Module Both.

Definition Point (v : Variant) : Type :=
  match v with TwoD => D2.Point | ThreeD => D3.Point end.

Definition Waypoint (v : Variant) : Type :=
  match v with TwoD => D2.Waypoint | ThreeD => D3.Waypoint end.

Definition stamp (v : Variant) : Waypoint v -> PrimFloat.float :=
  match v with TwoD => D2.stamp | ThreeD => D3.stamp end.

Definition position (v : Variant) : Waypoint v -> Point v :=
  match v with TwoD => D2.position | ThreeD => D3.position end.

Definition interpolate (v : Variant)
  : Waypoint v -> Waypoint v -> PrimFloat.float -> Run (Point v) :=
  match v with TwoD => D2.interpolate | ThreeD => D3.interpolate end.

Definition distance (v : Variant)
  : Point v -> Point v -> Run PrimFloat.float :=
  match v with TwoD => D2.distance_2d | ThreeD => D3.distance_3d end.

Definition round_location (v : Variant) : Point v -> Point v :=
  match v with TwoD => D2.round_location | ThreeD => D3.round_location end.

Definition Fleet (v : Variant) : Type := list (string * list (Waypoint v)).

Definition sort_path_by_time (v : Variant)
  : list (Waypoint v) -> list (Waypoint v) :=
  match v with
  | TwoD => D2.sort_path_by_time
  | ThreeD => D3.sort_path_by_time
  end.

Definition get_position_at_time (v : Variant)
  : list (Waypoint v) -> PrimFloat.float -> Run (option (Point v)) :=
  match v with
  | TwoD => D2.get_position_at_time
  | ThreeD => D3.get_position_at_time
  end.

Definition check_all_paths_conflict (v : Variant)
  : nat -> Fleet v -> PrimFloat.float -> PrimFloat.float
    -> Run (Report (Point v)) :=
  match v with
  | TwoD => D2.check_all_paths_conflict
  | ThreeD => D3.check_all_paths_conflict
  end.

Definition sorted_by_time (v : Variant) : list (Waypoint v) -> Prop :=
  sorted_by_time (stamp v).

Definition mission_window (v : Variant)
  : list (Waypoint v) -> list (Waypoint v)
    -> option (PrimFloat.float * PrimFloat.float) :=
  mission_window (stamp v).

Definition pair_sample_times (v : Variant)
  : nat -> list (Waypoint v) -> list (Waypoint v) -> PrimFloat.float
    -> list PrimFloat.float :=
  pair_sample_times (stamp v).

Definition sampling_plan (v : Variant)
  : list (Waypoint v) -> list (Waypoint v) -> PrimFloat.float
    -> option (PrimFloat.float * PrimFloat.float * PrimFloat.float) :=
  sampling_plan (stamp v).

Definition pair_conflicts (v : Variant)
  : nat -> string -> string -> list (Waypoint v) -> list (Waypoint v)
    -> PrimFloat.float -> PrimFloat.float
    -> Run (list (ConflictEvent (Point v))) :=
  pair_conflicts (stamp v) (interpolate v) (distance v) (round_location v).

(** The coordinates of a point, in the order of the tuple. *)
Definition coordinates (v : Variant) : Point v -> list PrimFloat.float :=
  match v with
  | TwoD => fun p => [fst p; snd p]
  | ThreeD => fun p => let '(x, y, z) := p in [x; y; z]
  end.

(** The differences [x2 - x1], ... that [interpolate] forms from the
    positions of two waypoints. *)
Definition displacement (v : Variant) (p_start p_end : Waypoint v)
  : list PrimFloat.float :=
  map (fun c => snd c - fst c)
      (combine (coordinates v (position v p_start))
               (coordinates v (position v p_end))).

(** What [interpolate] computes for the ratio [1.0]:
    [x1 + 1.0 * (x2 - x1)], ..., that is [x1 + (x2 - x1)] with both
    operations rounded. *)
Definition end_of_leg (v : Variant) : Waypoint v -> Waypoint v -> Point v :=
  match v with
  | TwoD =>
      fun p_start p_end =>
        let '(x1, y1, _) := p_start in
        let '(x2, y2, _) := p_end in
        (x1 + (x2 - x1), y1 + (y2 - y1))
  | ThreeD =>
      fun p_start p_end =>
        let '(x1, y1, z1, _) := p_start in
        let '(x2, y2, z2, _) := p_end in
        (x1 + (x2 - x1), y1 + (y2 - y1), z1 + (z2 - z1))
  end.

End Both.

(** The first [n] values of [t] when the loop starts at [t] and the guard
    holds: [t], [t + step], [(t + step) + step], ..., each sum rounded. *)
Fixpoint partial_sums (n : nat) (step t : PrimFloat.float)
  : list PrimFloat.float :=
  match n with
  | O => []
  | S n' => t :: partial_sums n' step (t + step)
  end.

End B64.

(** The events of a run that returns (none for a run that raises or is
    unfinished). *)
Definition events_of {B : Type} (m : B64.Run (list B)) : list B :=
  match m with
  | B64.Returns evs => evs
  | _ => []
  end.

(** ** Example trajectories on binary64 numbers *)

Module B64Examples.

Local Open Scope string_scope.
Local Open Scope float_scope.

(** The crossing drones of [Examples.crossing]. *)
Definition crossing_A : list B64.D2.Waypoint := [(0, 0, 0); (10, 0, 10)].
Definition crossing_B : list B64.D2.Waypoint := [(10, 0, 0); (0, 0, 10)].
Definition crossing : B64.Both.Fleet TwoD :=
  [("A", crossing_A); ("B", crossing_B)].

(** Two drones that hover [1] apart during [[0, 10]]. *)
Definition hover_A : list B64.D2.Waypoint := [(0, 0, 0); (0, 0, 10)].
Definition hover_B : list B64.D2.Waypoint := [(1, 0, 0); (1, 0, 10)].
Definition hovering : B64.Both.Fleet TwoD :=
  [("A", hover_A); ("B", hover_B)].

(** A drone that waits at the origin during [[0, 1]] and one that comes in
    from [1e17] and reaches the origin at [t = 1]; only at [t = 1] are
    they within [5] of each other. *)
Definition waiting : list B64.D2.Waypoint := [(0, 0, 0); (0, 0, 1)].
Definition arriving : list B64.D2.Waypoint := [(1e17, 0, 0); (0, 0, 1)].
Definition arrival : B64.Both.Fleet TwoD :=
  [("A", waiting); ("B", arriving)].

(** Two drones that hover [1] apart during [[2 ** 53, 2 ** 53 + 30]],
    where the floats are [2] apart. *)
Definition late_A : list B64.D2.Waypoint :=
  [(0, 0, 0x1p53); (0, 0, 0x1p53 + 30)].
Definition late_B : list B64.D2.Waypoint :=
  [(1, 0, 0x1p53); (1, 0, 0x1p53 + 30)].

(** Two drones that hover [1] apart during [[1e16, 1e16 + 2]], where the
    floats are [2] apart: [1e16 + 1] is rounded to [1e16]. *)
Definition stuck_A : list B64.D2.Waypoint :=
  [(0, 0, 1e16); (0, 0, 1e16 + 2)].
Definition stuck_B : list B64.D2.Waypoint :=
  [(1, 0, 1e16); (1, 0, 1e16 + 2)].
Definition stuck : B64.Both.Fleet TwoD :=
  [("A", stuck_A); ("B", stuck_B)].

(** Two drones that hover [1] apart during [[0, 5e-324]], the shortest
    window there is: a twentieth of its duration is rounded to zero. *)
Definition brief_A : list B64.D2.Waypoint := [(0, 0, 0); (0, 0, 5e-324)].
Definition brief_B : list B64.D2.Waypoint := [(1, 0, 0); (1, 0, 5e-324)].

(** A path in ascending order of time whose first two waypoints share
    the timestamp [0]. *)
Definition held : list B64.D2.Waypoint := [(0, 0, 0); (5, 5, 0); (1, 1, 1)].

(** A path in ascending order of time whose last two waypoints share the
    timestamp [1]. *)
Definition kept : list B64.D2.Waypoint := [(0, 0, 0); (5, 5, 1); (7, 7, 1)].

(** A leg from [x = 1e16] to [x = 1]: the difference [1 - 1e16] is
    rounded to [-1e16]. *)
Definition far : list B64.D2.Waypoint := [(1e16, 0, 0); (1, 0, 1)].

End B64Examples.

(** ** Reading binary64 numbers

    The operations of [PrimFloat] are specified on [SpecFloat.spec_float]:
    a zero, an infinity, [nan], or a sign, a mantissa and an exponent.  The
    predicates below read a float through this specification. *)

Module FloatSpec.

Import SpecFloat FloatOps.
Local Open Scope Z_scope.

(** A number (not [nan]) as a point of [Z * Z * Z] in lexicographic order:
    the infinities at the ends, the zeros in the middle, and a finite
    number by exponent, then mantissa, on the side of its sign. *)
Definition key (x : spec_float) : option (Z * Z * Z) :=
  match x with
  | S754_nan => None
  | S754_infinity true => Some (-2, 0, 0)
  | S754_infinity false => Some (2, 0, 0)
  | S754_zero _ => Some (0, 0, 0)
  | S754_finite true m e => Some (-1, - e, - Zpos m)
  | S754_finite false m e => Some (1, e, Zpos m)
  end.

(** The lexicographic order on [Z * Z * Z]. *)
Definition lex_lt (a b : Z * Z * Z) : Prop :=
  fst (fst a) < fst (fst b)
  \/ (fst (fst a) = fst (fst b)
      /\ (snd (fst a) < snd (fst b)
          \/ (snd (fst a) = snd (fst b) /\ snd a < snd b))).

(** The point of a float; [None] for [nan]. *)
Definition fkey (x : PrimFloat.float) : option (Z * Z * Z) :=
  key (Prim2SF x).

(** Two floats are numbers and the first is below the second. *)
Definition key_lt (p q : option (Z * Z * Z)) : Prop :=
  match p, q with
  | Some a, Some b => lex_lt a b
  | _, _ => False
  end.

(** Two floats are numbers and compare equal ([-0.0] and [0.0] do). *)
Definition key_eq (p q : option (Z * Z * Z)) : Prop :=
  match p, q with
  | Some a, Some b => a = b
  | _, _ => False
  end.

(** Not a zero and not [nan]. *)
Definition nonzero_number (x : spec_float) : Prop :=
  match x with
  | S754_finite _ _ _ | S754_infinity _ => True
  | _ => False
  end.

(** [0.0] or [-0.0]. *)
Definition is_zero_number (x : spec_float) : Prop :=
  match x with
  | S754_zero _ => True
  | _ => False
  end.

(** Neither an infinity nor [nan]. *)
Definition finite_number (x : spec_float) : Prop :=
  match x with
  | S754_zero _ | S754_finite _ _ _ => True
  | _ => False
  end.

(** A number that is not negative: a zero, [+inf], a positive number, or
    [nan]. *)
Definition not_negative (x : spec_float) : Prop :=
  match x with
  | S754_zero _ | S754_infinity false | S754_finite false _ _ | S754_nan =>
      True
  | _ => False
  end.

End FloatSpec.

Import Generic.
Import FloatSpec.

(** * Properties *)

(** ** Comparisons *)

Lemma Rleb_true (a b : R) : Rleb a b = true <-> a <= b.
Proof. unfold Rleb. destruct (Rle_dec a b); split; intros; congruence || lra. Qed.

Lemma Rleb_false (a b : R) : Rleb a b = false <-> b < a.
Proof. unfold Rleb. destruct (Rle_dec a b); split; intros; congruence || lra. Qed.

Lemma Rgeb_true (a b : R) : Rgeb a b = true <-> b <= a.
Proof. unfold Rgeb. destruct (Rge_dec a b); split; intros; congruence || lra. Qed.

Lemma Rgeb_false (a b : R) : Rgeb a b = false <-> a < b.
Proof. unfold Rgeb. destruct (Rge_dec a b); split; intros; congruence || lra. Qed.

Lemma Reqb_true (a b : R) : Reqb a b = true <-> a = b.
Proof. unfold Reqb. destruct (Req_dec_T a b); split; intros; congruence. Qed.

Lemma Reqb_false (a b : R) : Reqb a b = false <-> a <> b.
Proof. unfold Reqb. destruct (Req_dec_T a b); split; intros; congruence. Qed.

(** Decide every comparison in the goal whose outcome linear arithmetic
    settles from the context. *)
Ltac decide_cmp :=
  repeat match goal with
    | |- context [Rleb ?a ?b] =>
        first [ replace (Rleb a b) with true by (symmetry; apply Rleb_true; lra)
              | replace (Rleb a b) with false by (symmetry; apply Rleb_false; lra) ]
    | |- context [Rgeb ?a ?b] =>
        first [ replace (Rgeb a b) with true by (symmetry; apply Rgeb_true; lra)
              | replace (Rgeb a b) with false by (symmetry; apply Rgeb_false; lra) ]
    | |- context [Reqb ?a ?b] =>
        first [ replace (Reqb a b) with true by (symmetry; apply Reqb_true; lra)
              | replace (Reqb a b) with false by (symmetry; apply Reqb_false; lra) ]
    end.

Lemma length_flat_map_le {A B : Type} (f g : A -> list B) (l : list A) :
  (forall a, (length (f a) <= length (g a))%nat) ->
  (length (flat_map f l) <= length (flat_map g l))%nat.
Proof.
  intros Hfg. induction l as [|a l IH]; simpl.
  - lia.
  - rewrite !length_app. specialize (Hfg a). lia.
Qed.

Lemma flat_map_nil {A B : Type} (f : A -> list B) (l : list A) :
  (forall a, f a = []) -> flat_map f l = [].
Proof.
  intros Hf. induction l as [|a l IH]; simpl; [reflexivity|].
  now rewrite Hf, IH.
Qed.

(** ** The sampling loop *)

Section LoopFacts.

Context {W P : Type}.
Variable stamp : W -> R.
Variable interpolate : W -> W -> R -> P.
Variable distance : P -> P -> R.
Variable round_location : P -> P.

Local Abbreviation sample_at := (sample_at stamp interpolate distance round_location).
Local Abbreviation sampling_loop :=
  (sampling_loop stamp interpolate distance round_location).
Local Abbreviation pair_conflicts :=
  (pair_conflicts stamp interpolate distance round_location).
Local Abbreviation pairwise := (pairwise stamp interpolate distance round_location).
Local Abbreviation check := (check_all_paths_conflict stamp interpolate distance round_location).

(** The loop appends the events of its body at each visited sample time. *)
Lemma sampling_loop_times fuel d1 d2 path1 path2 safety step end_t t :
  sampling_loop fuel d1 d2 path1 path2 safety step end_t t
  = flat_map (sample_at d1 d2 path1 path2 safety)
             (sample_times fuel step end_t t).
Proof.
  revert t. induction fuel as [|fuel IH]; intros t; simpl; [reflexivity|].
  destruct (Rleb t end_t); simpl; [|reflexivity].
  now rewrite IH.
Qed.

(** Once the guard [t <= end_time] fails within the fuel, more fuel changes
    nothing. *)
Lemma sample_times_fuel f1 f2 step end_t t :
  0 < step ->
  end_t < t + INR f1 * step ->
  end_t < t + INR f2 * step ->
  sample_times f1 step end_t t = sample_times f2 step end_t t.
Proof.
  intros Hstep. revert f2 t.
  induction f1 as [|f1 IH]; intros f2 t H1 H2.
  - simpl in H1. destruct f2 as [|f2]; simpl; [reflexivity|].
    now decide_cmp.
  - destruct f2 as [|f2].
    + simpl in H2. simpl. now decide_cmp.
    + rewrite S_INR in H1, H2. simpl.
      destruct (Rleb t end_t); [|reflexivity].
      f_equal. apply IH; lra.
Qed.

(** The fuel given to the loop by the detector is enough. *)
Lemma sampling_fuel_enough start end_t step :
  0 < step -> 0 < end_t - start ->
  end_t < (start + step) + INR (sampling_fuel (end_t - start) step) * step.
Proof.
  intros Hstep Hdur. unfold sampling_fuel.
  set (q := (end_t - start) / step).
  assert (Hq : 0 < q) by (apply Rdiv_lt_0_compat; lra).
  destruct (archimed q) as [Hup _].
  assert (Hpos : (0 <= up q)%Z).
  { apply le_IZR. lra. }
  rewrite INR_IZR_INZ, Z2Nat.id by exact Hpos.
  assert (Heq : end_t - start = q * step).
  { unfold q. field. lra. }
  nra.
Qed.

(** The [while] loop of the detector ends because its guard fails, not
    because the fuel runs out: any fuel beyond the last sample time gives
    the events of the detector's own fuel. *)
Lemma sampling_loop_fuel_irrelevant fuel d1 d2 path1 path2 safety
      start end_t step :
  0 < step -> 0 < end_t - start ->
  end_t < (start + step) + INR fuel * step ->
  sampling_loop fuel d1 d2 path1 path2 safety step end_t (start + step)
  = sampling_loop (sampling_fuel (end_t - start) step) d1 d2 path1 path2
                  safety step end_t (start + step).
Proof.
  intros Hstep Hd Hfuel. rewrite !sampling_loop_times. f_equal.
  apply sample_times_fuel; [exact Hstep | exact Hfuel |].
  now apply sampling_fuel_enough.
Qed.

(** *** Sorting keeps the waypoints *)

Lemma length_insert_by_time w l :
  length (insert_by_time stamp w l) = S (length l).
Proof.
  induction l as [|v l IH]; simpl; [reflexivity|].
  destruct (Rleb (stamp w) (stamp v)); simpl; [reflexivity|].
  now rewrite IH.
Qed.

Lemma length_sort_path_by_time path :
  length (sort_path_by_time stamp path) = length path.
Proof.
  induction path as [|w path IH]; simpl; [reflexivity|].
  now rewrite length_insert_by_time, IH.
Qed.

(** *** Pairs that are skipped *)

(** A pair with a trajectory of fewer than 2 waypoints takes the first
    [continue]. *)
Lemma pair_conflicts_degenerate d1 d2 p1 p2 safety time_step :
  (length p1 < 2)%nat \/ (length p2 < 2)%nat ->
  pair_conflicts d1 d2 p1 p2 safety time_step = [].
Proof.
  intros Hlen. unfold pair_conflicts, mission_window.
  pose proof (length_sort_path_by_time p1) as H1.
  pose proof (length_sort_path_by_time p2) as H2.
  destruct (sort_path_by_time stamp p1) as [|a1 [|b1 r1]];
    destruct (sort_path_by_time stamp p2) as [|a2 [|b2 r2]];
    try reflexivity; simpl in H1, H2; lia.
Qed.

(** With a time step that is not positive, the step stays the caller's
    whenever the overlap has positive duration. *)
Lemma adaptive_step_nonpositive time_step duration :
  time_step <= 0 -> 0 < duration ->
  adaptive_step time_step duration = time_step.
Proof.
  intros Hts Hd. unfold adaptive_step. now decide_cmp.
Qed.

Lemma pair_conflicts_nonpositive_step d1 d2 p1 p2 safety time_step :
  time_step <= 0 ->
  pair_conflicts d1 d2 p1 p2 safety time_step = [].
Proof.
  intros Hts. unfold pair_conflicts.
  destruct (mission_window _ _ _) as [[start_t end_t]|]; [|reflexivity].
  cbv zeta.
  match goal with |- context [Rleb ?d 0] => destruct (Rleb d 0) eqn:Hd end;
    [reflexivity|].
  apply Rleb_false in Hd.
  rewrite adaptive_step_nonpositive by lra.
  now decide_cmp.
Qed.

Lemma pairwise_nil_of_pairs fleet safety time_step names :
  (forall d1 d2,
      pair_conflicts d1 d2 (dict_get fleet d1) (dict_get fleet d2)
                     safety time_step = []) ->
  pairwise fleet safety time_step names = [].
Proof.
  intros Hpc. induction names as [|d1 later IH]; simpl; [reflexivity|].
  rewrite IH, app_nil_r. apply flat_map_nil. intros d2. apply Hpc.
Qed.

(** *** The report *)

Lemma check_conflicts fleet safety time_step :
  conflicts_of (check fleet safety time_step)
  = pairwise fleet safety time_step (drone_names fleet).
Proof.
  unfold check_all_paths_conflict.
  now destruct (pairwise fleet safety time_step (drone_names fleet)).
Qed.

Lemma check_status fleet safety time_step :
  let r := check fleet safety time_step in
  (status r = "CONFLICT"%string <-> conflicts_of r <> [])
  /\ (status r = "CLEAR"%string <-> conflicts_of r = []).
Proof.
  unfold check_all_paths_conflict.
  destruct (pairwise fleet safety time_step (drone_names fleet)); simpl;
    repeat split; intros; congruence.
Qed.

Lemma check_clear_of_no_conflicts fleet safety time_step :
  pairwise fleet safety time_step (drone_names fleet) = [] ->
  check fleet safety time_step = CLEAR.
Proof.
  intros H. unfold check_all_paths_conflict. now rewrite H.
Qed.

Lemma dict_get_length_lt (fleet : Fleet (W := W)) name :
  (forall d path, In (d, path) fleet -> (length path < 2)%nat) ->
  (length (dict_get fleet name) < 2)%nat.
Proof.
  intros Hall. induction fleet as [|[k path] rest IH]; simpl; [lia|].
  destruct (String.eqb k name).
  - apply (Hall k). now left.
  - apply IH. intros d p Hin. apply (Hall d). now right.
Qed.

(** *** Monotonicity in the safety distance *)

Lemma sample_at_safety_mono d1 d2 path1 path2 s' s t :
  s' <= s ->
  (length (sample_at d1 d2 path1 path2 s' t)
   <= length (sample_at d1 d2 path1 path2 s t))%nat.
Proof.
  intros Hs. unfold sample_at.
  destruct (get_position_at_time stamp interpolate path1 t) as [pos1|];
    [|simpl; lia].
  destruct (get_position_at_time stamp interpolate path2 t) as [pos2|];
    [|simpl; lia].
  cbv zeta.
  destruct (Rleb (distance pos1 pos2) s') eqn:H'; [|simpl; lia].
  apply Rleb_true in H'.
  replace (Rleb (distance pos1 pos2) s) with true
    by (symmetry; apply Rleb_true; lra).
  simpl; lia.
Qed.

Lemma pair_conflicts_safety_mono d1 d2 p1 p2 s' s time_step :
  s' <= s ->
  (length (pair_conflicts d1 d2 p1 p2 s' time_step)
   <= length (pair_conflicts d1 d2 p1 p2 s time_step))%nat.
Proof.
  intros Hs. unfold pair_conflicts.
  destruct (mission_window _ _ _) as [[start_t end_t]|]; [|simpl; lia].
  cbv zeta.
  match goal with |- context [Rleb ?d 0] => destruct (Rleb d 0) end;
    [simpl; lia|].
  match goal with |- context [Rleb ?d 0] => destruct (Rleb d 0) end;
    [simpl; lia|].
  rewrite !sampling_loop_times.
  apply length_flat_map_le. intros t. now apply sample_at_safety_mono.
Qed.

Lemma pairwise_safety_mono fleet s' s time_step names :
  s' <= s ->
  (length (pairwise fleet s' time_step names)
   <= length (pairwise fleet s time_step names))%nat.
Proof.
  intros Hs. induction names as [|d1 later IH]; simpl; [lia|].
  rewrite !length_app.
  pose proof (length_flat_map_le
                (fun d2 => pair_conflicts d1 d2 (dict_get fleet d1)
                                          (dict_get fleet d2) s' time_step)
                (fun d2 => pair_conflicts d1 d2 (dict_get fleet d1)
                                          (dict_get fleet d2) s time_step)
                later) as Hfm.
  assert (Hle : (length (flat_map (fun d2 => pair_conflicts d1 d2 (dict_get fleet d1)
                                          (dict_get fleet d2) s' time_step) later)
                 <= length (flat_map (fun d2 => pair_conflicts d1 d2 (dict_get fleet d1)
                                          (dict_get fleet d2) s time_step) later))%nat).
  { apply Hfm. intros d2. now apply pair_conflicts_safety_mono. }
  lia.
Qed.

End LoopFacts.

(** ** Position lookup *)

Lemma last_nonempty_default {A : Type} (x : A) (l : list A) (d d' : A) :
  last (x :: l) d = last (x :: l) d'.
Proof.
  revert x. induction l as [|y l IH]; intros x; [reflexivity|].
  change (last (y :: l) d = last (y :: l) d'). apply IH.
Qed.

Lemma last_cons_cons {A : Type} (a b : A) (l : list A) :
  last (a :: b :: l) a = last (b :: l) b.
Proof.
  change (last (b :: l) a = last (b :: l) b). apply last_nonempty_default.
Qed.

Section PositionFacts.

Context {W P : Type}.
Variable stamp : W -> R.
Variable interpolate : W -> W -> R -> P.

Local Abbreviation gpat := (get_position_at_time stamp interpolate).
Local Abbreviation sorted := (sorted_by_time stamp).

Lemma gpat_cons a b rest t :
  gpat (a :: b :: rest) t
  = if Rleb (stamp a) t && Rleb t (stamp b)
    then Some (interpolate a b t) else gpat (b :: rest) t.
Proof. reflexivity. Qed.

Lemma gpat_short path t :
  (length path < 2)%nat -> gpat path t = None.
Proof.
  destruct path as [|a [|b rest]]; simpl; intros; try reflexivity; lia.
Qed.

(** Between the first and the last timestamp some segment brackets [t]. *)
Lemma gpat_inside a rest t :
  (2 <= length (a :: rest))%nat ->
  stamp a <= t <= stamp (last (a :: rest) a) ->
  exists p, gpat (a :: rest) t = Some p.
Proof.
  revert a. induction rest as [|b rest IH]; intros a Hlen Ht.
  - simpl in Hlen. lia.
  - rewrite gpat_cons.
    destruct (Rleb (stamp a) t && Rleb t (stamp b)) eqn:Hseg; [eauto|].
    apply andb_false_iff in Hseg.
    assert (Hb : stamp b < t).
    { destruct Hseg as [H|H]; apply Rleb_false in H; lra. }
    rewrite last_cons_cons in Ht.
    apply IH; [|lra].
    destruct rest as [|c rest]; [simpl in Ht; lra | simpl; lia].
Qed.

Lemma sorted_head_le_last a rest d :
  sorted (a :: rest) -> stamp a <= stamp (last (a :: rest) d).
Proof.
  revert a. induction rest as [|b rest IH]; intros a Hs.
  - simpl. lra.
  - destruct Hs as [Hab Hs]. specialize (IH b Hs).
    change (last (a :: b :: rest) d) with (last (b :: rest) d). lra.
Qed.

Lemma sorted_head_le_nth a rest i w :
  sorted (a :: rest) -> nth_error (a :: rest) i = Some w ->
  stamp a <= stamp w.
Proof.
  revert a i. induction rest as [|b rest IH]; intros a i Hs Hi.
  - destruct i as [|[|i]]; simpl in Hi; inversion Hi; subst; lra.
  - destruct i as [|i]; simpl in Hi.
    + inversion Hi; subst; lra.
    + destruct Hs as [Hab Hs]. specialize (IH b i Hs Hi). lra.
Qed.

Lemma gpat_before path t :
  sorted path ->
  (forall a, hd_error path = Some a -> t < stamp a) ->
  gpat path t = None.
Proof.
  induction path as [|a rest IH]; intros Hs Ht; [reflexivity|].
  destruct rest as [|b rest]; [reflexivity|].
  rewrite gpat_cons. destruct Hs as [Hab Hs].
  specialize (Ht a eq_refl).
  replace (Rleb (stamp a) t) with false
    by (symmetry; apply Rleb_false; lra).
  simpl. apply IH; [exact Hs|].
  intros b' Hb'. simpl in Hb'. inversion Hb'; subst. lra.
Qed.

Lemma gpat_after a rest t :
  sorted (a :: rest) ->
  stamp (last (a :: rest) a) < t ->
  gpat (a :: rest) t = None.
Proof.
  revert a. induction rest as [|b rest IH]; intros a Hs Ht; [reflexivity|].
  rewrite gpat_cons. destruct Hs as [Hab Hs].
  rewrite last_cons_cons in Ht.
  pose proof (sorted_head_le_last b rest b Hs) as Hbl.
  replace (Rleb t (stamp b)) with false
    by (symmetry; apply Rleb_false; lra).
  rewrite andb_false_r. now apply IH.
Qed.

End PositionFacts.

(** ** Rounding *)

Lemma Int_part_bounds (v : R) : IZR (Int_part v) <= v < IZR (Int_part v) + 1.
Proof. destruct (base_Int_part v). lra. Qed.

Lemma Int_part_unique (v : R) (z : Z) : IZR z <= v < IZR z + 1 -> Int_part v = z.
Proof. intros H. symmetry. apply Int_part_spec. lra. Qed.

Lemma round_half_even_down (v : R) (z : Z) :
  IZR z <= v < IZR z + 1 / 2 -> round_half_even v = z.
Proof.
  intros H. unfold round_half_even, frac_part.
  rewrite (Int_part_unique v z) by lra.
  destruct (Rlt_dec (v - IZR z) (1 / 2)); [reflexivity | lra].
Qed.

Lemma round_half_even_up (v : R) (z : Z) :
  IZR z + 1 / 2 < v < IZR z + 1 -> round_half_even v = (z + 1)%Z.
Proof.
  intros H. unfold round_half_even, frac_part.
  rewrite (Int_part_unique v z) by lra.
  destruct (Rlt_dec (v - IZR z) (1 / 2)); [lra|].
  destruct (Rlt_dec (1 / 2) (v - IZR z)); [reflexivity | lra].
Qed.

(** The rounded integer is within one half of the value. *)
Lemma round_half_even_error (v : R) :
  - (1 / 2) <= IZR (round_half_even v) - v <= 1 / 2.
Proof.
  unfold round_half_even, frac_part.
  pose proof (Int_part_bounds v) as Hb.
  destruct (Rlt_dec (v - IZR (Int_part v)) (1 / 2)); [lra|].
  destruct (Rlt_dec (1 / 2) (v - IZR (Int_part v))).
  - rewrite plus_IZR. lra.
  - destruct (Z.even (Int_part v)); [lra|]. rewrite plus_IZR. lra.
Qed.

(** [round(v, 2)] moves a value by at most half a hundredth. *)
Lemma round2_error (v : R) : - (1 / 200) <= round2 v - v <= 1 / 200.
Proof.
  unfold round2. pose proof (round_half_even_error (v * 100)). lra.
Qed.

(** A whole number of hundredths is left as it is. *)
Lemma round2_hundredths (z : Z) : round2 (IZR z / 100) = IZR z / 100.
Proof.
  unfold round2. rewrite (round_half_even_down _ z); [reflexivity | lra].
Qed.

Lemma round2_0 : round2 0 = 0.
Proof.
  replace 0 with (IZR 0 / 100) at 1 by lra.
  rewrite round2_hundredths. lra.
Qed.

(** ** Events of the detector *)

Section EventFacts.

Context {W P : Type}.
Variable stamp : W -> R.
Variable interpolate : W -> W -> R -> P.
Variable distance : P -> P -> R.
Variable round_location : P -> P.

Local Abbreviation gpat := (get_position_at_time stamp interpolate).
Local Abbreviation sort := (sort_path_by_time stamp).
Local Abbreviation sample_at :=
  (sample_at stamp interpolate distance round_location).
Local Abbreviation sampling_loop :=
  (sampling_loop stamp interpolate distance round_location).
Local Abbreviation pair_conflicts :=
  (pair_conflicts stamp interpolate distance round_location).
Local Abbreviation pairwise :=
  (pairwise stamp interpolate distance round_location).
Local Abbreviation mirrored :=
  (mirrored stamp interpolate distance round_location).

(** *** Where an event comes from *)

Lemma In_sample_at e d1 d2 path1 path2 safety t :
  In e (sample_at d1 d2 path1 path2 safety t) ->
  exists pos1 pos2,
    gpat path1 t = Some pos1 /\ gpat path2 t = Some pos2
    /\ distance pos1 pos2 <= safety
    /\ e = mkEvent (round2 t) (round_location pos1)
                   (round2 (distance pos1 pos2)) (d1, d2).
Proof.
  unfold Generic.sample_at.
  destruct (gpat path1 t) as [pos1|]; [|intros []].
  destruct (gpat path2 t) as [pos2|]; [|intros []].
  cbv zeta. destruct (Rleb (distance pos1 pos2) safety) eqn:Hd; [|intros []].
  apply Rleb_true in Hd. intros [He|[]].
  exists pos1, pos2. repeat split; auto.
Qed.

Lemma In_pair_conflicts e d1 d2 p1 p2 safety time_step :
  In e (pair_conflicts d1 d2 p1 p2 safety time_step) ->
  exists t pos1 pos2,
    gpat (sort p1) t = Some pos1 /\ gpat (sort p2) t = Some pos2
    /\ distance pos1 pos2 <= safety
    /\ e = mkEvent (round2 t) (round_location pos1)
                   (round2 (distance pos1 pos2)) (d1, d2).
Proof.
  unfold Generic.pair_conflicts.
  destruct (mission_window _ _ _) as [[start_t end_t]|]; [|intros []].
  cbv zeta.
  match goal with |- context [Rleb ?d 0] => destruct (Rleb d 0) end;
    [intros []|].
  match goal with |- context [Rleb ?d 0] => destruct (Rleb d 0) end;
    [intros []|].
  rewrite sampling_loop_times, in_flat_map.
  intros [t [_ Hin]]. exists t. now apply In_sample_at in Hin.
Qed.

Lemma In_pairwise e fleet safety time_step names :
  In e (pairwise fleet safety time_step names) ->
  exists d1 d2 t pos1 pos2,
    In d1 names /\ In d2 names
    /\ gpat (sort (dict_get fleet d1)) t = Some pos1
    /\ gpat (sort (dict_get fleet d2)) t = Some pos2
    /\ distance pos1 pos2 <= safety
    /\ e = mkEvent (round2 t) (round_location pos1)
                   (round2 (distance pos1 pos2)) (d1, d2).
Proof.
  induction names as [|d1 later IH]; simpl; [intros []|].
  rewrite in_app_iff, in_flat_map. intros [[d2 [Hd2 Hin]]|Hin].
  - apply In_pair_conflicts in Hin.
    destruct Hin as (t & pos1 & pos2 & H1 & H2 & Hd & He).
    exists d1, d2, t, pos1, pos2. repeat split; auto.
  - destruct (IH Hin) as (a & b & t & pos1 & pos2 & Ha & Hb & Hrest).
    exists a, b, t, pos1, pos2. repeat split; auto; tauto.
Qed.

(** *** Scanning a pair in the other order *)

Hypothesis distance_sym : forall p q, distance p q = distance q p.

Lemma sample_at_mirror d1 d2 path1 path2 safety t :
  Forall2 (mirrored d1 d2 path1 path2)
          (sample_at d1 d2 path1 path2 safety t)
          (sample_at d2 d1 path2 path1 safety t).
Proof.
  unfold Generic.sample_at.
  destruct (gpat path1 t) as [pos1|] eqn:H1;
    destruct (gpat path2 t) as [pos2|] eqn:H2; try constructor.
  cbv zeta. rewrite (distance_sym pos2 pos1).
  destruct (Rleb (distance pos1 pos2) safety); constructor; [|constructor].
  exists t, pos1, pos2. repeat split; auto.
Qed.

Lemma sampling_loop_mirror fuel d1 d2 path1 path2 safety step end_t t :
  Forall2 (mirrored d1 d2 path1 path2)
          (sampling_loop fuel d1 d2 path1 path2 safety step end_t t)
          (sampling_loop fuel d2 d1 path2 path1 safety step end_t t).
Proof.
  revert t. induction fuel as [|fuel IH]; intros t; simpl; [constructor|].
  destruct (Rleb t end_t); [|constructor].
  apply Forall2_app; [apply sample_at_mirror | apply IH].
Qed.

Lemma mission_window_swap path1 path2 :
  mission_window stamp path2 path1 = mission_window stamp path1 path2.
Proof.
  unfold mission_window.
  destruct path1 as [|a1 [|b1 r1]]; destruct path2 as [|a2 [|b2 r2]];
    try reflexivity.
  now rewrite Rmax_comm, Rmin_comm.
Qed.

Lemma pair_conflicts_mirror d1 d2 p1 p2 safety time_step :
  Forall2 (mirrored d1 d2 (sort p1) (sort p2))
          (pair_conflicts d1 d2 p1 p2 safety time_step)
          (pair_conflicts d2 d1 p2 p1 safety time_step).
Proof.
  unfold Generic.pair_conflicts. rewrite (mission_window_swap (sort p1)).
  destruct (mission_window _ _ _) as [[start_t end_t]|]; [|constructor].
  cbv zeta.
  match goal with |- context [Rleb ?d 0] => destruct (Rleb d 0) end;
    [constructor|].
  match goal with |- context [Rleb ?d 0] => destruct (Rleb d 0) end;
    [constructor|].
  apply sampling_loop_mirror.
Qed.

End EventFacts.

(** ** Sample times *)

Lemma sample_times_succ fuel step end_t t :
  sample_times (S fuel) step end_t t
  = if Rleb t end_t then t :: sample_times fuel step end_t (t + step) else [].
Proof. reflexivity. Qed.

Lemma filter_cons {A : Type} (f : A -> bool) (x : A) (l : list A) :
  filter f (x :: l) = if f x then x :: filter f l else filter f l.
Proof. reflexivity. Qed.

Section StepFacts.

Context {W P : Type}.
Variable stamp : W -> R.
Variable interpolate : W -> W -> R -> P.
Variable distance : P -> P -> R.
Variable round_location : P -> P.

Local Abbreviation sort := (sort_path_by_time stamp).
Local Abbreviation sample_at :=
  (sample_at stamp interpolate distance round_location).
Local Abbreviation pair_conflicts :=
  (pair_conflicts stamp interpolate distance round_location).
Local Abbreviation pairwise :=
  (pairwise stamp interpolate distance round_location).

(** What the detector does for a pair with an overlap of positive
    duration and a positive effective step. *)
Lemma pair_conflicts_sampled d1 d2 p1 p2 safety time_step start end_t :
  mission_window stamp (sort p1) (sort p2) = Some (start, end_t) ->
  0 < end_t - start ->
  let step := adaptive_step time_step (end_t - start) in
  0 < step ->
  pair_conflicts d1 d2 p1 p2 safety time_step
  = flat_map (sample_at d1 d2 (sort p1) (sort p2) safety)
             (sample_times (sampling_fuel (end_t - start) step) step end_t
                           (start + step)).
Proof.
  intros Hw Hd step Hstep. unfold Generic.pair_conflicts.
  rewrite Hw. cbv zeta. fold step.
  replace (Rleb (end_t - start) 0) with false
    by (symmetry; apply Rleb_false; lra).
  replace (Rleb step 0) with false by (symmetry; apply Rleb_false; lra).
  apply sampling_loop_times.
Qed.

Lemma dict_get_In (fleet : Fleet (W := W)) name :
  dict_get fleet name = [] \/ In (name, dict_get fleet name) fleet.
Proof.
  induction fleet as [|[k path] rest IH]; simpl; [now left|].
  destruct (String.eqb k name) eqn:Hk.
  - apply String.eqb_eq in Hk. subst. right. now left.
  - destruct IH as [IH|IH]; [now left | right; now right].
Qed.

Lemma mission_window_nil_l path : mission_window stamp [] path = None.
Proof. reflexivity. Qed.

End StepFacts.

(** ** Fleets of two drones *)

Section TwoDrones.

Context {W P : Type}.
Variable stamp : W -> R.
Variable interpolate : W -> W -> R -> P.
Variable distance : P -> P -> R.
Variable round_location : P -> P.

Local Abbreviation pair_conflicts :=
  (pair_conflicts stamp interpolate distance round_location).
Local Abbreviation check :=
  (check_all_paths_conflict stamp interpolate distance round_location).

Lemma check_two_drones (a b : string) (pa pb : list W) safety time_step :
  a <> b ->
  conflicts_of (check [(a, pa); (b, pb)] safety time_step)
  = pair_conflicts a b pa pb safety time_step.
Proof.
  intros Hab. rewrite check_conflicts. simpl.
  rewrite String.eqb_refl.
  replace (String.eqb a b) with false
    by (symmetry; now apply String.eqb_neq).
  rewrite String.eqb_refl. now rewrite !app_nil_r.
Qed.

End TwoDrones.

(** ** Geometry of the 2D file *)

Lemma distance_2d_sym (p q : D2.Point) : D2.distance_2d p q = D2.distance_2d q p.
Proof. unfold D2.distance_2d. f_equal. ring. Qed.

(** ** Geometry of the 3D file *)

Lemma distance_3d_sym (p q : D3.Point) : D3.distance_3d p q = D3.distance_3d q p.
Proof.
  destruct p as [[x1 y1] z1], q as [[x2 y2] z2].
  unfold D3.distance_3d. f_equal. ring.
Qed.

(** ** The 3D detector on lifted 2D data *)

Section Lifting.

Local Abbreviation lift := lift_waypoint.
Local Abbreviation gpat2 := (get_position_at_time D2.stamp D2.interpolate).
Local Abbreviation gpat3 := (get_position_at_time D3.stamp D3.interpolate).
Local Abbreviation sample2 :=
  (sample_at D2.stamp D2.interpolate D2.distance_2d D2.round_location).
Local Abbreviation sample3 :=
  (sample_at D3.stamp D3.interpolate D3.distance_3d D3.round_location).
Local Abbreviation loop2 :=
  (sampling_loop D2.stamp D2.interpolate D2.distance_2d D2.round_location).
Local Abbreviation loop3 :=
  (sampling_loop D3.stamp D3.interpolate D3.distance_3d D3.round_location).
Local Abbreviation pair2 :=
  (pair_conflicts D2.stamp D2.interpolate D2.distance_2d D2.round_location).
Local Abbreviation pair3 :=
  (pair_conflicts D3.stamp D3.interpolate D3.distance_3d D3.round_location).
Local Abbreviation pairwise2 :=
  (pairwise D2.stamp D2.interpolate D2.distance_2d D2.round_location).
Local Abbreviation pairwise3 :=
  (pairwise D3.stamp D3.interpolate D3.distance_3d D3.round_location).

Lemma insert_by_time_lift w l :
  insert_by_time D3.stamp (lift w) (map lift l)
  = map lift (insert_by_time D2.stamp w l).
Proof.
  induction l as [|v l IH]; simpl; [reflexivity|].
  change (D3.stamp (lift w)) with (D2.stamp w).
  change (D3.stamp (lift v)) with (D2.stamp v).
  destruct (Rleb (D2.stamp w) (D2.stamp v)); simpl; [reflexivity|].
  now rewrite IH.
Qed.

Lemma sort_path_by_time_lift path :
  sort_path_by_time D3.stamp (map lift path)
  = map lift (sort_path_by_time D2.stamp path).
Proof.
  induction path as [|w path IH]; simpl; [reflexivity|].
  change (fold_right (insert_by_time D3.stamp) [] (map lift path))
    with (sort_path_by_time D3.stamp (map lift path)).
  rewrite IH. apply insert_by_time_lift.
Qed.

Lemma interpolate_lift a b t :
  D3.interpolate (lift a) (lift b) t = lift_point (D2.interpolate a b t).
Proof.
  destruct a as [[x1 y1] t1], b as [[x2 y2] t2].
  unfold D3.interpolate, D2.interpolate, lift_waypoint, lift_point. simpl.
  destruct (Reqb t2 t1); simpl; [reflexivity|].
  f_equal. ring.
Qed.

Lemma get_position_at_time_lift path t :
  gpat3 (map lift path) t = option_map lift_point (gpat2 path t).
Proof.
  induction path as [|a rest IH]; [reflexivity|].
  destruct rest as [|b rest]; [reflexivity|].
  change (map lift (a :: b :: rest))
    with (lift a :: lift b :: map lift rest).
  rewrite !gpat_cons.
  change (D3.stamp (lift a)) with (D2.stamp a).
  change (D3.stamp (lift b)) with (D2.stamp b).
  destruct (Rleb (D2.stamp a) t && Rleb t (D2.stamp b)).
  - rewrite interpolate_lift. reflexivity.
  - exact IH.
Qed.

Lemma distance_lift p q :
  D3.distance_3d (lift_point p) (lift_point q) = D2.distance_2d p q.
Proof.
  unfold D3.distance_3d, D2.distance_2d, lift_point. f_equal. ring.
Qed.

Lemma round_location_lift p :
  D3.round_location (lift_point p) = lift_point (D2.round_location p).
Proof.
  unfold D3.round_location, D2.round_location, lift_point. simpl.
  now rewrite round2_0.
Qed.

Lemma sample_at_lift d1 d2 path1 path2 safety t :
  sample3 d1 d2 (map lift path1) (map lift path2) safety t
  = map lift_event (sample2 d1 d2 path1 path2 safety t).
Proof.
  unfold Generic.sample_at. rewrite !get_position_at_time_lift.
  destruct (gpat2 path1 t) as [pos1|]; [|reflexivity].
  destruct (gpat2 path2 t) as [pos2|]; [|reflexivity].
  cbn [option_map]. cbv zeta. rewrite distance_lift.
  destruct (Rleb (D2.distance_2d pos1 pos2) safety); [|reflexivity].
  cbn [map]. unfold lift_event.
  cbn [ev_time ev_location ev_distance ev_between].
  now rewrite round_location_lift.
Qed.

Lemma sampling_loop_lift fuel d1 d2 path1 path2 safety step end_t t :
  loop3 fuel d1 d2 (map lift path1) (map lift path2) safety step end_t t
  = map lift_event (loop2 fuel d1 d2 path1 path2 safety step end_t t).
Proof.
  revert t. induction fuel as [|fuel IH]; intros t; simpl; [reflexivity|].
  destruct (Rleb t end_t); [|reflexivity].
  now rewrite map_app, sample_at_lift, IH.
Qed.

Lemma last_lift path d :
  last (map lift path) (lift d) = lift (last path d).
Proof.
  induction path as [|a rest IH]; [reflexivity|].
  destruct rest as [|b rest]; [reflexivity|]. exact IH.
Qed.

Lemma mission_window_lift path1 path2 :
  mission_window D3.stamp (map lift path1) (map lift path2)
  = mission_window D2.stamp path1 path2.
Proof.
  destruct path1 as [|a1 [|b1 r1]]; destruct path2 as [|a2 [|b2 r2]];
    try reflexivity.
  unfold mission_window.
  change (map lift (a1 :: b1 :: r1)) with (lift a1 :: lift b1 :: map lift r1).
  change (map lift (a2 :: b2 :: r2)) with (lift a2 :: lift b2 :: map lift r2).
  cbv iota beta.
  change (lift a1 :: lift b1 :: map lift r1) with (map lift (a1 :: b1 :: r1)).
  change (lift a2 :: lift b2 :: map lift r2) with (map lift (a2 :: b2 :: r2)).
  now rewrite !last_lift.
Qed.

Lemma pair_conflicts_lift d1 d2 p1 p2 safety time_step :
  pair3 d1 d2 (map lift p1) (map lift p2) safety time_step
  = map lift_event (pair2 d1 d2 p1 p2 safety time_step).
Proof.
  unfold Generic.pair_conflicts.
  rewrite !sort_path_by_time_lift, mission_window_lift.
  destruct (mission_window _ _ _) as [[start end_t]|]; [|reflexivity].
  cbv zeta.
  match goal with |- context [Rleb ?d 0] => destruct (Rleb d 0) end;
    [reflexivity|].
  match goal with |- context [Rleb ?d 0] => destruct (Rleb d 0) end;
    [reflexivity|].
  apply sampling_loop_lift.
Qed.

Lemma dict_get_lift fleet name :
  dict_get (lift_fleet fleet) name = map lift (dict_get fleet name).
Proof.
  induction fleet as [|[k path] rest IH]; simpl; [reflexivity|].
  destruct (String.eqb k name); [reflexivity | exact IH].
Qed.

Lemma drone_names_lift fleet :
  drone_names (lift_fleet fleet) = drone_names fleet.
Proof.
  unfold drone_names, lift_fleet. rewrite map_map. reflexivity.
Qed.

Lemma pairwise_lift fleet safety time_step names :
  pairwise3 (lift_fleet fleet) safety time_step names
  = map lift_event (pairwise2 fleet safety time_step names).
Proof.
  induction names as [|d1 later IH]; simpl; [reflexivity|].
  rewrite map_app, IH. f_equal.
  clear IH. induction later as [|d2 later IH]; simpl; [reflexivity|].
  now rewrite map_app, IH, !dict_get_lift, pair_conflicts_lift.
Qed.

Lemma check_lift fleet safety time_step :
  conflicts_of (D3.check_all_paths_conflict (lift_fleet fleet) safety time_step)
  = map lift_event
        (conflicts_of (D2.check_all_paths_conflict fleet safety time_step)).
Proof.
  unfold D3.check_all_paths_conflict, D2.check_all_paths_conflict.
  now rewrite !check_conflicts, drone_names_lift, pairwise_lift.
Qed.

End Lifting.

(** ** Evaluating the detector on concrete trajectories *)

Lemma sqrt_value (x v : R) : 0 <= v -> x = v * v -> sqrt x = v.
Proof. intros Hv ->. now apply sqrt_square. Qed.

Lemma Rleb_sqrt_true (x s : R) : 0 <= s -> x <= s * s -> Rleb (sqrt x) s = true.
Proof.
  intros Hs Hx. apply Rleb_true.
  rewrite <- (sqrt_square s Hs). now apply sqrt_le_1_alt.
Qed.

Lemma Rleb_sqrt_false (x s : R) : 0 <= s -> s * s < x -> Rleb (sqrt x) s = false.
Proof.
  intros Hs Hx. apply Rleb_false.
  rewrite <- (sqrt_square s Hs) at 1. apply sqrt_lt_1_alt. nra.
Qed.

Lemma round2_exact (x : R) (z : Z) : x = IZR z / 100 -> round2 x = IZR z / 100.
Proof. intros ->. apply round2_hundredths. Qed.

Lemma round2_upwards (x : R) (z : Z) :
  IZR z + 1 / 2 < x * 100 < IZR z + 1 -> round2 x = IZR (z + 1) / 100.
Proof. intros H. unfold round2. now rewrite (round_half_even_up _ z). Qed.

Ltac eval_sort :=
  repeat (cbn [sort_path_by_time fold_right insert_by_time
                 D2.stamp D3.stamp snd];
          progress decide_cmp).

Ltac eval_window :=
  cbn [mission_window last D2.stamp D3.stamp snd]; unfold Rmax, Rmin;
  repeat match goal with
    | |- context [Rle_dec ?a ?b] => destruct (Rle_dec a b); try lra
    end;
  repeat f_equal; lra.

(** Replace the detector's fuel by [n] iterations and unroll the loop. *)
Ltac eval_times n :=
  match goal with
  | |- context [sample_times (sampling_fuel ?d ?s) ?s ?e ?t] =>
      rewrite (sample_times_fuel (sampling_fuel d s) n s e t);
      [ | lra
        | match t with ?a + s => replace d with (e - a) by lra end;
          apply sampling_fuel_enough; lra
        | cbv [INR]; lra ]
  end;
  repeat (rewrite sample_times_succ; decide_cmp).

Ltac eval_position :=
  repeat (cbn [get_position_at_time D2.stamp D3.stamp snd andb];
          progress decide_cmp);
  cbn [get_position_at_time D2.stamp D3.stamp snd andb].

Ltac eval_distance_test :=
  repeat match goal with
    | |- context [Rleb (sqrt ?x) ?s] =>
        first [ rewrite (Rleb_sqrt_true x s) by lra
              | rewrite (Rleb_sqrt_false x s) by lra ]
    end.

(** The events of the 2D detector on a two-drone fleet whose sorted paths
    and overlap window [[a, b]] are given, sampled with [n] units of fuel. *)
Ltac eval_two_drones2 Hs1 Hs2 a b n :=
  unfold D2.check_all_paths_conflict;
  rewrite check_two_drones by discriminate;
  match goal with
  | |- context [pair_conflicts _ _ _ _ ?d1 ?d2 ?p1 ?p2 ?s ?ts] =>
      rewrite (pair_conflicts_sampled _ _ _ _ d1 d2 p1 p2 s ts a b);
      [ | rewrite Hs1, Hs2; unfold p1, p2; eval_window
        | lra
        | unfold adaptive_step; decide_cmp; lra ];
      unfold adaptive_step; decide_cmp;
      eval_times n;
      rewrite Hs1, Hs2; unfold p1, p2
  end;
  cbn [flat_map]; unfold sample_at;
  eval_position;
  cbv zeta; unfold D2.interpolate, D2.distance_2d;
  cbv [fst snd]; cbv beta iota;
  decide_cmp; eval_distance_test.

Section ExampleRuns.

Import Examples.
Local Open Scope string_scope.

Lemma sort_crossing_A : sort_path_by_time D2.stamp crossing_A = crossing_A.
Proof. unfold crossing_A. eval_sort. reflexivity. Qed.

Lemma sort_crossing_B : sort_path_by_time D2.stamp crossing_B = crossing_B.
Proof. unfold crossing_B. eval_sort. reflexivity. Qed.

Lemma sort_hover_A : sort_path_by_time D2.stamp hover_A = hover_A.
Proof. unfold hover_A. eval_sort. reflexivity. Qed.

Lemma sort_hover_B : sort_path_by_time D2.stamp hover_B = hover_B.
Proof. unfold hover_B. eval_sort. reflexivity. Qed.

Lemma hovering_report :
  conflicts_of (D2.check_all_paths_conflict hovering (129 / 128) 6)
  = [hover_event].
Proof.
  unfold hovering.
  eval_two_drones2 sort_hover_A sort_hover_B 0 10 2%nat.
  cbn [app]. unfold hover_event, D2.round_location. cbv [fst snd].
  match goal with
  | |- context [sqrt ?x] => rewrite (sqrt_value x (129 / 128)) by lra
  end.
  rewrite (round2_exact (0 + 6) 600) by lra.
  rewrite (round2_upwards (129 / 128) 100) by lra.
  rewrite !(round2_exact _ 0) by lra.
  repeat f_equal; simpl; lra.
Qed.

Lemma hovering_swapped_report :
  conflicts_of (D2.check_all_paths_conflict hovering_swapped (129 / 128) 6)
  = [hover_event_swapped].
Proof.
  unfold hovering_swapped.
  eval_two_drones2 sort_hover_B sort_hover_A 0 10 2%nat.
  cbn [app]. unfold hover_event_swapped, D2.round_location. cbv [fst snd].
  match goal with
  | |- context [sqrt ?x] => rewrite (sqrt_value x (129 / 128)) by lra
  end.
  rewrite (round2_exact (0 + 6) 600) by lra.
  rewrite (round2_upwards (129 / 128) 100) by lra.
  rewrite (round2_upwards (129 / 128 + _) 100) by lra.
  rewrite !(round2_exact _ 0) by lra.
  repeat f_equal; simpl; lra.
Qed.

End ExampleRuns.

(** * The properties of the specification *)

(** Open the definitions of [Both] at the file chosen by a variant. *)
Ltac open_variant :=
  unfold Both.conflict_count, Both.check_all_paths_conflict,
    Both.get_position_at_time, Both.sort_path_by_time, Both.sorted_by_time,
    Both.mission_window, Both.sample_at, Both.pair_conflicts,
    D2.check_all_paths_conflict, D3.check_all_paths_conflict,
    D2.get_position_at_time, D3.get_position_at_time,
    D2.sort_path_by_time, D3.sort_path_by_time in *;
  cbn [Both.stamp Both.position Both.interpolate Both.distance
         Both.round_location Both.Waypoint Both.Point Both.Fleet] in *.

Section ReportFacts.

Context {W P : Type}.
Variable stamp : W -> R.
Variable interpolate : W -> W -> R -> P.
Variable distance : P -> P -> R.
Variable round_location : P -> P.

Local Abbreviation check :=
  (check_all_paths_conflict stamp interpolate distance round_location).
Local Abbreviation pairwise :=
  (pairwise stamp interpolate distance round_location).

Lemma status_of_conflicts fleet safety time_step :
  status (check fleet safety time_step)
  = match conflicts_of (check fleet safety time_step) with
    | [] => "CLEAR"%string
    | _ :: _ => "CONFLICT"%string
    end.
Proof.
  unfold Generic.check_all_paths_conflict.
  now destruct (pairwise fleet safety time_step (drone_names fleet)).
Qed.

Lemma check_report_cases fleet safety time_step :
  let r := check fleet safety time_step in
  (status r = "CONFLICT"%string <-> conflicts_of r <> [])
  /\ (status r = "CLEAR"%string <-> conflicts_of r = [])
  /\ (fleet = [] -> r = CLEAR)
  /\ (length fleet = 1%nat -> r = CLEAR)
  /\ ((forall d path, In (d, path) fleet -> (length path < 2)%nat) ->
      r = CLEAR).
Proof.
  cbv zeta.
  destruct (check_status stamp interpolate distance round_location
                         fleet safety time_step) as [Hc Hl].
  split; [exact Hc|]. split; [exact Hl|]. split; [|split].
  - intros ->. reflexivity.
  - intros Hlen. destruct fleet as [|[d p] [|x rest]]; try discriminate.
    reflexivity.
  - intros Hshort. apply check_clear_of_no_conflicts.
    apply pairwise_nil_of_pairs. intros d1 d2.
    apply pair_conflicts_degenerate. left.
    now apply dict_get_length_lt.
Qed.

Lemma check_nonpositive_step fleet safety time_step :
  time_step <= 0 -> check fleet safety time_step = CLEAR.
Proof.
  intros Hts. apply check_clear_of_no_conflicts.
  apply pairwise_nil_of_pairs. intros d1 d2.
  now apply pair_conflicts_nonpositive_step.
Qed.

Lemma check_safety_mono fleet s' s time_step :
  s' <= s ->
  (length (conflicts_of (check fleet s' time_step))
   <= length (conflicts_of (check fleet s time_step)))%nat.
Proof.
  intros Hs. rewrite !check_conflicts. now apply pairwise_safety_mono.
Qed.

End ReportFacts.

(** C7.  The report has status CONFLICT exactly when it carries at least one
    conflict event and status CLEAR exactly when it carries none; an empty
    fleet, a fleet of one drone, and a fleet all of whose trajectories have
    fewer than 2 waypoints give the CLEAR report (no error is raised). *)
Theorem C7_status_matches_conflicts :
  forall (v : Variant) (fleet : Both.Fleet v) (safety_distance time_step : R),
    let r := Both.check_all_paths_conflict v fleet safety_distance time_step in
    (status r = "CONFLICT"%string <-> conflicts_of r <> [])
    /\ (status r = "CLEAR"%string <-> conflicts_of r = [])
    /\ (fleet = [] -> r = CLEAR)
    /\ (length fleet = 1%nat -> r = CLEAR)
    /\ ((forall d path, In (d, path) fleet -> (length path < 2)%nat) ->
        r = CLEAR).
Proof.
  intros v; destruct v; intros fleet s ts; open_variant;
    apply check_report_cases.
Qed.

(** C8.  For a fixed fleet and time step, a smaller (positive) safety
    distance never reports more conflict events than a larger one. *)
Theorem C8_smaller_safety_distance_fewer_conflicts :
  forall (v : Variant) (fleet : Both.Fleet v)
         (time_step safety_distance safety_distance' : R),
    0 < safety_distance' -> safety_distance' < safety_distance ->
    (Both.conflict_count v fleet safety_distance' time_step
     <= Both.conflict_count v fleet safety_distance time_step)%nat.
Proof.
  intros v; destruct v; intros fleet ts s s' Hpos Hlt; open_variant;
    apply check_safety_mono; lra.
Qed.

Lemma C8_witness :
  (Both.conflict_count TwoD Examples.crossing 1 5
   <= Both.conflict_count TwoD Examples.crossing 2 5)%nat.
Proof.
  apply (C8_smaller_safety_distance_fewer_conflicts TwoD Examples.crossing
           5 2 1); lra.
Defined.

(** C10.  With a positive safety distance and a time step that is zero or
    negative the detector returns the CLEAR report: for an overlap of
    positive duration the effective step is the caller's non-positive step,
    and the pair is skipped before the sampling loop runs. *)
Theorem C10_nonpositive_step_reports_clear :
  forall (v : Variant) (fleet : Both.Fleet v) (safety_distance time_step : R),
    0 < safety_distance -> time_step <= 0 ->
    Both.check_all_paths_conflict v fleet safety_distance time_step = CLEAR
    /\ (forall duration, 0 < duration ->
                         adaptive_step time_step duration = time_step)
    /\ (forall d1 d2 p1 p2,
           Both.pair_conflicts v d1 d2 p1 p2 safety_distance time_step = []).
Proof.
  intros v; destruct v; intros fleet s ts Hs Hts; open_variant;
    (split; [now apply check_nonpositive_step|]);
    (split; [intros d Hd; now apply adaptive_step_nonpositive|]);
    intros d1 d2 p1 p2; now apply pair_conflicts_nonpositive_step.
Qed.

Lemma C10_witness :
  Both.check_all_paths_conflict TwoD Examples.crossing 1 0 = CLEAR
  /\ (forall duration, 0 < duration -> adaptive_step 0 duration = 0)
  /\ (forall d1 d2 p1 p2, Both.pair_conflicts TwoD d1 d2 p1 p2 1 0 = []).
Proof.
  apply (C10_nonpositive_step_reports_clear TwoD Examples.crossing 1 0); lra.
Defined.

(** C3.  A path with fewer than 2 waypoints has no position at any time.
    For a path of at least 2 waypoints in ascending order of timestamp,
    [get_position_at_time] returns a position at every [t] between the first
    and the last timestamp (inclusive) and none at every [t] outside. *)
Theorem C3_position_defined_exactly_within_mission :
  forall (v : Variant) (path : list (Both.Waypoint v)) (t : R),
    ((length path < 2)%nat -> Both.get_position_at_time v path t = None)
    /\ (forall first,
           hd_error path = Some first ->
           Both.sorted_by_time v path -> (2 <= length path)%nat ->
           (Both.stamp v first <= t <= Both.stamp v (last path first) ->
            exists p, Both.get_position_at_time v path t = Some p)
           /\ (t < Both.stamp v first \/ Both.stamp v (last path first) < t ->
               Both.get_position_at_time v path t = None)).
Proof.
  intros v; destruct v; intros path t; open_variant;
    (split; [apply gpat_short|]);
    intros first Hhd Hsorted Hlen;
    (destruct path as [|a rest]; [discriminate|]);
    simpl in Hhd; inversion Hhd; subst a;
    (split; [now apply gpat_inside|]);
    (intros [Hbefore|Hafter];
     [ apply gpat_before; [exact Hsorted|];
       intros a Ha; simpl in Ha; inversion Ha; subst; exact Hbefore
     | now apply gpat_after ]).
Qed.

Lemma C3_witness :
  (exists p, Both.get_position_at_time TwoD Examples.crossing_A 5 = Some p)
  /\ Both.get_position_at_time TwoD Examples.crossing_A 11 = None.
Proof.
  split.
  - apply (C3_position_defined_exactly_within_mission
             TwoD Examples.crossing_A 5) with (first := (0, 0, 0)).
    + reflexivity.
    + simpl. split; [lra | exact I].
    + simpl. lia.
    + simpl. lra.
  - apply (C3_position_defined_exactly_within_mission
             TwoD Examples.crossing_A 11) with (first := (0, 0, 0)).
    + reflexivity.
    + simpl. split; [lra | exact I].
    + simpl. lia.
    + right. simpl. lra.
Defined.




Section MirrorFacts.

Context {W P : Type}.
Variable stamp : W -> R.
Variable interpolate : W -> W -> R -> P.
Variable distance : P -> P -> R.
Variable round_location : P -> P.
Hypothesis distance_sym : forall p q, distance p q = distance q p.

Local Abbreviation check :=
  (check_all_paths_conflict stamp interpolate distance round_location).
Local Abbreviation mirrored :=
  (mirrored stamp interpolate distance round_location).

Lemma check_mirror (a b : string) (pa pb : list W) safety time_step :
  a <> b ->
  let r := check [(a, pa); (b, pb)] safety time_step in
  let r' := check [(b, pb); (a, pa)] safety time_step in
  status r = status r'
  /\ Forall2 (mirrored a b (sort_path_by_time stamp pa)
                       (sort_path_by_time stamp pb))
             (conflicts_of r) (conflicts_of r').
Proof.
  intros Hab r r'.
  assert (Hmirror : Forall2 (mirrored a b (sort_path_by_time stamp pa)
                                      (sort_path_by_time stamp pb))
                            (conflicts_of r) (conflicts_of r')).
  { unfold r, r'. rewrite !check_two_drones by congruence.
    now apply pair_conflicts_mirror. }
  split; [|exact Hmirror].
  unfold r, r' in *. rewrite !status_of_conflicts.
  destruct Hmirror; reflexivity.
Qed.

End MirrorFacts.

(** C5 as stated fails: the reported location is the position of the drone
    enumerated first, so the two orders report different locations
    whenever the drones are apart.  For the two hovering drones the event
    is located at [(0, 0)] in one order and at [(1.01, 0)] in the other. *)
Lemma C5_location_follows_the_first_drone :
  ~ (forall (v : Variant) (a b : string) (path_a path_b : list (Both.Waypoint v))
            (safety_distance time_step : R),
        a <> b ->
        Forall2 (fun e e' =>
                   ev_time e = ev_time e'
                   /\ ev_location e = ev_location e'
                   /\ ev_distance e = ev_distance e')
                (conflicts_of (Both.check_all_paths_conflict
                                 v [(a, path_a); (b, path_b)]
                                 safety_distance time_step))
                (conflicts_of (Both.check_all_paths_conflict
                                 v [(b, path_b); (a, path_a)]
                                 safety_distance time_step))).
Proof.
  intros H.
  specialize (H TwoD "A"%string "B"%string Examples.hover_A Examples.hover_B
                (129 / 128) 6 ltac:(discriminate)).
  cbn [Both.check_all_paths_conflict Both.Point] in H.
  change [("A"%string, Examples.hover_A); ("B"%string, Examples.hover_B)]
    with Examples.hovering in H.
  change [("B"%string, Examples.hover_B); ("A"%string, Examples.hover_A)]
    with Examples.hovering_swapped in H.
  rewrite hovering_report, hovering_swapped_report in H.
  inversion H as [|e e' l l' (_ & Hloc & _) _]; subst.
  simpl in Hloc. inversion Hloc. lra.
Qed.

(** C5, amended.  For a fleet of two drones [a] and [b], enumerating [a]
    first or [b] first gives reports with the same status and events that
    correspond one to one: same time, same distance, the pair label in the
    order of enumeration, and as location the rounded position, at the
    common sample time, of the drone enumerated first. *)
Theorem C5_pair_order_mirrors_events :
  forall (v : Variant) (a b : string) (path_a path_b : list (Both.Waypoint v))
         (safety_distance time_step : R),
    a <> b ->
    let r := Both.check_all_paths_conflict v [(a, path_a); (b, path_b)]
                                           safety_distance time_step in
    let r' := Both.check_all_paths_conflict v [(b, path_b); (a, path_a)]
                                            safety_distance time_step in
    status r = status r'
    /\ Forall2
         (fun e e' =>
            ev_time e = ev_time e'
            /\ ev_distance e = ev_distance e'
            /\ ev_between e = (a, b) /\ ev_between e' = (b, a)
            /\ exists t pos_a pos_b,
                Both.get_position_at_time
                  v (Both.sort_path_by_time v path_a) t = Some pos_a
                /\ Both.get_position_at_time
                     v (Both.sort_path_by_time v path_b) t = Some pos_b
                /\ ev_location e = Both.round_location v pos_a
                /\ ev_location e' = Both.round_location v pos_b)
         (conflicts_of r) (conflicts_of r').
Proof.
  intros v; destruct v; intros a b pa pb s ts Hab r r'; subst r r';
    open_variant.
  - destruct (check_mirror D2.stamp D2.interpolate D2.distance_2d
                           D2.round_location distance_2d_sym
                           a b pa pb s ts Hab) as [Hst Hev].
    split; [exact Hst|].
    eapply Forall2_impl; [|exact Hev].
    intros e e' (t & p1 & p2 & H1 & H2 & -> & ->). simpl.
    repeat split; try reflexivity. exists t, p1, p2. repeat split; assumption.
  - destruct (check_mirror D3.stamp D3.interpolate D3.distance_3d
                           D3.round_location distance_3d_sym
                           a b pa pb s ts Hab) as [Hst Hev].
    split; [exact Hst|].
    eapply Forall2_impl; [|exact Hev].
    intros e e' (t & p1 & p2 & H1 & H2 & -> & ->). simpl.
    repeat split; try reflexivity. exists t, p1, p2. repeat split; assumption.
Qed.

Lemma C5_witness :
  let r := Both.check_all_paths_conflict
             TwoD [("A"%string, Examples.hover_A); ("B"%string, Examples.hover_B)]
             (129 / 128) 6 in
  let r' := Both.check_all_paths_conflict
              TwoD [("B"%string, Examples.hover_B); ("A"%string, Examples.hover_A)]
              (129 / 128) 6 in
  status r = status r'
  /\ Forall2
       (fun e e' =>
          ev_time e = ev_time e'
          /\ ev_distance e = ev_distance e'
          /\ ev_between e = ("A"%string, "B"%string)
          /\ ev_between e' = ("B"%string, "A"%string)
          /\ exists t pos_a pos_b,
              Both.get_position_at_time
                TwoD (Both.sort_path_by_time TwoD Examples.hover_A) t
              = Some pos_a
              /\ Both.get_position_at_time
                   TwoD (Both.sort_path_by_time TwoD Examples.hover_B) t
                 = Some pos_b
              /\ ev_location e = Both.round_location TwoD pos_a
              /\ ev_location e' = Both.round_location TwoD pos_b)
       (conflicts_of r) (conflicts_of r').
Proof.
  apply (C5_pair_order_mirrors_events TwoD "A"%string "B"%string
           Examples.hover_A Examples.hover_B (129 / 128) 6).
  discriminate.
Defined.

Lemma Forall2_map_r {A B : Type} (f : A -> B) (R : A -> B -> Prop) (l : list A) :
  (forall a, R a (f a)) -> Forall2 R l (map f l).
Proof. intros HR. induction l; simpl; constructor; auto. Qed.

(** C9.  The 3D detector run on a 2D fleet lifted to altitude 0 (each
    waypoint [(x, y, t)] becoming [(x, y, 0, t)]) returns a report with the
    status of the 2D report and, event for event, the same time, distance
    and drone pair, the 3D location being the 2D location followed by 0. *)
Theorem C9_3d_detector_on_lifted_fleet_matches_2d :
  forall (fleet : Generic.Fleet (W := D2.Waypoint))
         (safety_distance time_step : R),
    let r2 := D2.check_all_paths_conflict fleet safety_distance time_step in
    let r3 := D3.check_all_paths_conflict (lift_fleet fleet) safety_distance
                                          time_step in
    status r3 = status r2
    /\ Forall2 (fun e2 e3 =>
                  ev_time e3 = ev_time e2
                  /\ ev_distance e3 = ev_distance e2
                  /\ ev_between e3 = ev_between e2
                  /\ ev_location e3
                     = (fst (ev_location e2), snd (ev_location e2), 0))
               (conflicts_of r2) (conflicts_of r3).
Proof.
  intros fleet s ts r2 r3.
  pose proof (check_lift fleet s ts) as Hlift. fold r2 r3 in Hlift.
  split.
  - unfold r2, r3, D2.check_all_paths_conflict, D3.check_all_paths_conflict
      in *.
    rewrite !status_of_conflicts, Hlift.
    match goal with |- context [map lift_event ?l] => destruct l end;
      reflexivity.
  - rewrite Hlift. apply Forall2_map_r. intros e. now repeat split.
Qed.

(** * Further properties of the code *)

(** ** Sorting by time *)

Section SortFacts.

Context {W : Type}.
Variable stamp : W -> R.

Local Abbreviation insert := (insert_by_time stamp).
Local Abbreviation sort := (sort_path_by_time stamp).
Local Abbreviation sorted := (sorted_by_time stamp).

Lemma sort_cons w path : sort (w :: path) = insert w (sort path).
Proof. reflexivity. Qed.

Lemma insert_permutation w l : Permutation (w :: l) (insert w l).
Proof.
  induction l as [|v l IH]; simpl; [apply Permutation_refl|].
  destruct (Rleb (stamp w) (stamp v)); [apply Permutation_refl|].
  eapply perm_trans; [apply perm_swap|]. now apply perm_skip.
Qed.

Lemma sort_permutation path : Permutation path (sort path).
Proof.
  induction path as [|w path IH]; [apply perm_nil|].
  rewrite sort_cons.
  eapply perm_trans; [apply perm_skip, IH | apply insert_permutation].
Qed.

Lemma sorted_cons_cons a b l :
  sorted (a :: b :: l) <-> stamp a <= stamp b /\ sorted (b :: l).
Proof. reflexivity. Qed.

Lemma sorted_tl a l : sorted (a :: l) -> sorted l.
Proof. destruct l as [|b l]; [intros; exact I | intros [_ H]; exact H]. Qed.

Lemma insert_sorted w l : sorted l -> sorted (insert w l).
Proof.
  induction l as [|v l IH]; intros Hs; [exact I|].
  simpl insert_by_time. destruct (Rleb (stamp w) (stamp v)) eqn:Hwv.
  - apply Rleb_true in Hwv. apply sorted_cons_cons. now split.
  - apply Rleb_false in Hwv.
    specialize (IH (sorted_tl v l Hs)).
    destruct l as [|u l].
    + simpl. split; [lra | exact I].
    + simpl insert_by_time in *.
      destruct Hs as [Hvu Hs].
      destruct (Rleb (stamp w) (stamp u)); apply sorted_cons_cons;
        (split; [lra | exact IH]).
Qed.

Lemma sort_sorted path : sorted (sort path).
Proof.
  induction path as [|w path IH]; [exact I|].
  rewrite sort_cons. now apply insert_sorted.
Qed.

Lemma sort_of_sorted path : sorted path -> sort path = path.
Proof.
  induction path as [|w path IH]; intros Hs; [reflexivity|].
  rewrite sort_cons, IH by exact (sorted_tl w path Hs).
  destruct path as [|v path]; [reflexivity|].
  destruct Hs as [Hwv _]. simpl.
  now replace (Rleb (stamp w) (stamp v)) with true
    by (symmetry; apply Rleb_true; lra).
Qed.

(** Inserting a waypoint keeps it ahead of the waypoints of the same
    timestamp that were listed after it. *)
Lemma filter_insert (tau : R) w l :
  filter (fun u => Reqb (stamp u) tau) (insert w l)
  = filter (fun u => Reqb (stamp u) tau) (w :: l).
Proof.
  induction l as [|v l IH]; [reflexivity|].
  simpl insert_by_time. destruct (Rleb (stamp w) (stamp v)) eqn:Hwv;
    [reflexivity|].
  apply Rleb_false in Hwv.
  rewrite filter_cons, IH, !filter_cons.
  destruct (Reqb (stamp w) tau) eqn:Hw; [|reflexivity].
  apply Reqb_true in Hw.
  now replace (Reqb (stamp v) tau) with false
    by (symmetry; apply Reqb_false; lra).
Qed.

Lemma filter_sort (tau : R) path :
  filter (fun u => Reqb (stamp u) tau) (sort path)
  = filter (fun u => Reqb (stamp u) tau) path.
Proof.
  induction path as [|w path IH]; [reflexivity|].
  rewrite sort_cons, filter_insert, !filter_cons. now rewrite IH.
Qed.

Lemma sorted_head_le_all a l u :
  sorted (a :: l) -> In u (a :: l) -> stamp a <= stamp u.
Proof.
  intros Hs Hin. apply In_nth_error in Hin. destruct Hin as [i Hi].
  exact (sorted_head_le_nth stamp a l i u Hs Hi).
Qed.

Lemma stamp_injective_on l a b :
  NoDup (map stamp l) -> In a l -> In b l -> stamp a = stamp b -> a = b.
Proof.
  induction l as [|x l IH]; intros Hnd Ha Hb Heq; [destruct Ha|].
  simpl in Hnd. inversion Hnd as [|? ? Hnotin Hnd']; subst.
  destruct Ha as [->|Ha], Hb as [->|Hb]; auto.
  - exfalso. apply Hnotin. rewrite Heq. now apply in_map.
  - exfalso. apply Hnotin. rewrite <- Heq. now apply in_map.
Qed.

(** Two sorted arrangements of the same waypoints coincide when no two
    waypoints share a timestamp. *)
Lemma sorted_permutation_unique l1 l2 :
  sorted l1 -> sorted l2 -> Permutation l1 l2 -> NoDup (map stamp l1) ->
  l1 = l2.
Proof.
  revert l2. induction l1 as [|a r1 IH]; intros l2 Hs1 Hs2 Hp Hnd.
  - apply Permutation_nil in Hp. now subst.
  - destruct l2 as [|b r2].
    { apply Permutation_sym, Permutation_nil in Hp. discriminate. }
    assert (Hab : a = b).
    { apply (stamp_injective_on (a :: r1)); auto.
      - now left.
      - apply (Permutation_in b (Permutation_sym Hp)). now left.
      - apply Rle_antisym.
        + apply (sorted_head_le_all a r1 b Hs1).
          apply (Permutation_in b (Permutation_sym Hp)). now left.
        + apply (sorted_head_le_all b r2 a Hs2).
          apply (Permutation_in a Hp). now left. }
    subst b. f_equal. apply IH.
    + exact (sorted_tl a r1 Hs1).
    + exact (sorted_tl a r2 Hs2).
    + exact (Permutation_cons_inv Hp).
    + simpl in Hnd. now inversion Hnd.
Qed.

Lemma sort_order_independent p p' :
  Permutation p p' -> NoDup (map stamp p) -> sort p = sort p'.
Proof.
  intros Hp Hnd. apply sorted_permutation_unique.
  - apply sort_sorted.
  - apply sort_sorted.
  - eapply perm_trans; [apply Permutation_sym, sort_permutation|].
    eapply perm_trans; [exact Hp | apply sort_permutation].
  - eapply Permutation_NoDup; [|exact Hnd].
    apply Permutation_map, sort_permutation.
Qed.

End SortFacts.

(** X5.  [sort_path_by_time] returns the waypoints it was given, each as
    often as it was given, in ascending order of timestamp. *)
Theorem X5_sort_returns_a_sorted_rearrangement :
  forall (v : Variant) (path : list (Both.Waypoint v)),
    Both.sorted_by_time v (Both.sort_path_by_time v path)
    /\ Permutation path (Both.sort_path_by_time v path).
Proof.
  intros v; destruct v; intros path; open_variant;
    (split; [apply sort_sorted | apply sort_permutation]).
Qed.

(** X6.  A path already in ascending order of timestamp is returned
    unchanged, also where timestamps repeat; sorting twice is the same as
    sorting once. *)
Theorem X6_sort_leaves_sorted_paths_unchanged :
  forall (v : Variant) (path : list (Both.Waypoint v)),
    (Both.sorted_by_time v path -> Both.sort_path_by_time v path = path)
    /\ Both.sort_path_by_time v (Both.sort_path_by_time v path)
       = Both.sort_path_by_time v path.
Proof.
  intros v; destruct v; intros path; open_variant;
    (split; [apply sort_of_sorted | apply sort_of_sorted, sort_sorted]).
Qed.

Lemma X6_witness :
  Both.sort_path_by_time TwoD Examples.crossing_A = Examples.crossing_A.
Proof.
  apply (proj1 (X6_sort_leaves_sorted_paths_unchanged
                  TwoD Examples.crossing_A)).
  unfold Examples.crossing_A. cbn. split; [lra | exact I].
Defined.

(** X7.  The sort is stable: the waypoints that share a timestamp appear in
    the sorted path in the order in which they were given. *)
Theorem X7_sort_is_stable :
  forall (v : Variant) (path : list (Both.Waypoint v)) (tau : R),
    filter (fun w => Reqb (Both.stamp v w) tau) (Both.sort_path_by_time v path)
    = filter (fun w => Reqb (Both.stamp v w) tau) path.
Proof.
  intros v; destruct v; intros path tau; open_variant; apply filter_sort.
Qed.

(** X8.  When no two waypoints of a drone share a timestamp, the order in
    which its waypoints are listed does not matter: any rearrangement sorts
    to the same path and gives the same conflict events against any other
    drone. *)
Theorem X8_waypoint_order_is_irrelevant_for_distinct_timestamps :
  forall (v : Variant) (p p' other : list (Both.Waypoint v))
         (d1 d2 : string) (safety_distance time_step : R),
    Permutation p p' -> NoDup (map (Both.stamp v) p) ->
    Both.sort_path_by_time v p = Both.sort_path_by_time v p'
    /\ Both.pair_conflicts v d1 d2 p other safety_distance time_step
       = Both.pair_conflicts v d1 d2 p' other safety_distance time_step
    /\ Both.pair_conflicts v d1 d2 other p safety_distance time_step
       = Both.pair_conflicts v d1 d2 other p' safety_distance time_step.
Proof.
  intros v; destruct v; intros p p' other d1 d2 s ts Hp Hnd; open_variant.
  - pose proof (sort_order_independent D2.stamp p p' Hp Hnd) as Hsort.
    split; [exact Hsort|]. unfold pair_conflicts. now rewrite Hsort.
  - pose proof (sort_order_independent D3.stamp p p' Hp Hnd) as Hsort.
    split; [exact Hsort|]. unfold pair_conflicts. now rewrite Hsort.
Qed.

Lemma X8_witness :
  Both.sort_path_by_time TwoD [(10, 0, 10); (0, 0, 0)]
  = Both.sort_path_by_time TwoD Examples.crossing_A
  /\ Both.pair_conflicts TwoD "A" "B" [(10, 0, 10); (0, 0, 0)]
                         Examples.crossing_B 1 5
     = Both.pair_conflicts TwoD "A" "B" Examples.crossing_A
                           Examples.crossing_B 1 5
  /\ Both.pair_conflicts TwoD "A" "B" Examples.crossing_B
                         [(10, 0, 10); (0, 0, 0)] 1 5
     = Both.pair_conflicts TwoD "A" "B" Examples.crossing_B
                           Examples.crossing_A 1 5.
Proof.
  apply (X8_waypoint_order_is_irrelevant_for_distinct_timestamps
           TwoD [(10, 0, 10); (0, 0, 0)] Examples.crossing_A
           Examples.crossing_B "A"%string "B"%string 1 5).
  - apply perm_swap.
  - simpl. repeat constructor; simpl; intros H;
      repeat (destruct H as [H|H]; [lra|]); exact H.
Defined.

(** ** Position lookup, segment by segment *)

Section LookupFacts.

Context {W P : Type}.
Variable stamp : W -> R.
Variable interpolate : W -> W -> R -> P.

Local Abbreviation gpat := (get_position_at_time stamp interpolate).

Lemma gpat_first_bracket path t p :
  gpat path t = Some p <->
  exists i a b,
    nth_error path i = Some a /\ nth_error path (S i) = Some b
    /\ stamp a <= t <= stamp b /\ p = interpolate a b t
    /\ forall j a' b', (j < i)%nat ->
         nth_error path j = Some a' -> nth_error path (S j) = Some b' ->
         ~ (stamp a' <= t <= stamp b').
Proof.
  revert p. induction path as [|a rest IH]; intros p.
  { split; [discriminate|]. intros (i & a & b & H & _). destruct i; discriminate. }
  destruct rest as [|b rest].
  { split; [discriminate|]. intros (i & x & y & _ & H & _).
    destruct i as [|[|i]]; discriminate. }
  rewrite gpat_cons.
  destruct (Rleb (stamp a) t && Rleb t (stamp b)) eqn:Hseg.
  - apply andb_true_iff in Hseg. destruct Hseg as [H1 H2].
    apply Rleb_true in H1. apply Rleb_true in H2. split.
    + intros Hp. inversion Hp; subst. exists 0%nat, a, b.
      split; [reflexivity|]. split; [reflexivity|]. split; [lra|].
      split; [reflexivity|]. intros j a' b' Hj. lia.
    + intros (i & x & y & Hx & Hy & Hxy & Hp & Hmin).
      destruct i as [|i].
      * simpl in Hx, Hy. inversion Hx; inversion Hy; subst. reflexivity.
      * exfalso. apply (Hmin 0%nat a b); [lia | reflexivity | reflexivity | lra].
  - assert (Hnot : ~ (stamp a <= t <= stamp b)).
    { intros [H1 H2]. apply andb_false_iff in Hseg.
      destruct Hseg as [H|H]; apply Rleb_false in H; lra. }
    rewrite IH. split.
    + intros (i & x & y & Hx & Hy & Hxy & Hp & Hmin).
      exists (S i), x, y.
      split; [exact Hx|]. split; [exact Hy|]. split; [exact Hxy|].
      split; [exact Hp|].
      intros j a' b' Hj Ha' Hb'. destruct j as [|j].
      * simpl in Ha', Hb'. inversion Ha'; inversion Hb'; subst. exact Hnot.
      * apply (Hmin j a' b'); [lia | exact Ha' | exact Hb'].
    + intros (i & x & y & Hx & Hy & Hxy & Hp & Hmin).
      destruct i as [|i].
      * simpl in Hx, Hy. inversion Hx; inversion Hy; subst. tauto.
      * exists i, x, y.
        split; [exact Hx|]. split; [exact Hy|]. split; [exact Hxy|].
        split; [exact Hp|].
        intros j a' b' Hj Ha' Hb'.
        apply (Hmin (S j) a' b'); [lia | exact Ha' | exact Hb'].
Qed.

End LookupFacts.

(** X9.  [get_position_at_time] returns a position exactly when some pair
    of consecutive waypoints brackets [t], and the position is the
    interpolation on the first such pair (also for a path that is not in
    ascending order). *)
Theorem X9_lookup_interpolates_on_the_first_bracketing_segment :
  forall (v : Variant) (path : list (Both.Waypoint v)) (t : R)
         (p : Both.Point v),
    Both.get_position_at_time v path t = Some p <->
    exists i a b,
      nth_error path i = Some a /\ nth_error path (S i) = Some b
      /\ Both.stamp v a <= t <= Both.stamp v b
      /\ p = Both.interpolate v a b t
      /\ forall j a' b', (j < i)%nat ->
           nth_error path j = Some a' -> nth_error path (S j) = Some b' ->
           ~ (Both.stamp v a' <= t <= Both.stamp v b').
Proof.
  intros v; destruct v; intros path t p; open_variant;
    apply gpat_first_bracket.
Qed.

Lemma In_last {A : Type} (a : A) (l : list A) (d : A) : In (last (a :: l) d) (a :: l).
Proof.
  revert a. induction l as [|b l IH]; intros a; [now left|].
  right. apply IH.
Qed.

(** ** A pair of drones *)

Section PairFacts.

Context {W P : Type}.
Variable stamp : W -> R.
Variable interpolate : W -> W -> R -> P.
Variable distance : P -> P -> R.
Variable round_location : P -> P.

Local Abbreviation gpat := (get_position_at_time stamp interpolate).
Local Abbreviation sort := (sort_path_by_time stamp).
Local Abbreviation window := (mission_window stamp).
Local Abbreviation sample_at :=
  (sample_at stamp interpolate distance round_location).
Local Abbreviation pair_conflicts :=
  (pair_conflicts stamp interpolate distance round_location).
Local Abbreviation pairwise :=
  (pairwise stamp interpolate distance round_location).
Local Abbreviation check :=
  (check_all_paths_conflict stamp interpolate distance round_location).

(** The window of two paths lies within the mission of each. *)
Lemma window_within_missions path1 path2 start end_t :
  window path1 path2 = Some (start, end_t) ->
  exists a1 r1 a2 r2,
    path1 = a1 :: r1 /\ path2 = a2 :: r2
    /\ (2 <= length path1)%nat /\ (2 <= length path2)%nat
    /\ stamp a1 <= start /\ stamp a2 <= start
    /\ end_t <= stamp (last path1 a1) /\ end_t <= stamp (last path2 a2).
Proof.
  unfold mission_window.
  destruct path1 as [|a1 [|b1 r1]]; try discriminate.
  destruct path2 as [|a2 [|b2 r2]]; try discriminate.
  intros H. inversion H; subst.
  exists a1, (b1 :: r1), a2, (b2 :: r2).
  repeat split; try (simpl; lia);
    try apply Rmax_l; try apply Rmax_r; try apply Rmin_l; try apply Rmin_r.
Qed.

Lemma window_positions path1 path2 start end_t t :
  window path1 path2 = Some (start, end_t) ->
  start <= t <= end_t ->
  exists pos1 pos2, gpat path1 t = Some pos1 /\ gpat path2 t = Some pos2.
Proof.
  intros Hw Ht.
  destruct (window_within_missions path1 path2 start end_t Hw)
    as (a1 & r1 & a2 & r2 & -> & -> & Hl1 & Hl2 & H1 & H2 & H3 & H4).
  destruct (gpat_inside stamp interpolate a1 r1 t Hl1 ltac:(lra)) as [pos1 Hp1].
  destruct (gpat_inside stamp interpolate a2 r2 t Hl2 ltac:(lra)) as [pos2 Hp2].
  now exists pos1, pos2.
Qed.

(** Missions that do not overlap in time. *)
Lemma pair_conflicts_disjoint d1 d2 p1 p2 safety time_step :
  (forall w1 w2, In w1 p1 -> In w2 p2 -> stamp w1 <= stamp w2) ->
  pair_conflicts d1 d2 p1 p2 safety time_step = []
  /\ pair_conflicts d2 d1 p2 p1 safety time_step = [].
Proof.
  intros Hbefore.
  assert (Hshort : forall start end_t,
             window (sort p1) (sort p2) = Some (start, end_t) ->
             end_t - start <= 0).
  { intros start end_t Hw.
    destruct (window_within_missions _ _ _ _ Hw)
      as (a1 & r1 & a2 & r2 & E1 & E2 & _ & _ & _ & H2 & H3 & _).
    assert (Hin1 : In (last (sort p1) a1) p1).
    { apply (Permutation_in _ (Permutation_sym (sort_permutation stamp p1))).
      rewrite E1. apply In_last. }
    assert (Hin2 : In a2 p2).
    { apply (Permutation_in _ (Permutation_sym (sort_permutation stamp p2))).
      rewrite E2. now left. }
    specialize (Hbefore _ _ Hin1 Hin2). lra. }
  split; unfold Generic.pair_conflicts;
    rewrite ?(mission_window_swap stamp (sort p1) (sort p2));
    destruct (window (sort p1) (sort p2)) as [[start end_t]|] eqn:Hw;
    try reflexivity; cbv zeta;
    replace (Rleb (end_t - start) 0) with true
      by (symmetry; apply Rleb_true; now apply Hshort);
    reflexivity.
Qed.

(** The pair labels follow the enumeration of the drone names. *)
Lemma In_pairwise_names e fleet safety time_step names :
  In e (pairwise fleet safety time_step names) ->
  exists l1 d1 l2 d2 l3,
    names = l1 ++ d1 :: l2 ++ d2 :: l3 /\ ev_between e = (d1, d2).
Proof.
  induction names as [|d1 later IH]; simpl; [intros []|].
  rewrite in_app_iff, in_flat_map. intros [[d2 [Hd2 Hin]]|Hin].
  - apply in_split in Hd2. destruct Hd2 as (l2 & l3 & ->).
    apply (In_pair_conflicts stamp interpolate distance round_location) in Hin.
    destruct Hin as (t & pos1 & pos2 & _ & _ & _ & ->).
    exists [], d1, l2, d2, l3. split; reflexivity.
  - destruct (IH Hin) as (l1 & a & l2 & b & l3 & -> & He).
    exists (d1 :: l1), a, l2, b, l3. split; [reflexivity | exact He].
Qed.

End PairFacts.

Section PairEventFacts.

Context {W P : Type}.
Variable stamp : W -> R.
Variable interpolate : W -> W -> R -> P.
Variable distance : P -> P -> R.
Variable round_location : P -> P.

Local Abbreviation gpat := (get_position_at_time stamp interpolate).
Local Abbreviation sort := (sort_path_by_time stamp).
Local Abbreviation window := (mission_window stamp).
Local Abbreviation sample_at :=
  (sample_at stamp interpolate distance round_location).
Local Abbreviation pair_conflicts :=
  (pair_conflicts stamp interpolate distance round_location).
Local Abbreviation pairwise :=
  (pairwise stamp interpolate distance round_location).
Local Abbreviation check :=
  (check_all_paths_conflict stamp interpolate distance round_location).

Lemma In_pairwise_iff e fleet safety time_step names :
  In e (pairwise fleet safety time_step names) <->
  exists l1 d1 l2 d2 l3,
    names = l1 ++ d1 :: l2 ++ d2 :: l3
    /\ In e (pair_conflicts d1 d2 (dict_get fleet d1) (dict_get fleet d2)
                            safety time_step).
Proof.
  induction names as [|d1 later IH]; simpl.
  - split; [intros []|]. intros (l1 & a & l2 & b & l3 & H & _).
    destruct l1; discriminate.
  - rewrite in_app_iff, in_flat_map, IH. split.
    + intros [[d2 [Hd2 Hin]]|(l1 & a & l2 & b & l3 & -> & Hin)].
      * apply in_split in Hd2. destruct Hd2 as (l2 & l3 & ->).
        exists [], d1, l2, d2, l3. split; [reflexivity | exact Hin].
      * exists (d1 :: l1), a, l2, b, l3. split; [reflexivity | exact Hin].
    + intros (l1 & a & l2 & b & l3 & Hnames & Hin).
      destruct l1 as [|x l1]; simpl in Hnames; inversion Hnames; subst.
      * left. exists b. split; [|exact Hin].
        apply in_or_app. right. now left.
      * right. now exists l1, a, l2, b, l3.
Qed.

End PairEventFacts.

Lemma crossing_window :
  Both.mission_window TwoD (Both.sort_path_by_time TwoD Examples.crossing_A)
                      (Both.sort_path_by_time TwoD Examples.crossing_B)
  = Some (0, 10).
Proof.
  open_variant. rewrite sort_crossing_A, sort_crossing_B.
  unfold Examples.crossing_A, Examples.crossing_B. eval_window.
Qed.

(** X12.  At every instant of the overlap window of two drones both have a
    position: inside the sampling loop the test [if pos1 and pos2] never
    fails. *)
Theorem X12_both_drones_have_positions_throughout_the_window :
  forall (v : Variant) (p1 p2 : list (Both.Waypoint v)) (start end_t t : R),
    Both.mission_window v (Both.sort_path_by_time v p1)
                        (Both.sort_path_by_time v p2) = Some (start, end_t) ->
    start <= t <= end_t ->
    exists pos1 pos2,
      Both.get_position_at_time v (Both.sort_path_by_time v p1) t = Some pos1
      /\ Both.get_position_at_time v (Both.sort_path_by_time v p2) t
         = Some pos2.
Proof.
  intros v; destruct v; intros p1 p2 start end_t t Hw Ht; open_variant;
    eapply window_positions; eassumption.
Qed.

Lemma X12_witness :
  exists pos1 pos2,
    Both.get_position_at_time
      TwoD (Both.sort_path_by_time TwoD Examples.crossing_A) 7 = Some pos1
    /\ Both.get_position_at_time
         TwoD (Both.sort_path_by_time TwoD Examples.crossing_B) 7 = Some pos2.
Proof.
  apply (X12_both_drones_have_positions_throughout_the_window
           TwoD Examples.crossing_A Examples.crossing_B 0 10 7).
  - exact crossing_window.
  - lra.
Defined.

(** X16.  Two drones whose missions do not overlap in time (no waypoint of
    the first is later than any waypoint of the second) give no conflict
    event, in either order of the pair and whatever their positions, safety
    distance and time step. *)
Theorem X16_missions_disjoint_in_time_never_conflict :
  forall (v : Variant) (d1 d2 : string) (p1 p2 : list (Both.Waypoint v))
         (safety_distance time_step : R),
    (forall w1 w2, In w1 p1 -> In w2 p2 ->
                   Both.stamp v w1 <= Both.stamp v w2) ->
    Both.pair_conflicts v d1 d2 p1 p2 safety_distance time_step = []
    /\ Both.pair_conflicts v d2 d1 p2 p1 safety_distance time_step = [].
Proof.
  intros v; destruct v; intros d1 d2 p1 p2 s ts Hbefore; open_variant;
    now apply pair_conflicts_disjoint.
Qed.

Lemma X16_witness :
  Both.pair_conflicts TwoD "A" "B" [(0, 0, 0); (10, 0, 10)]
                      [(0, 0, 20); (10, 0, 30)] 5 1 = []
  /\ Both.pair_conflicts TwoD "B" "A" [(0, 0, 20); (10, 0, 30)]
                         [(0, 0, 0); (10, 0, 10)] 5 1 = [].
Proof.
  apply (X16_missions_disjoint_in_time_never_conflict
           TwoD "A"%string "B"%string [(0, 0, 0); (10, 0, 10)]
           [(0, 0, 20); (10, 0, 30)] 5 1).
  intros w1 w2 [<-|[<-|[]]] [<-|[<-|[]]]; simpl; lra.
Defined.

(** X17.  The report holds exactly the events of the pairs [(d1, d2)] in
    which [d1] is enumerated before [d2] among the drone names; every event
    is labelled with its pair in that order, and when the names are distinct
    no event pairs a drone with itself. *)
Theorem X17_report_holds_the_events_of_each_pair_once :
  forall (v : Variant) (fleet : Both.Fleet v) (safety_distance time_step : R)
         (e : ConflictEvent (Both.Point v)),
    In e (conflicts_of (Both.check_all_paths_conflict
                          v fleet safety_distance time_step))
    <-> exists l1 d1 l2 d2 l3,
        drone_names fleet = l1 ++ d1 :: l2 ++ d2 :: l3
        /\ In e (Both.pair_conflicts v d1 d2 (dict_get fleet d1)
                                     (dict_get fleet d2)
                                     safety_distance time_step)
        /\ ev_between e = (d1, d2)
        /\ (NoDup (drone_names fleet) -> d1 <> d2).
Proof.
  intros v; destruct v; intros fleet s ts e; open_variant;
    rewrite check_conflicts, In_pairwise_iff;
    (split;
     [ intros (l1 & d1 & l2 & d2 & l3 & Hnames & Hin);
       exists l1, d1, l2, d2, l3;
       split; [exact Hnames|]; split; [exact Hin|];
       split;
       [ apply In_pair_conflicts in Hin;
         destruct Hin as (t & pos1 & pos2 & _ & _ & _ & ->); reflexivity
       | intros Hnd Heq; subst d2; rewrite Hnames in Hnd;
         apply NoDup_remove_2 in Hnd; apply Hnd;
         apply in_or_app; right; apply in_or_app; right; now left ]
     | intros (l1 & d1 & l2 & d2 & l3 & Hnames & Hin & _);
       now exists l1, d1, l2, d2, l3 ]).
Qed.

Section DetectionFacts.

Context {W P : Type}.
Variable stamp : W -> R.
Variable interpolate : W -> W -> R -> P.
Variable distance : P -> P -> R.
Variable round_location : P -> P.

Local Abbreviation gpat := (get_position_at_time stamp interpolate).
Local Abbreviation sort := (sort_path_by_time stamp).
Local Abbreviation window := (mission_window stamp).
Local Abbreviation pair_conflicts :=
  (pair_conflicts stamp interpolate distance round_location).
Local Abbreviation pairwise :=
  (pairwise stamp interpolate distance round_location).

(** A position exists only on a path of at least 2 waypoints. *)
Lemma gpat_some_length path t p : gpat path t = Some p -> (2 <= length path)%nat.
Proof.
  intros Hp. destruct (Nat.lt_ge_cases (length path) 2) as [Hlt|Hge];
    [|exact Hge].
  rewrite (gpat_short stamp interpolate path t Hlt) in Hp. discriminate.
Qed.

Lemma In_pairwise_lengths e fleet safety time_step names :
  In e (pairwise fleet safety time_step names) ->
  (2 <= length (dict_get fleet (fst (ev_between e))))%nat
  /\ (2 <= length (dict_get fleet (snd (ev_between e))))%nat.
Proof.
  intros Hin.
  apply (In_pairwise stamp interpolate distance round_location) in Hin.
  destruct Hin as (d1 & d2 & t & pos1 & pos2 & _ & _ & H1 & H2 & _ & ->).
  cbn [ev_between fst snd].
  apply gpat_some_length in H1. apply gpat_some_length in H2.
  rewrite length_sort_path_by_time in H1, H2. now split.
Qed.

End DetectionFacts.

(** X20.  A drone with fewer than 2 waypoints is never part of a reported
    conflict: both drones of every event have at least 2 waypoints. *)
Theorem X20_reported_drones_have_at_least_two_waypoints :
  forall (v : Variant) (fleet : Both.Fleet v) (safety_distance time_step : R)
         (e : ConflictEvent (Both.Point v)),
    In e (conflicts_of (Both.check_all_paths_conflict
                          v fleet safety_distance time_step)) ->
    (2 <= length (dict_get fleet (fst (ev_between e))))%nat
    /\ (2 <= length (dict_get fleet (snd (ev_between e))))%nat.
Proof.
  intros v; destruct v; intros fleet s ts e Hin; open_variant;
    rewrite check_conflicts in Hin;
    eapply In_pairwise_lengths; eassumption.
Qed.

Lemma X20_witness :
  (2 <= length (dict_get Examples.hovering
                         (fst (ev_between Examples.hover_event))))%nat
  /\ (2 <= length (dict_get Examples.hovering
                            (snd (ev_between Examples.hover_event))))%nat.
Proof.
  apply (X20_reported_drones_have_at_least_two_waypoints
           TwoD Examples.hovering (129 / 128) 6 Examples.hover_event).
  cbn [Both.check_all_paths_conflict Both.Point].
  rewrite hovering_report. left. reflexivity.
Defined.

(** ** Reading a path from the console *)

Ltac run_script :=
  cbv [Console.bind Console.print Console.input Console.call Script.float_input
         Script.float Script.int Console.ret Console.raise
         Console.stdin Console.stdout Console.drawn].

Ltac run_script_in H :=
  cbv [Console.bind Console.print Console.input Console.call Script.float_input
         Script.float Script.int Console.ret Console.raise
         Console.stdin Console.stdout Console.drawn] in H.

Section ReadPath2D.

Import Console.
Variable int_of_string : string -> option Z.
Variable float_of_string : string -> option R.

Local Abbreviation read_waypoints := (Script2D.read_waypoints float_of_string).
Local Abbreviation get_drone_path :=
  (Script2D.get_drone_path int_of_string float_of_string).

Lemma read_waypoints_2d_typed path :
  forall numbers rest i acc out dr,
    map float_of_string numbers = map Some (Script2D.typed_numbers path) ->
    exists out',
      read_waypoints (length path) i acc (mkState (numbers ++ rest) out dr)
      = (Returned (acc ++ path), mkState rest out' dr).
Proof.
  induction path as [|[[x y] t] path IH]; intros numbers rest i acc out dr Hn.
  - destruct numbers; [|discriminate]. exists out. simpl.
    now rewrite app_nil_r.
  - destruct numbers as [|lx [|ly [|lt numbers]]]; try discriminate.
    cbn [Script2D.typed_numbers flat_map map app fst snd] in Hn.
    inversion Hn as [[Hx Hy Ht Hrest]].
    cbn [length Script2D.read_waypoints app]. run_script.
    rewrite Hx. run_script. rewrite Hy. run_script. rewrite Ht. run_script.
    destruct (IH numbers rest (S i) (acc ++ [(x, y, t)])
                 ((((out ++ ("Waypoint " ++ str_nat (i + 1) ++ ":") ++ newline)
                      ++ "  x: ") ++ "  y: ") ++ "  time: ")%string dr Hrest)
      as [out' Hrun].
    exists out'. rewrite Hrun. now rewrite <- app_assoc.
Qed.

Lemma read_waypoints_2d_returned count :
  forall i acc st path st',
    read_waypoints count i acc st = (Returned path, st') ->
    exists numbers new,
      stdin st = numbers ++ stdin st'
      /\ path = acc ++ new /\ length new = count
      /\ map float_of_string numbers = map Some (Script2D.typed_numbers new)
      /\ drawn st' = drawn st.
Proof.
  induction count as [|count IH]; intros i acc st path st' Hrun.
  - simpl in Hrun. inversion Hrun; subst.
    exists [], []. rewrite app_nil_r. repeat split; reflexivity.
  - destruct st as [inp out dr].
    cbn [Script2D.read_waypoints] in Hrun. run_script_in Hrun.
    destruct inp as [|lx inp]; [discriminate|].
    destruct (float_of_string lx) as [x|] eqn:Hx; [|discriminate].
    destruct inp as [|ly inp]; [discriminate|].
    destruct (float_of_string ly) as [y|] eqn:Hy; [|discriminate].
    destruct inp as [|lt inp]; [discriminate|].
    destruct (float_of_string lt) as [t|] eqn:Ht; [|discriminate].
    apply IH in Hrun.
    destruct Hrun as (numbers & new & Hstd & Hpath & Hlen & Hnum & Hdr).
    cbn [stdin drawn] in *.
    exists (lx :: ly :: lt :: numbers), ((x, y, t) :: new).
    repeat split.
    + cbn [app]. now rewrite Hstd.
    + rewrite Hpath. now rewrite <- app_assoc.
    + simpl. now rewrite Hlen.
    + cbn [Script2D.typed_numbers flat_map map app fst snd].
      rewrite Hx, Hy, Ht. do 3 f_equal. exact Hnum.
    + exact Hdr.
Qed.

Lemma get_drone_path_2d_typed name path count_line numbers rest out dr :
  int_of_string count_line = Some (Z.of_nat (length path)) ->
  map float_of_string numbers = map Some (Script2D.typed_numbers path) ->
  exists out',
    get_drone_path name (mkState (count_line :: numbers ++ rest) out dr)
    = (Returned path, mkState rest out' dr).
Proof.
  intros Hcount Hnumbers. unfold Script2D.get_drone_path. run_script.
  rewrite Hcount. run_script.
  destruct (Z.of_nat (length path) <? 2)%Z; run_script;
    rewrite Nat2Z.id;
    match goal with
    | |- context [mkState (numbers ++ rest) ?o dr] =>
        destruct (read_waypoints_2d_typed path numbers rest 0%nat [] o dr
                                          Hnumbers) as [out' Hrun]
    end;
    exists out'; exact Hrun.
Qed.

Lemma get_drone_path_2d_returned name st path st' :
  get_drone_path name st = (Returned path, st') ->
  exists count_line numbers n,
    stdin st = count_line :: numbers ++ stdin st'
    /\ int_of_string count_line = Some n
    /\ length path = Z.to_nat n
    /\ map float_of_string numbers = map Some (Script2D.typed_numbers path)
    /\ drawn st' = drawn st.
Proof.
  destruct st as [inp out dr]. unfold Script2D.get_drone_path.
  intros Hrun. run_script_in Hrun.
  destruct inp as [|count_line inp]; [discriminate|].
  destruct (int_of_string count_line) as [n|] eqn:Hcount; [|discriminate].
  destruct (n <? 2)%Z; run_script_in Hrun;
    apply read_waypoints_2d_returned in Hrun;
    destruct Hrun as (numbers & new & Hstd & Hpath & Hlen & Hnum & Hdr);
    cbn [stdin drawn app] in *; subst path;
    exists count_line, numbers, n; repeat split; auto; now rewrite Hstd.
Qed.

Lemma get_drone_path_2d_none name count_line n rest out dr :
  int_of_string count_line = Some n -> (n <= 0)%Z ->
  get_drone_path name (mkState (count_line :: rest) out dr)
  = (Returned [],
     mkState rest
             ((out ++ (newline ++ "Enter number of waypoints for " ++ name
                               ++ ": "))
                ++ ("Warning: Drone '" ++ name
                      ++ "' has insufficient waypoints.") ++ newline)%string
             dr).
Proof.
  intros Hcount Hn. unfold Script2D.get_drone_path. run_script.
  rewrite Hcount. run_script.
  replace (n <? 2)%Z with true by (symmetry; apply Z.ltb_lt; lia).
  replace (Z.to_nat n) with 0%nat by lia.
  cbn [Script2D.read_waypoints]. run_script.
  reflexivity.
Qed.

End ReadPath2D.

Section ReadPath3D.

Import Console.
Variable int_of_string : string -> option Z.
Variable float_of_string : string -> option R.

Local Abbreviation read_waypoints := (Script3D.read_waypoints float_of_string).
Local Abbreviation get_drone_path :=
  (Script3D.get_drone_path int_of_string float_of_string).

Lemma read_waypoints_3d_typed path :
  forall numbers rest i acc out dr,
    map float_of_string numbers = map Some (Script3D.typed_numbers path) ->
    exists out',
      read_waypoints (length path) i acc (mkState (numbers ++ rest) out dr)
      = (Returned (acc ++ path), mkState rest out' dr).
Proof.
  induction path as [|[[[x y] z] t] path IH]; intros numbers rest i acc out dr Hn.
  - destruct numbers; [|discriminate]. exists out. simpl.
    now rewrite app_nil_r.
  - destruct numbers as [|lx [|ly [|lz [|lt numbers]]]]; try discriminate.
    cbn [Script3D.typed_numbers flat_map map app fst snd] in Hn.
    inversion Hn as [[Hx Hy Hz Ht Hrest]].
    cbn [length Script3D.read_waypoints app]. run_script.
    rewrite Hx. run_script. rewrite Hy. run_script. rewrite Hz. run_script.
    rewrite Ht. run_script.
    destruct (IH numbers rest (S i) (acc ++ [(x, y, z, t)])
                 (((((out ++ ("Waypoint " ++ str_nat (i + 1) ++ ":")
                          ++ newline)
                       ++ "  x: ") ++ "  y: ") ++ "  z (altitude): ")
                    ++ "  time: ")%string dr Hrest)
      as [out' Hrun].
    exists out'. rewrite Hrun. now rewrite <- app_assoc.
Qed.

Lemma read_waypoints_3d_returned count :
  forall i acc st path st',
    read_waypoints count i acc st = (Returned path, st') ->
    exists numbers new,
      stdin st = numbers ++ stdin st'
      /\ path = acc ++ new /\ length new = count
      /\ map float_of_string numbers = map Some (Script3D.typed_numbers new)
      /\ drawn st' = drawn st.
Proof.
  induction count as [|count IH]; intros i acc st path st' Hrun.
  - simpl in Hrun. inversion Hrun; subst.
    exists [], []. rewrite app_nil_r. repeat split; reflexivity.
  - destruct st as [inp out dr].
    cbn [Script3D.read_waypoints] in Hrun. run_script_in Hrun.
    destruct inp as [|lx inp]; [discriminate|].
    destruct (float_of_string lx) as [x|] eqn:Hx; [|discriminate].
    destruct inp as [|ly inp]; [discriminate|].
    destruct (float_of_string ly) as [y|] eqn:Hy; [|discriminate].
    destruct inp as [|lz inp]; [discriminate|].
    destruct (float_of_string lz) as [z|] eqn:Hz; [|discriminate].
    destruct inp as [|lt inp]; [discriminate|].
    destruct (float_of_string lt) as [t|] eqn:Ht; [|discriminate].
    apply IH in Hrun.
    destruct Hrun as (numbers & new & Hstd & Hpath & Hlen & Hnum & Hdr).
    cbn [stdin drawn] in *.
    exists (lx :: ly :: lz :: lt :: numbers), ((x, y, z, t) :: new).
    repeat split.
    + cbn [app]. now rewrite Hstd.
    + rewrite Hpath. now rewrite <- app_assoc.
    + simpl. now rewrite Hlen.
    + cbn [Script3D.typed_numbers flat_map map app fst snd].
      rewrite Hx, Hy, Hz, Ht. do 4 f_equal. exact Hnum.
    + exact Hdr.
Qed.

Lemma get_drone_path_3d_typed name path count_line numbers rest out dr :
  int_of_string count_line = Some (Z.of_nat (length path)) ->
  map float_of_string numbers = map Some (Script3D.typed_numbers path) ->
  exists out',
    get_drone_path name (mkState (count_line :: numbers ++ rest) out dr)
    = (Returned path, mkState rest out' dr).
Proof.
  intros Hcount Hnumbers. unfold Script3D.get_drone_path. run_script.
  rewrite Hcount. run_script.
  destruct (Z.of_nat (length path) <? 2)%Z; run_script;
    rewrite Nat2Z.id;
    match goal with
    | |- context [mkState (numbers ++ rest) ?o dr] =>
        destruct (read_waypoints_3d_typed path numbers rest 0%nat [] o dr
                                          Hnumbers) as [out' Hrun]
    end;
    exists out'; exact Hrun.
Qed.

Lemma get_drone_path_3d_returned name st path st' :
  get_drone_path name st = (Returned path, st') ->
  exists count_line numbers n,
    stdin st = count_line :: numbers ++ stdin st'
    /\ int_of_string count_line = Some n
    /\ length path = Z.to_nat n
    /\ map float_of_string numbers = map Some (Script3D.typed_numbers path)
    /\ drawn st' = drawn st.
Proof.
  destruct st as [inp out dr]. unfold Script3D.get_drone_path.
  intros Hrun. run_script_in Hrun.
  destruct inp as [|count_line inp]; [discriminate|].
  destruct (int_of_string count_line) as [n|] eqn:Hcount; [|discriminate].
  destruct (n <? 2)%Z; run_script_in Hrun;
    apply read_waypoints_3d_returned in Hrun;
    destruct Hrun as (numbers & new & Hstd & Hpath & Hlen & Hnum & Hdr);
    cbn [stdin drawn app] in *; subst path;
    exists count_line, numbers, n; repeat split; auto; now rewrite Hstd.
Qed.

Lemma get_drone_path_3d_none name count_line n rest out dr :
  int_of_string count_line = Some n -> (n <= 0)%Z ->
  get_drone_path name (mkState (count_line :: rest) out dr)
  = (Returned [],
     mkState rest
             ((out ++ (newline ++ "Enter number of waypoints for " ++ name
                               ++ ": "))
                ++ ("Drone '" ++ name
                      ++ "' has insufficient waypoints.") ++ newline)%string
             dr).
Proof.
  intros Hcount Hn. unfold Script3D.get_drone_path. run_script.
  rewrite Hcount. run_script.
  replace (n <? 2)%Z with true by (symmetry; apply Z.ltb_lt; lia).
  replace (Z.to_nat n) with 0%nat by lia.
  cbn [Script3D.read_waypoints]. run_script.
  reflexivity.
Qed.

End ReadPath3D.

(** X22.  [get_drone_path] returns what was typed: when the first line is
    the number of waypoints of a path and the following lines are the
    numbers of its waypoints, in order, the path is returned and exactly
    these lines are consumed. *)
Theorem X22_get_drone_path_returns_the_typed_path :
  forall (int_of_string : string -> option Z)
         (float_of_string : string -> option R)
         (name count_line : string) (numbers rest : list string)
         (out : string) (dr : list Console.PlotCall),
    (forall path : list D2.Waypoint,
        int_of_string count_line = Some (Z.of_nat (length path)) ->
        map float_of_string numbers = map Some (Script2D.typed_numbers path) ->
        exists out',
          Script2D.get_drone_path
            int_of_string float_of_string name
            (Console.mkState (count_line :: numbers ++ rest) out dr)
          = (Console.Returned path, Console.mkState rest out' dr))
    /\ (forall path : list D3.Waypoint,
           int_of_string count_line = Some (Z.of_nat (length path)) ->
           map float_of_string numbers
           = map Some (Script3D.typed_numbers path) ->
           exists out',
             Script3D.get_drone_path
               int_of_string float_of_string name
               (Console.mkState (count_line :: numbers ++ rest) out dr)
             = (Console.Returned path, Console.mkState rest out' dr)).
Proof.
  intros int_of float_of name count_line numbers rest out dr. split.
  - intros path. apply get_drone_path_2d_typed.
  - intros path. apply get_drone_path_3d_typed.
Qed.

Lemma X22_witness :
  exists out',
    Script2D.get_drone_path
      (fun s => if String.eqb s "1" then Some 1%Z else None)
      (fun s => if String.eqb s "0" then Some 0 else None)
      "A"
      (Console.mkState ("1" :: ["0"; "0"; "0"] ++ ["next"])%string
                       EmptyString [])
    = (Console.Returned [(0, 0, 0)],
       Console.mkState ["next"%string] out' []).
Proof.
  apply (proj1 (X22_get_drone_path_returns_the_typed_path
                  (fun s => if String.eqb s "1" then Some 1%Z else None)
                  (fun s => if String.eqb s "0" then Some 0 else None)
                  "A"%string "1"%string ["0"; "0"; "0"]%string
                  ["next"%string] EmptyString []) [(0, 0, 0)]);
    reflexivity.
Defined.

(** X23.  [get_drone_path] returns only on well-formed input: the first
    line read is an integer [n], it is followed by the numbers of the
    returned waypoints (3 per waypoint in the 2D file, 4 in the 3D file),
    every one a number, the path has [max(n, 0)] waypoints, no other line
    is consumed and nothing is drawn. *)
Theorem X23_get_drone_path_returns_only_on_well_formed_input :
  forall (int_of_string : string -> option Z)
         (float_of_string : string -> option R)
         (name : string) (st st' : Console.State),
    (forall path : list D2.Waypoint,
        Script2D.get_drone_path int_of_string float_of_string name st
        = (Console.Returned path, st') ->
        exists count_line numbers n,
          Console.stdin st = count_line :: numbers ++ Console.stdin st'
          /\ int_of_string count_line = Some n
          /\ length path = Z.to_nat n
          /\ map float_of_string numbers
             = map Some (Script2D.typed_numbers path)
          /\ Console.drawn st' = Console.drawn st)
    /\ (forall path : list D3.Waypoint,
           Script3D.get_drone_path int_of_string float_of_string name st
           = (Console.Returned path, st') ->
           exists count_line numbers n,
             Console.stdin st = count_line :: numbers ++ Console.stdin st'
             /\ int_of_string count_line = Some n
             /\ length path = Z.to_nat n
             /\ map float_of_string numbers
                = map Some (Script3D.typed_numbers path)
             /\ Console.drawn st' = Console.drawn st).
Proof.
  intros int_of float_of name st st'. split.
  - intros path. apply get_drone_path_2d_returned.
  - intros path. apply get_drone_path_3d_returned.
Qed.

Lemma X23_witness :
  exists count_line numbers n,
    ["1"; "0"; "0"; "0"; "next"]%string
    = count_line :: numbers ++ ["next"%string]
    /\ (if String.eqb count_line "1" then Some 1%Z else None) = Some n
    /\ length [((0, 0, 0) : D2.Waypoint)] = Z.to_nat n
    /\ map (fun s => if String.eqb s "0" then Some 0 else None) numbers
       = map Some (Script2D.typed_numbers [(0, 0, 0)])
    /\ @nil Console.PlotCall = [].
Proof.
  assert (Hrun :
           exists out',
             Script2D.get_drone_path
               (fun s => if String.eqb s "1" then Some 1%Z else None)
               (fun s => if String.eqb s "0" then Some 0 else None)
               "A"
               (Console.mkState ["1"; "0"; "0"; "0"; "next"]%string
                                EmptyString [])
             = (Console.Returned [(0, 0, 0)],
                Console.mkState ["next"%string] out' [])).
  { eexists. reflexivity. }
  destruct Hrun as [out' Hrun].
  exact (proj1 (X23_get_drone_path_returns_only_on_well_formed_input
                  (fun s => if String.eqb s "1" then Some 1%Z else None)
                  (fun s => if String.eqb s "0" then Some 0 else None)
                  "A"%string
                  (Console.mkState ["1"; "0"; "0"; "0"; "next"]%string
                                   EmptyString [])
                  (Console.mkState ["next"%string] out' []))
               [(0, 0, 0)] Hrun).
Defined.

(** X24.  A number of waypoints that is zero or negative gives the empty
    path: only that line is consumed, and after the prompt the warning is
    printed (the path is returned all the same). *)
Theorem X24_get_drone_path_with_no_waypoints :
  forall (int_of_string : string -> option Z)
         (float_of_string : string -> option R)
         (name count_line : string) (n : Z) (rest : list string)
         (out : string) (dr : list Console.PlotCall),
    int_of_string count_line = Some n -> (n <= 0)%Z ->
    Script2D.get_drone_path int_of_string float_of_string name
                            (Console.mkState (count_line :: rest) out dr)
    = (Console.Returned [],
       Console.mkState
         rest
         ((out ++ (Console.newline ++ "Enter number of waypoints for " ++ name
                                   ++ ": "))
            ++ ("Warning: Drone '" ++ name ++ "' has insufficient waypoints.")
            ++ Console.newline)%string
         dr)
    /\ Script3D.get_drone_path int_of_string float_of_string name
                               (Console.mkState (count_line :: rest) out dr)
       = (Console.Returned [],
          Console.mkState
            rest
            ((out ++ (Console.newline ++ "Enter number of waypoints for "
                                      ++ name ++ ": "))
               ++ ("Drone '" ++ name ++ "' has insufficient waypoints.")
               ++ Console.newline)%string
            dr).
Proof.
  intros int_of float_of name count_line n rest out dr Hcount Hn. split.
  - eapply get_drone_path_2d_none; eassumption.
  - eapply get_drone_path_3d_none; eassumption.
Qed.

Lemma X24_witness :
  Script2D.get_drone_path
    (fun s => if String.eqb s "0" then Some 0%Z else None)
    (fun _ => None) "A"
    (Console.mkState ["0"; "next"]%string EmptyString [])
  = (Console.Returned [],
     Console.mkState
       ["next"%string]
       ((EmptyString
           ++ (Console.newline ++ "Enter number of waypoints for " ++ "A"
                               ++ ": "))
          ++ ("Warning: Drone '" ++ "A" ++ "' has insufficient waypoints.")
          ++ Console.newline)%string
       []).
Proof.
  apply (proj1 (X24_get_drone_path_with_no_waypoints
                  (fun s => if String.eqb s "0" then Some 0%Z else None)
                  (fun _ => None) "A"%string "0"%string 0%Z ["next"%string]
                  EmptyString [] eq_refl ltac:(lia))).
Defined.

(** ** The fleet read by [main] *)

Section DictFacts.

Context {W : Type}.

Lemma drone_names_dict_set (fleet : Fleet (W := W)) name path :
  drone_names (Script.dict_set fleet name path)
  = if existsb (String.eqb name) (drone_names fleet)
    then drone_names fleet else drone_names fleet ++ [name].
Proof.
  induction fleet as [|[k old] rest IH]; [reflexivity|].
  cbn [Script.dict_set drone_names map fst existsb].
  rewrite (String.eqb_sym name k).
  destruct (String.eqb k name) eqn:Hk; [reflexivity|].
  cbn [orb map fst]. fold (drone_names rest).
  fold (drone_names (Script.dict_set rest name path)). rewrite IH.
  now destruct (existsb (String.eqb name) (drone_names rest)).
Qed.

Lemma existsb_eqb_In name (names : list string) :
  existsb (String.eqb name) names = true <-> In name names.
Proof.
  rewrite existsb_exists. split.
  - intros (x & Hin & Heq). apply String.eqb_eq in Heq. now subst.
  - intros Hin. exists name. split; [exact Hin | apply String.eqb_refl].
Qed.

Lemma NoDup_dict_set (fleet : Fleet (W := W)) name path :
  NoDup (drone_names fleet) -> NoDup (drone_names (Script.dict_set fleet name path)).
Proof.
  intros Hnd. rewrite drone_names_dict_set.
  destruct (existsb (String.eqb name) (drone_names fleet)) eqn:Hex;
    [exact Hnd|].
  apply NoDup_app; [exact Hnd | repeat constructor; intros [] |].
  intros x Hx [<-|[]].
  apply existsb_eqb_In in Hx. congruence.
Qed.

Lemma length_dict_set (fleet : Fleet (W := W)) name path :
  (length (Script.dict_set fleet name path) <= S (length fleet))%nat.
Proof.
  induction fleet as [|[k old] rest IH]; simpl; [lia|].
  destruct (String.eqb k name); simpl; lia.
Qed.

Lemma dict_set_fresh (fleet : Fleet (W := W)) name path :
  ~ In name (drone_names fleet) ->
  Script.dict_set fleet name path = fleet ++ [(name, path)].
Proof.
  induction fleet as [|[k old] rest IH]; intros Hfresh; [reflexivity|].
  cbn [Script.dict_set app].
  destruct (String.eqb k name) eqn:Hk.
  - apply String.eqb_eq in Hk. subst. exfalso. apply Hfresh. now left.
  - rewrite IH; [reflexivity|]. intros Hin. apply Hfresh. now right.
Qed.

(** What was stored under a name is what is found under it. *)
Lemma dict_get_dict_set (fleet : Fleet (W := W)) name path :
  dict_get (Script.dict_set fleet name path) name = path.
Proof.
  induction fleet as [|[k old] rest IH]; simpl.
  - now rewrite String.eqb_refl.
  - destruct (String.eqb k name) eqn:Hk; simpl; rewrite Hk; [reflexivity|].
    exact IH.
Qed.

End DictFacts.

Section MainFacts.

Import Console.
Local Open Scope action_scope.

Variable int_of_string : string -> option Z.
Variable float_of_string : string -> option R.
Variable str_float : R -> string.
Variable repr_str : string -> string.
Context {W P : Type}.
Variable get_drone_path : string -> Action (list W).
Variable check : Fleet (W := W) -> R -> R -> Report P.
Variable plot_paths : Fleet (W := W) -> Report P -> Action unit.
Variable str_location : P -> string.
Variable no_conflict_message : string.
Variable typed_numbers : list W -> list R.

Local Abbreviation read_drones := (Script.read_drones get_drone_path).
Local Abbreviation typed :=
  (typed_drone int_of_string float_of_string typed_numbers).

Lemma read_drones_names count :
  forall i acc st fleet st',
    NoDup (drone_names acc) ->
    read_drones count i acc st = (Returned fleet, st') ->
    NoDup (drone_names fleet) /\ (length fleet <= length acc + count)%nat.
Proof.
  induction count as [|count IH]; intros i acc st fleet st' Hnd Hrun.
  - simpl in Hrun. inversion Hrun; subst. split; [exact Hnd | lia].
  - destruct st as [inp out dr]. cbn [Script.read_drones] in Hrun.
    run_script_in Hrun.
    destruct inp as [|name inp]; [discriminate|].
    destruct (get_drone_path name _) as [[path|e] st1] eqn:Hpath;
      [|discriminate].
    apply IH in Hrun; [|now apply NoDup_dict_set].
    destruct Hrun as [Hnd' Hlen]. split; [exact Hnd'|].
    pose proof (length_dict_set acc name path). lia.
Qed.

Hypothesis get_drone_path_typed :
  forall name path count_line numbers rest out dr,
    int_of_string count_line = Some (Z.of_nat (length path)) ->
    map float_of_string numbers = map Some (typed_numbers path) ->
    exists out',
      get_drone_path name (mkState (count_line :: numbers ++ rest) out dr)
      = (Returned path, mkState rest out' dr).

Lemma read_drones_typed blocks :
  forall entries i acc rest out dr,
    Forall2 typed blocks entries ->
    NoDup (drone_names (acc ++ entries)) ->
    exists out',
      read_drones (length entries) i acc
                  (mkState (flat_map typed_lines blocks ++ rest) out dr)
      = (Returned (acc ++ entries), mkState rest out' dr).
Proof.
  induction blocks as [|[[name count_line] numbers] blocks IH];
    intros entries i acc rest out dr Htyped Hnd.
  - inversion Htyped; subst. exists out. simpl. now rewrite app_nil_r.
  - inversion Htyped as [|? [name' path] ? entries' (Hname & Hcount & Hnum)
                            Hrest]; subst.
    cbn [fst snd] in *. subst name'.
    cbn [length Script.read_drones flat_map typed_lines fst snd app].
    run_script. rewrite <- app_assoc.
    match goal with
    | |- context [get_drone_path name (mkState _ ?o dr)] =>
        destruct (get_drone_path_typed name path count_line numbers
                    (flat_map typed_lines blocks ++ rest) o dr Hcount Hnum)
          as [out1 Hpath]
    end.
    rewrite Hpath.
    assert (Hfresh : ~ In name (drone_names acc)).
    { unfold drone_names in *. rewrite map_app in Hnd.
      apply NoDup_remove_2 in Hnd. intros Hin. apply Hnd.
      apply in_or_app. now left. }
    rewrite (dict_set_fresh acc name path Hfresh).
    destruct (IH entries' (S i) (acc ++ [(name, path)]) rest out1 dr Hrest)
      as [out' Hrun].
    { now rewrite <- app_assoc. }
    exists out'. rewrite Hrun. now rewrite <- app_assoc.
Qed.

Local Abbreviation main :=
  (Script.main int_of_string float_of_string str_float repr_str get_drone_path
        check plot_paths str_location no_conflict_message).
Local Abbreviation print_result :=
  (Script.print_result str_float repr_str str_location no_conflict_message).

Lemma main_typed fleet blocks count_line safety_line step_line rest
      safety time_step out dr :
  NoDup (drone_names fleet) ->
  int_of_string count_line = Some (Z.of_nat (length fleet)) ->
  Forall2 typed blocks fleet ->
  float_of_string safety_line = Some safety ->
  float_of_string step_line = Some time_step ->
  exists out',
    main (mkState (count_line :: flat_map typed_lines blocks
                              ++ safety_line :: step_line :: rest) out dr)
    = (print_result (check fleet safety time_step) ;;
       plot_paths fleet (check fleet safety time_step))
        (mkState rest out' dr).
Proof.
  intros Hnd Hcount Htyped Hsafety Hstep.
  unfold Script.main. run_script. rewrite Hcount. run_script.
  rewrite Nat2Z.id.
  match goal with
  | |- context [read_drones _ _ _ (mkState _ ?o dr)] =>
      destruct (read_drones_typed blocks fleet 0%nat []
                  (safety_line :: step_line :: rest) o dr Htyped Hnd)
        as [out1 Hread]
  end.
  rewrite Hread. cbn [app]. rewrite Hsafety, Hstep.
  eexists. reflexivity.
Qed.

End MainFacts.





(** ** What is drawn *)

Lemma filter_is_scatter_app (l1 l2 : list Console.PlotCall) :
  filter is_scatter (l1 ++ l2) = filter is_scatter l1 ++ filter is_scatter l2.
Proof. apply filter_app. Qed.

Section Plot2D.

Import Console.

Lemma plot_trajectories_2d_calls items st :
  Script2D.plot_trajectories items st
  = (Returned tt,
     mkState (stdin st) (stdout st)
             (drawn st ++ flat_map trajectory_calls_2d items)).
Proof.
  revert st. induction items as [|[name path] items IH]; intros [inp out dr].
  - simpl. run_script. now rewrite app_nil_r.
  - cbn [Script2D.plot_trajectories flat_map]. unfold trajectory_calls_2d at 1.
    cbn [fst snd]. run_script.
    destruct (length path <? 2)%nat; run_script; rewrite IH; cbn [stdin stdout drawn];
      now rewrite ?app_nil_r, <- ?app_assoc.
Qed.

Lemma plot_conflicts_2d_calls conflicts st :
  Script2D.plot_conflicts conflicts st
  = (Returned tt,
     mkState (stdin st) (stdout st) (drawn st ++ map marker_call_2d conflicts)).
Proof.
  revert st. induction conflicts as [|c conflicts IH]; intros [inp out dr].
  - simpl. run_script. now rewrite app_nil_r.
  - cbn [Script2D.plot_conflicts map]. unfold marker_call_2d at 1.
    destruct (ev_location c) as [cx cy]. cbn [fst snd]. run_script.
    rewrite IH. cbn [stdin stdout drawn]. now rewrite <- app_assoc.
Qed.

Lemma filter_scatter_trajectories items :
  filter is_scatter (flat_map trajectory_calls_2d items) = [].
Proof.
  induction items as [|[name path] items IH]; [reflexivity|].
  cbn [flat_map]. rewrite filter_app, IH. unfold trajectory_calls_2d.
  cbn [fst snd]. now destruct (length path <? 2)%nat.
Qed.

Lemma filter_scatter_markers conflicts :
  filter is_scatter (map marker_call_2d conflicts) = map marker_call_2d conflicts.
Proof.
  induction conflicts as [|c conflicts IH]; [reflexivity|].
  simpl. now rewrite IH.
Qed.

Lemma plot_paths_2d_calls fleet result st :
  exists calls,
    Script2D.plot_paths_2d fleet result st
    = (Returned tt, mkState (stdin st) (stdout st) (drawn st ++ calls))
    /\ length (filter is_scatter calls) = length (conflicts_of result)
    /\ forall name path,
         In (name, path) fleet -> (2 <= length path)%nat ->
         exists coordinates, In (plot coordinates name) calls.
Proof.
  destruct st as [inp out dr].
  exists ([figure 8 7] ++ flat_map trajectory_calls_2d fleet
            ++ map marker_call_2d (conflicts_of result)
            ++ [xlabel "X Position"; ylabel "Y Position";
                title "UAV Strategic Deconfliction (2D)"; legend; grid; show]).
  split; [|split].
  - unfold Script2D.plot_paths_2d. run_script.
    rewrite plot_trajectories_2d_calls. cbn [stdin stdout drawn].
    destruct result as [|conflicts]; cbn [conflicts_of map]; run_script.
    + now rewrite <- !app_assoc.
    + rewrite plot_conflicts_2d_calls. cbn [stdin stdout drawn].
      now rewrite <- !app_assoc.
  - rewrite !filter_app, filter_scatter_trajectories, filter_scatter_markers.
    cbn [filter is_scatter app]. now rewrite app_nil_r, length_map.
  - intros name path Hin Hlen. eexists.
    apply in_or_app. right. apply in_or_app. left.
    apply in_flat_map. exists (name, path). split; [exact Hin|].
    unfold trajectory_calls_2d. cbn [fst snd].
    replace (length path <? 2)%nat with false
      by (symmetry; apply Nat.ltb_ge; lia).
    left. reflexivity.
Qed.

End Plot2D.

Section Plot3D.

Import Console.

Lemma plot_trajectories_3d_calls items st :
  Script3D.plot_trajectories items st
  = (Returned tt,
     mkState (stdin st) (stdout st)
             (drawn st ++ flat_map trajectory_calls_3d items)).
Proof.
  revert st. induction items as [|[name path] items IH]; intros [inp out dr].
  - simpl. run_script. now rewrite app_nil_r.
  - cbn [Script3D.plot_trajectories flat_map]. unfold trajectory_calls_3d at 1.
    cbn [fst snd]. run_script.
    destruct (length path <? 2)%nat; run_script; rewrite IH; cbn [stdin stdout drawn];
      now rewrite ?app_nil_r, <- ?app_assoc.
Qed.

Lemma plot_conflicts_3d_calls conflicts st :
  Script3D.plot_conflicts conflicts st
  = (Returned tt,
     mkState (stdin st) (stdout st) (drawn st ++ map marker_call_3d conflicts)).
Proof.
  revert st. induction conflicts as [|c conflicts IH]; intros [inp out dr].
  - simpl. run_script. now rewrite app_nil_r.
  - cbn [Script3D.plot_conflicts map]. unfold marker_call_3d at 1.
    destruct (ev_location c) as [[cx cy] cz]. cbn [fst snd]. run_script.
    rewrite IH. cbn [stdin stdout drawn]. now rewrite <- app_assoc.
Qed.

Lemma filter_scatter_trajectories_3d items :
  filter is_scatter (flat_map trajectory_calls_3d items) = [].
Proof.
  induction items as [|[name path] items IH]; [reflexivity|].
  cbn [flat_map]. rewrite filter_app, IH. unfold trajectory_calls_3d.
  cbn [fst snd]. now destruct (length path <? 2)%nat.
Qed.

Lemma filter_scatter_markers_3d conflicts :
  filter is_scatter (map marker_call_3d conflicts) = map marker_call_3d conflicts.
Proof.
  induction conflicts as [|c conflicts IH]; [reflexivity|].
  simpl. now rewrite IH.
Qed.

Lemma plot_paths_3d_calls fleet result st :
  exists calls,
    Script3D.plot_paths_3d fleet result st
    = (Returned tt, mkState (stdin st) (stdout st) (drawn st ++ calls))
    /\ length (filter is_scatter calls) = length (conflicts_of result)
    /\ forall name path,
         In (name, path) fleet -> (2 <= length path)%nat ->
         exists coordinates, In (plot coordinates name) calls.
Proof.
  destruct st as [inp out dr].
  exists ([figure 9 7; add_subplot_3d] ++ flat_map trajectory_calls_3d fleet
            ++ map marker_call_3d (conflicts_of result)
            ++ [xlabel "X Position"; ylabel "Y Position";
                zlabel "Altitude (Z)";
                title "UAV Strategic Deconfliction (3D)"; legend; show]).
  split; [|split].
  - unfold Script3D.plot_paths_3d. run_script.
    rewrite plot_trajectories_3d_calls. cbn [stdin stdout drawn].
    destruct result as [|conflicts]; cbn [conflicts_of map]; run_script.
    + now rewrite <- !app_assoc.
    + rewrite plot_conflicts_3d_calls. cbn [stdin stdout drawn].
      now rewrite <- !app_assoc.
  - rewrite !filter_app, filter_scatter_trajectories_3d,
      filter_scatter_markers_3d.
    cbn [filter is_scatter app]. now rewrite app_nil_r, length_map.
  - intros name path Hin Hlen. eexists.
    apply in_or_app. right. apply in_or_app. left.
    apply in_flat_map. exists (name, path). split; [exact Hin|].
    unfold trajectory_calls_3d. cbn [fst snd].
    replace (length path <? 2)%nat with false
      by (symmetry; apply Nat.ltb_ge; lia).
    left. reflexivity.
Qed.

End Plot3D.

(** X27.  The plot of a report of the detector: [plot_paths] raises nothing
    and leaves the console alone; it draws as many red markers as the
    report has conflict events, and both drones of every reported conflict
    are among the trajectories drawn. *)
Theorem X27_plot_marks_every_conflict_between_drawn_drones :
  forall (safety_distance time_step : R) (st : Console.State),
    (forall fleet : Generic.Fleet (W := D2.Waypoint),
        let result :=
          D2.check_all_paths_conflict fleet safety_distance time_step in
        exists calls,
          Script2D.plot_paths_2d fleet result st
          = (Console.Returned tt,
             Console.mkState (Console.stdin st) (Console.stdout st)
                             (Console.drawn st ++ calls))
          /\ length (filter is_scatter calls) = length (conflicts_of result)
          /\ forall e,
               In e (conflicts_of result) ->
               (exists xy, In (Console.plot xy (fst (ev_between e))) calls)
               /\ (exists xy, In (Console.plot xy (snd (ev_between e))) calls))
    /\ (forall fleet : Generic.Fleet (W := D3.Waypoint),
           let result :=
             D3.check_all_paths_conflict fleet safety_distance time_step in
           exists calls,
             Script3D.plot_paths_3d fleet result st
             = (Console.Returned tt,
                Console.mkState (Console.stdin st) (Console.stdout st)
                                (Console.drawn st ++ calls))
             /\ length (filter is_scatter calls) = length (conflicts_of result)
             /\ forall e,
                  In e (conflicts_of result) ->
                  (exists xyz, In (Console.plot xyz (fst (ev_between e))) calls)
                  /\ (exists xyz,
                         In (Console.plot xyz (snd (ev_between e))) calls)).
Proof.
  intros s ts st. split; intros fleet result.
  - destruct (plot_paths_2d_calls fleet result st)
      as (calls & Hrun & Hcount & Hdrawn).
    exists calls. split; [exact Hrun|]. split; [exact Hcount|].
    intros e He. unfold result, D2.check_all_paths_conflict in He.
    rewrite check_conflicts in He.
    apply In_pairwise_lengths in He. destruct He as [H1 H2].
    split.
    + destruct (dict_get_In fleet (fst (ev_between e))) as [E|Hin].
      * rewrite E in H1. simpl in H1. lia.
      * exact (Hdrawn _ _ Hin H1).
    + destruct (dict_get_In fleet (snd (ev_between e))) as [E|Hin].
      * rewrite E in H2. simpl in H2. lia.
      * exact (Hdrawn _ _ Hin H2).
  - destruct (plot_paths_3d_calls fleet result st)
      as (calls & Hrun & Hcount & Hdrawn).
    exists calls. split; [exact Hrun|]. split; [exact Hcount|].
    intros e He. unfold result, D3.check_all_paths_conflict in He.
    rewrite check_conflicts in He.
    apply In_pairwise_lengths in He. destruct He as [H1 H2].
    split.
    + destruct (dict_get_In fleet (fst (ev_between e))) as [E|Hin].
      * rewrite E in H1. simpl in H1. lia.
      * exact (Hdrawn _ _ Hin H1).
    + destruct (dict_get_In fleet (snd (ev_between e))) as [E|Hin].
      * rewrite E in H2. simpl in H2. lia.
      * exact (Hdrawn _ _ Hin H2).
Qed.

(** ** Reported numbers *)

Lemma round2_idempotent (x : R) : round2 (round2 x) = round2 x.
Proof. unfold round2 at 2 3. apply round2_hundredths. Qed.

(** X28.  Every number of a reported event (time, distance and each
    coordinate of the location) is a rounded number: rounding it again to
    2 decimals changes nothing. *)
Theorem X28_reported_numbers_are_rounded_to_two_decimals :
  forall (v : Variant) (fleet : Both.Fleet v) (safety_distance time_step : R)
         (e : ConflictEvent (Both.Point v)) (k : nat),
    In e (conflicts_of (Both.check_all_paths_conflict
                          v fleet safety_distance time_step)) ->
    round2 (ev_time e) = ev_time e
    /\ round2 (ev_distance e) = ev_distance e
    /\ round2 (nth k (coordinates v (ev_location e)) 0)
       = nth k (coordinates v (ev_location e)) 0.
Proof.
  intros v; destruct v; intros fleet s ts e k Hin; open_variant;
    rewrite check_conflicts in Hin;
    apply In_pairwise in Hin;
    destruct Hin as (d1 & d2 & t & pos1 & pos2 & _ & _ & _ & _ & _ & ->);
    cbn [ev_time ev_distance ev_location];
    (split; [apply round2_idempotent|]);
    (split; [apply round2_idempotent|]).
  - destruct pos1 as [x y]. unfold D2.round_location.
    cbn [coordinates fst snd].
    destruct k as [|[|[|k]]]; cbn [nth];
      try apply round2_idempotent; apply round2_0.
  - destruct pos1 as [[x y] z]. unfold D3.round_location.
    cbn [coordinates fst snd].
    destruct k as [|[|[|[|k]]]]; cbn [nth];
      try apply round2_idempotent; apply round2_0.
Qed.

Lemma X28_witness :
  round2 (ev_time Examples.hover_event) = ev_time Examples.hover_event
  /\ round2 (ev_distance Examples.hover_event)
     = ev_distance Examples.hover_event
  /\ round2 (nth 0 (coordinates TwoD (ev_location Examples.hover_event)) 0)
     = nth 0 (coordinates TwoD (ev_location Examples.hover_event)) 0.
Proof.
  apply (X28_reported_numbers_are_rounded_to_two_decimals
           TwoD Examples.hovering (129 / 128) 6 Examples.hover_event 0%nat).
  cbn [Both.check_all_paths_conflict Both.Point].
  rewrite hovering_report. left. reflexivity.
Defined.

(** ** A drone more in the fleet *)

Lemma filter_keeps_all {A : Type} (f : A -> bool) (l : list A) :
  (forall x, In x l -> f x = true) -> filter f l = l.
Proof.
  induction l as [|a l IH]; intros Hall; [reflexivity|].
  cbn [filter]. rewrite (Hall a (or_introl eq_refl)).
  f_equal. apply IH. intros x Hx. apply Hall. now right.
Qed.

Lemma filter_keeps_none {A : Type} (f : A -> bool) (l : list A) :
  (forall x, In x l -> f x = false) -> filter f l = [].
Proof.
  induction l as [|a l IH]; intros Hall; [reflexivity|].
  cbn [filter]. rewrite (Hall a (or_introl eq_refl)).
  apply IH. intros x Hx. apply Hall. now right.
Qed.

Section GrowthFacts.

Context {W P : Type}.
Variable stamp : W -> R.
Variable interpolate : W -> W -> R -> P.
Variable distance : P -> P -> R.
Variable round_location : P -> P.

Local Abbreviation pair_conflicts :=
  (pair_conflicts stamp interpolate distance round_location).
Local Abbreviation pairwise :=
  (pairwise stamp interpolate distance round_location).
Local Abbreviation check :=
  (check_all_paths_conflict stamp interpolate distance round_location).

(** The paths of the drones already in the fleet are found as before. *)
Lemma dict_get_app_old (fleet extra : Fleet (W := W)) name :
  In name (drone_names fleet) ->
  dict_get (fleet ++ extra) name = dict_get fleet name.
Proof.
  induction fleet as [|[k path] rest IH]; intros Hin; [destruct Hin|].
  cbn [app dict_get].
  destruct (String.eqb k name) eqn:Hk; [reflexivity|].
  apply IH. destruct Hin as [Heq|Hin]; [|exact Hin].
  cbn [fst] in Heq. subst. now rewrite String.eqb_refl in Hk.
Qed.

Lemma pair_conflicts_between e d1 d2 p1 p2 safety time_step :
  In e (pair_conflicts d1 d2 p1 p2 safety time_step) ->
  ev_between e = (d1, d2).
Proof.
  intros Hin. apply In_pair_conflicts in Hin.
  destruct Hin as (t & pos1 & pos2 & _ & _ & _ & ->). reflexivity.
Qed.

(** The events of a pair of other drones stay, those of a pair with the
    drone go. *)
Lemma filter_pair_conflicts_others name d1 d2 p1 p2 safety time_step :
  d1 <> name -> d2 <> name ->
  filter (fun e => negb (involves name e))
         (pair_conflicts d1 d2 p1 p2 safety time_step)
  = pair_conflicts d1 d2 p1 p2 safety time_step.
Proof.
  intros H1 H2. apply filter_keeps_all. intros e Hin.
  unfold involves. rewrite (pair_conflicts_between _ _ _ _ _ _ _ Hin).
  cbn [fst snd].
  apply String.eqb_neq in H1, H2. now rewrite H1, H2.
Qed.

Lemma filter_pair_conflicts_with name d1 p1 p2 safety time_step :
  filter (fun e => negb (involves name e))
         (pair_conflicts d1 name p1 p2 safety time_step)
  = [].
Proof.
  apply filter_keeps_none. intros e Hin.
  unfold involves. rewrite (pair_conflicts_between _ _ _ _ _ _ _ Hin).
  cbn [fst snd]. rewrite String.eqb_refl, orb_true_r. reflexivity.
Qed.

Lemma filter_flat_map {A B : Type} (f : B -> bool) (g : A -> list B)
      (l : list A) :
  filter f (flat_map g l) = flat_map (fun a => filter f (g a)) l.
Proof.
  induction l as [|a l IH]; [reflexivity|].
  cbn [flat_map]. now rewrite filter_app, IH.
Qed.

Lemma flat_map_agree {A B : Type} (f g : A -> list B) (l : list A) :
  (forall a, In a l -> f a = g a) -> flat_map f l = flat_map g l.
Proof.
  induction l as [|a l IH]; intros Hfg; [reflexivity|].
  cbn [flat_map]. rewrite (Hfg a (or_introl eq_refl)), IH; [reflexivity|].
  intros x Hx. apply Hfg. now right.
Qed.

Lemma pairwise_with_one_more (fleet : Fleet (W := W)) name path safety
      time_step names :
  ~ In name names -> incl names (drone_names fleet) ->
  filter (fun e => negb (involves name e))
         (pairwise (fleet ++ [(name, path)]) safety time_step
                   (names ++ [name]))
  = pairwise fleet safety time_step names.
Proof.
  induction names as [|d1 later IH]; intros Hfresh Hincl.
  - cbn [app Generic.pairwise flat_map]. reflexivity.
  - cbn [app Generic.pairwise].
    rewrite filter_app, IH;
      [|intros Hin; apply Hfresh; now right
       |intros x Hx; apply Hincl; now right].
    f_equal.
    assert (Hd1 : d1 <> name) by (intros ->; apply Hfresh; now left).
    rewrite flat_map_app, filter_app. cbn [flat_map].
    rewrite app_nil_r, filter_pair_conflicts_with, app_nil_r.
    rewrite filter_flat_map.
    apply flat_map_agree. intros d2 Hd2.
    rewrite filter_pair_conflicts_others;
      [|exact Hd1|intros ->; apply Hfresh; now right].
    rewrite !dict_get_app_old;
      [reflexivity
      |apply Hincl; now right
      |apply Hincl; now left].
Qed.

Lemma check_with_one_more (fleet : Fleet (W := W)) name path safety
      time_step :
  ~ In name (drone_names fleet) ->
  filter (fun e => negb (involves name e))
         (conflicts_of (check (Script.dict_set fleet name path) safety
                              time_step))
  = conflicts_of (check fleet safety time_step).
Proof.
  intros Hfresh.
  rewrite (dict_set_fresh fleet name path Hfresh), !check_conflicts.
  unfold drone_names at 1. rewrite map_app. cbn [map fst].
  now apply pairwise_with_one_more; [|apply incl_refl].
Qed.

End GrowthFacts.



(** * Binary64 numbers

    The operations of [PrimFloat] are specified by those of [SpecFloat] on
    sign, mantissa and exponent; the facts below are read off these
    specifications. *)

Module FloatFacts.

Import SpecFloat FloatOps FloatAxioms.
Local Open Scope Z_scope.

(** ** Order *)

Lemma Pos_compare_cont_Eq (m1 m2 : positive) :
  Pos.compare_cont Eq m1 m2 = (Zpos m1 ?= Zpos m2).
Proof. reflexivity. Qed.

Lemma SFcompare_key (x y : spec_float) :
  match SFcompare x y with
  | None => key x = None \/ key y = None
  | Some c =>
      exists a b, key x = Some a /\ key y = Some b
                  /\ match c with
                     | Lt => lex_lt a b
                     | Eq => a = b
                     | Gt => lex_lt b a
                     end
  end.
Proof.
  destruct x as [sx|sx| |sx mx ex], y as [sy|sy| |sy my ey];
    try destruct sx; try destruct sy; cbn [SFcompare key];
    try (now left); try (now right);
    try (eexists; eexists; split; [reflexivity|split; [reflexivity|]];
         first [reflexivity | unfold lex_lt; cbn [fst snd]; lia]).
  - (* both negative *)
    eexists; eexists; split; [reflexivity|split; [reflexivity|]].
    rewrite Pos_compare_cont_Eq.
    destruct (Z.compare_spec ex ey) as [He|He|He];
      [destruct (Z.compare_spec (Zpos mx) (Zpos my)) as [Hm|Hm|Hm]
      | |]; cbn [CompOpp]; unfold lex_lt; cbn [fst snd];
      first [ injection Hm as Hm; now subst | lia ].
  - eexists; eexists; split; [reflexivity|split; [reflexivity|]].
    rewrite Pos_compare_cont_Eq.
    destruct (Z.compare_spec ex ey) as [He|He|He];
      [destruct (Z.compare_spec (Zpos mx) (Zpos my)) as [Hm|Hm|Hm]
      | |]; unfold lex_lt; cbn [fst snd];
      first [ injection Hm as Hm; now subst | lia ].
Qed.

Lemma lex_lt_irrefl a : ~ lex_lt a a.
Proof. unfold lex_lt. lia. Qed.

Lemma lex_lt_asym a b : lex_lt a b -> ~ lex_lt b a.
Proof. unfold lex_lt. lia. Qed.

Lemma ltb_iff (x y : PrimFloat.float) :
  PrimFloat.ltb x y = true <-> key_lt (fkey x) (fkey y).
Proof.
  rewrite ltb_spec. unfold SFltb, fkey, key_lt.
  pose proof (SFcompare_key (Prim2SF x) (Prim2SF y)) as H.
  destruct (SFcompare (Prim2SF x) (Prim2SF y)) as [[| |]|].
  - destruct H as (a & b & -> & -> & ->).
    split; [discriminate|]. intros H. now apply lex_lt_irrefl in H.
  - destruct H as (a & b & -> & -> & H). tauto.
  - destruct H as (a & b & -> & -> & H).
    split; [discriminate|]. intros H'. now apply lex_lt_asym in H.
  - split; [discriminate|]. destruct H as [-> | ->]; [tauto|].
    now destruct (key (Prim2SF x)).
Qed.

Lemma eqb_iff (x y : PrimFloat.float) :
  PrimFloat.eqb x y = true <-> key_eq (fkey x) (fkey y).
Proof.
  rewrite eqb_spec. unfold SFeqb, fkey, key_eq.
  pose proof (SFcompare_key (Prim2SF x) (Prim2SF y)) as H.
  destruct (SFcompare (Prim2SF x) (Prim2SF y)) as [[| |]|].
  - destruct H as (a & b & -> & -> & ->). tauto.
  - destruct H as (a & b & -> & -> & H).
    split; [discriminate|]. intros ->. now apply lex_lt_irrefl in H.
  - destruct H as (a & b & -> & -> & H).
    split; [discriminate|]. intros ->. now apply lex_lt_irrefl in H.
  - split; [discriminate|]. destruct H as [-> | ->]; [tauto|].
    now destruct (key (Prim2SF x)).
Qed.

Lemma leb_iff (x y : PrimFloat.float) :
  PrimFloat.leb x y = true
  <-> key_lt (fkey x) (fkey y) \/ key_eq (fkey x) (fkey y).
Proof.
  rewrite leb_spec. unfold SFleb, fkey, key_lt, key_eq.
  pose proof (SFcompare_key (Prim2SF x) (Prim2SF y)) as H.
  destruct (SFcompare (Prim2SF x) (Prim2SF y)) as [[| |]|].
  - destruct H as (a & b & -> & -> & ->). tauto.
  - destruct H as (a & b & -> & -> & H). tauto.
  - destruct H as (a & b & -> & -> & H).
    split; [discriminate|].
    intros [H'| ->]; [now apply lex_lt_asym in H | now apply lex_lt_irrefl in H].
  - split; [discriminate|]. destruct H as [-> | ->]; [tauto|].
    destruct (key (Prim2SF x)); tauto.
Qed.

(** Comparisons of floats, settled on the keys. *)
Ltac float_order :=
  repeat match goal with
         | H : PrimFloat.ltb _ _ = false |- _ =>
             apply Bool.not_true_iff_false in H
         | H : PrimFloat.leb _ _ = false |- _ =>
             apply Bool.not_true_iff_false in H
         | H : PrimFloat.eqb _ _ = false |- _ =>
             apply Bool.not_true_iff_false in H
         | |- PrimFloat.ltb _ _ = false => apply Bool.not_true_iff_false
         | |- PrimFloat.leb _ _ = false => apply Bool.not_true_iff_false
         | |- PrimFloat.eqb _ _ = false => apply Bool.not_true_iff_false
         end;
  rewrite ?ltb_iff, ?leb_iff, ?eqb_iff in *;
  repeat match goal with
         | H : context [fkey ?x] |- _ =>
             let a := fresh "a" in
             let b := fresh "b" in
             let c := fresh "c" in
             destruct (fkey x) as [[[a b] c]|]
         | |- context [fkey ?x] =>
             let a := fresh "a" in
             let b := fresh "b" in
             let c := fresh "c" in
             destruct (fkey x) as [[[a b] c]|]
         end;
  unfold key_lt, key_eq, lex_lt in *; cbn [fst snd] in *;
  rewrite ?pair_equal_spec in *;
  intuition (try discriminate; try lia).

Lemma leb_refl_l (x y : PrimFloat.float) :
  PrimFloat.leb x y = true -> PrimFloat.leb x x = true.
Proof. intros H. float_order. Qed.

Lemma leb_refl_r (x y : PrimFloat.float) :
  PrimFloat.leb x y = true -> PrimFloat.leb y y = true.
Proof. intros H. float_order. Qed.

Lemma leb_trans (x y z : PrimFloat.float) :
  PrimFloat.leb x y = true -> PrimFloat.leb y z = true ->
  PrimFloat.leb x z = true.
Proof. intros H1 H2. float_order. Qed.

Lemma ltb_leb_trans (x y z : PrimFloat.float) :
  PrimFloat.ltb x y = true -> PrimFloat.leb y z = true ->
  PrimFloat.ltb x z = true.
Proof. intros H1 H2. float_order. Qed.

Lemma leb_ltb_trans (x y z : PrimFloat.float) :
  PrimFloat.leb x y = true -> PrimFloat.ltb y z = true ->
  PrimFloat.ltb x z = true.
Proof. intros H1 H2. float_order. Qed.

Lemma ltb_leb (x y : PrimFloat.float) :
  PrimFloat.ltb x y = true -> PrimFloat.leb x y = true.
Proof. intros H. float_order. Qed.

Lemma ltb_not_leb (x y : PrimFloat.float) :
  PrimFloat.ltb x y = true -> PrimFloat.leb y x = false.
Proof. intros H. float_order. Qed.

Lemma ltb_not_eqb (x y : PrimFloat.float) :
  PrimFloat.ltb x y = true ->
  PrimFloat.eqb x y = false /\ PrimFloat.eqb y x = false.
Proof. intros H. split; float_order. Qed.

Lemma leb_cases (x y : PrimFloat.float) :
  PrimFloat.leb x y = true ->
  PrimFloat.ltb x y = true \/ PrimFloat.eqb x y = true.
Proof. intros H. float_order. Qed.

Lemma eqb_leb (x y : PrimFloat.float) :
  PrimFloat.eqb x y = true ->
  PrimFloat.leb x y = true /\ PrimFloat.leb y x = true.
Proof. intros H. split; float_order. Qed.

Lemma eqb_sym (x y : PrimFloat.float) :
  PrimFloat.eqb x y = true -> PrimFloat.eqb y x = true.
Proof. intros H. float_order. Qed.

Lemma ltb_eqb_trans (x y z : PrimFloat.float) :
  PrimFloat.ltb x y = true -> PrimFloat.eqb y z = true ->
  PrimFloat.ltb x z = true.
Proof. intros H1 H2. float_order. Qed.

Lemma leb_eqb_trans (x y z : PrimFloat.float) :
  PrimFloat.leb x y = true -> PrimFloat.eqb y z = true ->
  PrimFloat.leb x z = true.
Proof. intros H1 H2. float_order. Qed.

Lemma eqb_trans (x y z : PrimFloat.float) :
  PrimFloat.eqb x y = true -> PrimFloat.eqb y z = true ->
  PrimFloat.eqb x z = true.
Proof. intros H1 H2. float_order. Qed.

End FloatFacts.

Module FloatArith.

Import SpecFloat FloatOps FloatAxioms.
Local Open Scope Z_scope.

(** ** Mantissas *)

Lemma Pos_compare_cont_Eq_refl (m : positive) : Pos.compare_cont Eq m m = Eq.
Proof. exact (Pos.compare_refl m). Qed.

Lemma digits2_pos_size (p : positive) : digits2_pos p = Pos.size p.
Proof. induction p; simpl; congruence. Qed.

Lemma digits2_pos_bounds (m : positive) :
  2 ^ (Zpos (digits2_pos m) - 1) <= Zpos m < 2 ^ Zpos (digits2_pos m).
Proof.
  rewrite digits2_pos_size. split.
  - pose proof (Pos.size_le m) as H.
    apply Pos2Z.pos_le_pos in H. rewrite Pos2Z.inj_pow in H.
    assert (Hpow : 2 ^ Zpos (Pos.size m) = 2 * 2 ^ (Zpos (Pos.size m) - 1))
      by (rewrite <- Z.pow_succ_r by lia; f_equal; lia).
    lia.
  - pose proof (Pos.size_gt m) as H.
    apply Pos2Z.pos_lt_pos in H. now rewrite Pos2Z.inj_pow in H.
Qed.

Lemma iter_xO (m d : positive) :
  Zpos (Pos.iter xO m d) = Zpos m * 2 ^ Zpos d.
Proof.
  induction d as [|d IH] using Pos.peano_ind.
  - cbn [Pos.iter]. lia.
  - rewrite Pos.iter_succ, Pos2Z.inj_xO, IH, Pos2Z.inj_succ, Z.pow_succ_r
      by lia. lia.
Qed.

Lemma shl_align_value (m : positive) (e e' : Z) :
  e' <= e ->
  Zpos (fst (shl_align m e e')) = Zpos m * 2 ^ (e - e').
Proof.
  intros Hle. unfold shl_align.
  destruct (e' - e) as [|d|d] eqn:Hd.
  - replace (e - e') with 0 by lia. cbn [fst]. lia.
  - lia.
  - cbn [fst]. rewrite iter_xO. f_equal. f_equal. lia.
Qed.

Lemma shl_align_exponent (m : positive) (e e' : Z) :
  snd (shl_align m e e') = Z.min e e'.
Proof.
  unfold shl_align. destruct (e' - e) as [|d|d] eqn:Hd; cbn [snd]; lia.
Qed.

(** ** Shifting to the right *)

Lemma shr_1_m (mrs : shr_record) :
  0 <= shr_m mrs -> shr_m (shr_1 mrs) = shr_m mrs / 2.
Proof.
  destruct mrs as [m r s]. cbn [shr_m]. intros Hm.
  destruct m as [|[p|p|]|p]; cbn [shr_1 shr_m]; try lia;
    first [ reflexivity
          | apply (Z.div_unique _ 2 _ 1); lia
          | apply (Z.div_unique _ 2 _ 0); lia ].
Qed.

Lemma iter_pos_shr_1_m (p : positive) (mrs : shr_record) :
  0 <= shr_m mrs ->
  shr_m (iter_pos shr_1 p mrs) = shr_m mrs / 2 ^ Zpos p.
Proof.
  revert mrs. induction p as [p IH|p IH|]; intros mrs Hm; cbn [iter_pos].
  - assert (H1 : 0 <= shr_m (shr_1 mrs))
      by (rewrite shr_1_m by exact Hm; apply Z.div_pos; lia).
    assert (H2 : 0 <= shr_m (iter_pos shr_1 p (shr_1 mrs)))
      by (rewrite IH by exact H1; apply Z.div_pos; lia).
    rewrite IH, IH, shr_1_m by assumption.
    rewrite !Z.div_div by lia. f_equal.
    replace (Zpos p~1) with (1 + Zpos p + Zpos p) by lia.
    rewrite !Z.pow_add_r by lia. ring.
  - assert (H1 : 0 <= shr_m (iter_pos shr_1 p mrs))
      by (rewrite IH by exact Hm; apply Z.div_pos; lia).
    rewrite IH, IH by assumption.
    rewrite !Z.div_div by lia. f_equal.
    replace (Zpos p~0) with (Zpos p + Zpos p) by lia.
    rewrite !Z.pow_add_r by lia. ring.
  - rewrite shr_1_m by exact Hm. reflexivity.
Qed.

Lemma shr_record_of_loc_m (m : Z) (l : location) :
  shr_m (shr_record_of_loc m l) = m.
Proof. destruct l as [|[| |]]; reflexivity. Qed.

(** A positive mantissa stays positive when it is shifted to its place,
    as long as the exponent is not below the least one. *)
Lemma shr_fexp_positive (m : positive) (e : Z) (l : location) :
  emin <= e ->
  0 < shr_m (fst (shr_fexp prec emax (Zpos m) e l))
  /\ emin <= snd (shr_fexp prec emax (Zpos m) e l).
Proof.
  intros He. unfold shr_fexp, shr. cbn [Zdigits2].
  pose proof (digits2_pos_bounds m) as [Hlow _].
  set (d := Zpos (digits2_pos m)) in *.
  destruct (fexp prec emax (d + e) - e) as [|n|n] eqn:Hn; cbn [fst snd].
  - rewrite shr_record_of_loc_m. lia.
  - rewrite iter_pos_shr_1_m by (rewrite shr_record_of_loc_m; lia).
    rewrite shr_record_of_loc_m.
    unfold fexp, SpecFloat.emin, prec, emax in *.
    split; [|lia].
    apply Z.div_str_pos. split; [lia|].
    apply Z.le_trans with (2 ^ (d - 1)); [|exact Hlow].
    apply Z.pow_le_mono_r; lia.
  - rewrite shr_record_of_loc_m. lia.
Qed.

Lemma round_nearest_even_positive (m : Z) (l : location) :
  0 < m -> 0 < round_nearest_even m l.
Proof.
  intros Hm. destruct l as [|[| |]]; cbn [round_nearest_even];
    try destruct (Z.even m); lia.
Qed.

Lemma binary_round_aux_nonzero (s : bool) (m : positive) (e : Z)
      (l : location) :
  emin <= e -> nonzero_number (binary_round_aux prec emax s (Zpos m) e l).
Proof.
  intros He. unfold binary_round_aux.
  pose proof (shr_fexp_positive m e l He) as [Hm1 He1].
  destruct (shr_fexp prec emax (Zpos m) e l) as [mrs' e'].
  cbn [fst snd] in *.
  pose proof (round_nearest_even_positive
                (shr_m mrs') (loc_of_shr_record mrs') Hm1) as Hm2.
  destruct (round_nearest_even (shr_m mrs') (loc_of_shr_record mrs'))
    as [|m2|m2]; try lia.
  pose proof (shr_fexp_positive m2 e' loc_Exact He1) as [Hm3 _].
  destruct (shr_fexp prec emax (Zpos m2) e' loc_Exact) as [mrs'' e''].
  cbn [fst snd] in *.
  destruct (shr_m mrs'') as [|m3|m3]; try lia.
  now destruct (e'' <=? emax - prec).
Qed.

Lemma binary_normalize_nonzero (z e : Z) (szero : bool) :
  z <> 0 -> emin <= e ->
  nonzero_number (binary_normalize prec emax z e szero).
Proof.
  intros Hz He.
  assert (Hround : forall s m,
             nonzero_number (binary_round prec emax s m e)).
  { intros s m. unfold binary_round.
    pose proof (shl_align_exponent
                  m e (fexp prec emax (Zpos (digits2_pos m) + e))) as Hez.
    destruct (shl_align m e (fexp prec emax (Zpos (digits2_pos m) + e)))
      as [mz ez].
    cbn [snd] in Hez. apply binary_round_aux_nonzero.
    unfold fexp, SpecFloat.emin, prec, emax in *. lia. }
  destruct z as [|m|m]; [contradiction| |]; apply Hround.
Qed.

(** ** Valid numbers *)

Lemma valid_finite (s : bool) (m : positive) (e : Z) :
  valid_binary (S754_finite s m e) = true ->
  fexp prec emax (Zpos (digits2_pos m) + e) = e
  /\ e <= emax - prec /\ emin <= e.
Proof.
  cbn [SpecFloat.valid_binary]. unfold bounded, canonical_mantissa.
  rewrite Bool.andb_true_iff, Z.eqb_eq, Z.leb_le. intros [Hc Hb].
  split; [exact Hc|]. split; [exact Hb|].
  unfold fexp, SpecFloat.emin, prec, emax in *. lia.
Qed.

(** Two valid numbers with the same value have the same mantissa and
    exponent. *)
Lemma same_value (mx my : positive) (ex ey ez : Z) :
  fexp prec emax (Zpos (digits2_pos mx) + ex) = ex ->
  fexp prec emax (Zpos (digits2_pos my) + ey) = ey ->
  ez <= ex -> ez <= ey ->
  Zpos mx * 2 ^ (ex - ez) = Zpos my * 2 ^ (ey - ez) ->
  ex = ey /\ mx = my.
Proof.
  intros Hcx Hcy Hx Hy Hv.
  pose proof (digits2_pos_bounds mx) as [Hx1 Hx2].
  pose proof (digits2_pos_bounds my) as [Hy1 Hy2].
  set (dx := Zpos (digits2_pos mx)) in *.
  set (dy := Zpos (digits2_pos my)) in *.
  assert (Hdx : 1 <= dx) by (unfold dx; lia).
  assert (Hdy : 1 <= dy) by (unfold dy; lia).
  assert (Hpx : 0 < 2 ^ (ex - ez)) by (apply Z.pow_pos_nonneg; lia).
  assert (Hpy : 0 < 2 ^ (ey - ez)) by (apply Z.pow_pos_nonneg; lia).
  assert (H1 : 2 ^ (dx - 1 + (ex - ez)) < 2 ^ (dy + (ey - ez))).
  { rewrite !Z.pow_add_r by lia. nia. }
  assert (H2 : 2 ^ (dy - 1 + (ey - ez)) < 2 ^ (dx + (ex - ez))).
  { rewrite !Z.pow_add_r by lia. nia. }
  apply Z.pow_lt_mono_r_iff in H1; [|lia|lia].
  apply Z.pow_lt_mono_r_iff in H2; [|lia|lia].
  assert (Hsum : dx + ex = dy + ey) by lia.
  assert (He : ex = ey) by (rewrite <- Hcx, <- Hcy, Hsum; reflexivity).
  split; [exact He|]. subst ey.
  apply Z.mul_cancel_r in Hv; [|lia]. now injection Hv.
Qed.

Lemma SFltb_irrefl (x : spec_float) : SFltb x x = false.
Proof.
  destruct x as [s|s| |s m e]; try destruct s; cbn; try reflexivity;
    rewrite Z.compare_refl, Pos_compare_cont_Eq_refl; reflexivity.
Qed.

(** ** The difference of two numbers in strict order *)

Lemma SFsub_of_smaller (x y : spec_float) :
  valid_binary x = true -> valid_binary y = true ->
  SFltb x y = true ->
  nonzero_number (SFsub prec emax y x).
Proof.
  intros Vx Vy Hlt.
  destruct x as [sx|sx| |sx mx ex], y as [sy|sy| |sy my ey];
    try destruct sx; try destruct sy;
    try discriminate Hlt; try exact I.
  all: apply valid_finite in Vx; destruct Vx as (Hcx & _ & Hex).
  all: apply valid_finite in Vy; destruct Vy as (Hcy & _ & Hey).
  all: unfold SFsub; apply binary_normalize_nonzero; [|lia].
  all: intros Hz.
  all: pose proof (shl_align_value my ey (Z.min ey ex) ltac:(lia)) as Hmy.
  all: pose proof (shl_align_value mx ex (Z.min ey ex) ltac:(lia)) as Hmx.
  all: cbn [cond_Zopp] in Hz.
  all: try lia.
  all: assert (Hv : Zpos mx * 2 ^ (ex - Z.min ey ex)
                    = Zpos my * 2 ^ (ey - Z.min ey ex)) by lia.
  all: apply same_value in Hv; [|assumption|assumption|lia|lia].
  all: destruct Hv as [-> ->].
  all: now rewrite SFltb_irrefl in Hlt.
Qed.

End FloatArith.

Module FloatOpsFacts.

Import SpecFloat FloatOps FloatAxioms FloatArith.
Export FloatFacts.
Local Open Scope Z_scope.

(** ** What a float is *)

Lemma Prim2SF_zero : Prim2SF PrimFloat.zero = S754_zero false.
Proof. reflexivity. Qed.

Lemma Prim2SF_one :
  Prim2SF PrimFloat.one = S754_finite false 4503599627370496 (-52).
Proof. reflexivity. Qed.

Lemma Prim2SF_infinity : Prim2SF PrimFloat.infinity = S754_infinity false.
Proof. reflexivity. Qed.

Lemma is_finite_iff (x : PrimFloat.float) :
  PrimFloat.is_finite x = true <-> finite_number (Prim2SF x).
Proof.
  unfold PrimFloat.is_finite, PrimFloat.is_nan, PrimFloat.is_infinity.
  rewrite !eqb_spec, abs_spec, Prim2SF_infinity.
  destruct (Prim2SF x) as [s|s| |s m e]; try destruct s; cbn;
    try tauto; try (split; [discriminate|tauto]).
  all: rewrite Z.compare_refl, Pos_compare_cont_Eq_refl; cbn; tauto.
Qed.

Lemma not_nan_iff (x : PrimFloat.float) :
  PrimFloat.eqb x x = true <-> Prim2SF x <> S754_nan.
Proof.
  rewrite eqb_spec.
  destruct (Prim2SF x) as [s|s| |s m e]; try destruct s; cbn;
    try (split; [discriminate|tauto]); try (split; [congruence|reflexivity]).
  all: rewrite Z.compare_refl, Pos_compare_cont_Eq_refl; cbn;
    split; [discriminate|reflexivity].
Qed.

Lemma finite_not_nan (x : PrimFloat.float) :
  PrimFloat.is_finite x = true -> PrimFloat.eqb x x = true.
Proof.
  rewrite is_finite_iff, not_nan_iff. now destruct (Prim2SF x).
Qed.

(** ** Subtraction *)

(** The difference of two numbers in strict order is not zero (and not
    [nan]): what is too small for a normal number is a subnormal one. *)
Lemma sub_of_smaller (x y : PrimFloat.float) :
  PrimFloat.ltb x y = true -> nonzero_number (Prim2SF (PrimFloat.sub y x)).
Proof.
  intros Hlt. rewrite sub_spec.
  apply SFsub_of_smaller; try apply Prim2SF_valid.
  now rewrite <- ltb_spec.
Qed.

Lemma nonzero_eqb_zero (d : PrimFloat.float) :
  nonzero_number (Prim2SF d) -> PrimFloat.eqb d 0 = false.
Proof.
  rewrite eqb_spec. change (Prim2SF 0) with (S754_zero false).
  destruct (Prim2SF d) as [s|s| |s m e]; try destruct s; cbn; tauto.
Qed.

(** Two floats that compare equal are the same float, or two zeros. *)
Lemma eqb_cases (x y : PrimFloat.float) :
  PrimFloat.eqb x y = true ->
  x = y \/ (is_zero_number (Prim2SF x) /\ is_zero_number (Prim2SF y)).
Proof.
  rewrite eqb_spec. intros H.
  destruct (Prim2SF x) as [sx|sx| |sx mx ex] eqn:Hx,
           (Prim2SF y) as [sy|sy| |sy my ey] eqn:Hy;
    try destruct sx; try destruct sy; try discriminate H;
    try (right; split; exact I);
    left; apply Prim2SF_inj; rewrite Hx, Hy; try reflexivity.
  all: unfold SFeqb, SFcompare in H.
  all: destruct (Z.compare_spec ex ey) as [He|He|He]; try discriminate H.
  all: rewrite Pos_compare_cont_Eq in H.
  all: destruct (Z.compare_spec (Zpos mx) (Zpos my)) as [Hm|Hm|Hm];
    try discriminate H.
  all: injection Hm as Hm; now subst.
Qed.

(** The same difference from a smaller number, for floats that compare
    equal. *)
Lemma sub_eqb (a t t' : PrimFloat.float) :
  PrimFloat.eqb t t' = true -> PrimFloat.ltb a t = true ->
  PrimFloat.sub t a = PrimFloat.sub t' a.
Proof.
  intros Heq Hlt. destruct (eqb_cases _ _ Heq) as [->|[Hz Hz']];
    [reflexivity|].
  apply Prim2SF_inj. rewrite !sub_spec.
  rewrite ltb_spec in Hlt.
  destruct (Prim2SF t) as [st| | |]; try contradiction.
  destruct (Prim2SF t') as [st'| | |]; try contradiction.
  destruct (Prim2SF a) as [sa|sa| |sa ma ea]; try destruct sa;
    try discriminate Hlt; try destruct st; try discriminate Hlt;
    reflexivity.
Qed.

(** A number minus a float that compares equal to it is a zero. *)
Lemma sub_same (a t : PrimFloat.float) :
  PrimFloat.eqb a t = true -> PrimFloat.is_finite a = true ->
  is_zero_number (Prim2SF (PrimFloat.sub t a)).
Proof.
  intros Heq Hfin. apply is_finite_iff in Hfin.
  rewrite sub_spec.
  destruct (eqb_cases _ _ Heq) as [<-|[Hz Hz']].
  - destruct (Prim2SF a) as [s|s| |s m e]; try contradiction.
    + now destruct s.
    + unfold SF64sub, SFsub. rewrite Z.sub_diag. exact I.
  - destruct (Prim2SF a) as [sa| | |]; try contradiction.
    destruct (Prim2SF t) as [st| | |]; try contradiction.
    now destruct sa, st.
Qed.

(** ** Division *)

(** A finite number other than zero divided by itself is [1]. *)
Lemma div_self (d : PrimFloat.float) :
  nonzero_number (Prim2SF d) -> PrimFloat.is_finite d = true ->
  PrimFloat.div d d = 1%float.
Proof.
  intros Hnz Hfin. apply is_finite_iff in Hfin.
  apply Prim2SF_inj. rewrite div_spec.
  destruct (Prim2SF d) as [s|s| |s m e]; try contradiction.
  change (Prim2SF 1) with (S754_finite false 4503599627370496 (-52)).
  unfold SF64div, SFdiv, SFdiv_core_binary.
  rewrite !Z.sub_diag.
  change (Z.min (fexp prec emax 0) 0) with (-53).
  change (0 - -53) with 53.
  cbv beta iota zeta.
  assert (Hdiv : Z.div_eucl (Z.shiftl (Zpos m) 53) (Zpos m)
                 = (9007199254740992, 0)).
  { rewrite Z.shiftl_mul_pow2 by lia.
    pose proof (Z.div_eucl_eq (Zpos m * 2 ^ 53) (Zpos m) ltac:(lia)) as Heq.
    pose proof (Z.mod_pos_bound (Zpos m * 2 ^ 53) (Zpos m) ltac:(lia))
      as Hmod.
    unfold Z.modulo in Hmod.
    destruct (Z.div_eucl (Zpos m * 2 ^ 53) (Zpos m)) as [q r].
    assert (Hr : r = 0).
    { assert (Hdivides : (Zpos m | r)).
      { exists (2 ^ 53 - q). lia. }
      destruct Hdivides as [k Hk]. subst r.
      assert (k = 0) by nia. lia. }
    subst r. f_equal. change (2 ^ 53) with 9007199254740992 in Heq. nia. }
  rewrite Hdiv.
  replace (new_location (Zpos m) 0) with loc_Exact
    by (unfold new_location; destruct (Z.even (Zpos m)); reflexivity).
  now destruct s.
Qed.

(** A zero divided by a number other than zero is a zero. *)
Lemma div_zero_l (z d : PrimFloat.float) :
  is_zero_number (Prim2SF z) -> nonzero_number (Prim2SF d) ->
  is_zero_number (Prim2SF (PrimFloat.div z d)).
Proof.
  rewrite div_spec.
  destruct (Prim2SF z) as [sz| | |]; try contradiction.
  destruct (Prim2SF d) as [s|s| |s m e]; try contradiction; intros _ _;
    exact I.
Qed.

(** ** Multiplication *)

(** [1.0 * y] is [y]. *)
Lemma mul_one_l (y : PrimFloat.float) : PrimFloat.mul 1 y = y.
Proof.
  apply Prim2SF_inj. rewrite mul_spec.
  change (Prim2SF 1) with (S754_finite false 4503599627370496 (-52)).
  pose proof (Prim2SF_valid y) as Vy.
  destruct (Prim2SF y) as [s|s| |s m e]; try reflexivity.
  apply valid_finite in Vy. destruct Vy as (Hc & Hmax & Hmin).
  unfold SF64mul, SFmul. cbn [xorb].
  unfold binary_round_aux, shr_fexp.
  cbn [Pos.mul Zdigits2 digits2_pos].
  match goal with
  | |- context [fexp prec emax (?d + ?x) - ?x] =>
      replace (fexp prec emax (d + x) - x) with 52
  end.
  2:{ replace (Zpos _ + (-52 + e)) with (Zpos (digits2_pos m) + e) by lia.
      rewrite Hc. lia. }
  cbn [shr shr_record_of_loc iter_pos shr_1 shr_m fst snd
           loc_of_shr_record round_nearest_even orb].
  cbn [Zdigits2].
  replace (-52 + e + 52) with e by lia.
  rewrite Hc, Z.sub_diag. cbn [shr shr_record_of_loc shr_m].
  apply Z.leb_le in Hmax. now rewrite Hmax.
Qed.

(** A zero times a finite number is a zero. *)
Lemma mul_zero_l (z y : PrimFloat.float) :
  is_zero_number (Prim2SF z) -> PrimFloat.is_finite y = true ->
  is_zero_number (Prim2SF (PrimFloat.mul z y)).
Proof.
  rewrite is_finite_iff, mul_spec.
  destruct (Prim2SF z) as [sz| | |]; try contradiction.
  destruct (Prim2SF y) as [s|s| |s m e]; try contradiction; intros _ _;
    exact I.
Qed.

(** ** Addition *)

(** A number plus a zero compares equal to the number. *)
Lemma add_zero_r (x z : PrimFloat.float) :
  is_zero_number (Prim2SF z) -> PrimFloat.eqb x x = true ->
  PrimFloat.eqb (PrimFloat.add x z) x = true.
Proof.
  intros Hz Hx. rewrite eqb_spec in *. rewrite add_spec.
  destruct (Prim2SF z) as [sz| | |]; try contradiction.
  destruct (Prim2SF x) as [s|s| |s m e]; try discriminate Hx;
    try exact Hx.
  now destruct s, sz.
Qed.

(** The operands of a finite difference are finite. *)
Lemma sub_finite (x y : PrimFloat.float) :
  PrimFloat.is_finite (PrimFloat.sub y x) = true ->
  PrimFloat.is_finite x = true /\ PrimFloat.is_finite y = true.
Proof.
  rewrite !is_finite_iff, sub_spec.
  destruct (Prim2SF x) as [sx|sx| |sx mx ex],
           (Prim2SF y) as [sy|sy| |sy my ey];
    try destruct sx; try destruct sy; cbn; tauto.
Qed.

End FloatOpsFacts.

Module FloatSigns.

Import SpecFloat FloatOps FloatAxioms FloatArith FloatOpsFacts.
Local Open Scope Z_scope.

(** ** Signs *)

(** The sign of a rounded number is the sign given. *)
Lemma binary_round_aux_opp (s : bool) (m e : Z) (l : location) :
  binary_round_aux prec emax (negb s) m e l
  = SFopp (binary_round_aux prec emax s m e l).
Proof.
  unfold binary_round_aux.
  destruct (shr_fexp prec emax m e l) as [mrs' e'].
  destruct (shr_fexp prec emax
              (round_nearest_even (shr_m mrs') (loc_of_shr_record mrs'))
              e' loc_Exact) as [mrs'' e''].
  destruct (shr_m mrs'') as [|p|p]; try reflexivity.
  now destruct (e'' <=? emax - prec).
Qed.

Lemma binary_normalize_opp (z e : Z) :
  z <> 0 ->
  binary_normalize prec emax (- z) e false
  = SFopp (binary_normalize prec emax z e false).
Proof.
  intros Hz. destruct z as [|m|m]; [contradiction| |];
    cbn [Z.opp binary_normalize]; unfold binary_round;
    destruct (shl_align m e (fexp prec emax (Zpos (digits2_pos m) + e)))
      as [mz ez].
  - exact (binary_round_aux_opp false (Zpos mz) ez loc_Exact).
  - exact (binary_round_aux_opp true (Zpos mz) ez loc_Exact).
Qed.

Lemma binary_round_aux_not_negative (m e : Z) (l : location) :
  not_negative (binary_round_aux prec emax false m e l).
Proof.
  unfold binary_round_aux.
  destruct (shr_fexp prec emax m e l) as [mrs' e'].
  destruct (shr_fexp prec emax
              (round_nearest_even (shr_m mrs') (loc_of_shr_record mrs'))
              e' loc_Exact) as [mrs'' e''].
  destruct (shr_m mrs'') as [|p|p]; try exact I.
  now destruct (e'' <=? emax - prec).
Qed.

(** The two differences of two numbers are opposite, or both are zeros
    (or both [nan]). *)
Lemma SFsub_swap (x y : spec_float) :
  SFsub prec emax y x = SFopp (SFsub prec emax x y)
  \/ (is_zero_number (SFsub prec emax x y)
      /\ is_zero_number (SFsub prec emax y x)).
Proof.
  destruct x as [sx|sx| |sx mx ex], y as [sy|sy| |sy my ey];
    try destruct sx; try destruct sy; cbn [SFsub SFopp negb];
    try (left; reflexivity); try (right; split; exact I).
  all: rewrite (Z.min_comm ey ex).
  all: match goal with
       | |- binary_normalize _ _ ?a _ _ = SFopp (binary_normalize _ _ ?b _ _)
            \/ _ =>
           destruct (Z.eq_dec b 0) as [Hz|Hz];
           [ right; replace a with 0 by lia; rewrite Hz; split; exact I
           | left; replace a with (- b) by lia;
             now apply binary_normalize_opp ]
       end.
Qed.

(** The square of a number and of its opposite. *)
Lemma SFmul_opp (a : spec_float) :
  SFmul prec emax (SFopp a) (SFopp a) = SFmul prec emax a a.
Proof.
  destruct a as [s|s| |s m e]; try destruct s; reflexivity.
Qed.

Lemma SFmul_zero (a b : spec_float) :
  is_zero_number a -> is_zero_number b ->
  SFmul prec emax a a = SFmul prec emax b b.
Proof.
  destruct a as [sa| | |]; try contradiction.
  destruct b as [sb| | |]; try contradiction.
  now destruct sa, sb.
Qed.

Lemma finite_number_opp (a : spec_float) :
  finite_number (SFopp a) <-> finite_number a.
Proof. destruct a; cbn; tauto. Qed.

(** The square of a number is not negative. *)
Lemma SFmul_self_not_negative (a : spec_float) :
  not_negative (SFmul prec emax a a).
Proof.
  destruct a as [s|s| |s m e]; try destruct s; cbn [SFmul xorb];
    try exact I; apply binary_round_aux_not_negative.
Qed.

(** The sum of two numbers that are not negative is not negative. *)
Lemma SFadd_not_negative (a b : spec_float) :
  not_negative a -> not_negative b -> not_negative (SFadd prec emax a b).
Proof.
  destruct a as [sa|sa| |sa ma ea], b as [sb|sb| |sb mb eb];
    try destruct sa; try destruct sb; cbn [SFadd not_negative];
    try tauto.
  intros _ _. cbn [cond_Zopp].
  match goal with
  | |- not_negative (binary_normalize _ _ ?z _ _) =>
      assert (Hz : 0 < z) by lia; destruct z as [|p|p]; try lia
  end.
  cbn [binary_normalize]. unfold binary_round.
  destruct (shl_align p (Z.min ea eb)
              (fexp prec emax (Zpos (digits2_pos p) + Z.min ea eb)))
    as [mz ez].
  apply binary_round_aux_not_negative.
Qed.

(** The square root is not negative. *)
Lemma SFsqrt_not_negative (a : spec_float) :
  not_negative (SFsqrt prec emax a).
Proof.
  destruct a as [s|s| |s m e]; try destruct s; cbn [SFsqrt];
    try exact I.
  destruct (SFsqrt_core_binary prec emax (Zpos m) e) as [[mz ez] lz].
  apply binary_round_aux_not_negative.
Qed.

Lemma not_negative_ltb_zero (x : PrimFloat.float) :
  not_negative (Prim2SF x) -> PrimFloat.ltb x 0 = false.
Proof.
  rewrite ltb_spec. change (Prim2SF 0) with (S754_zero false).
  destruct (Prim2SF x) as [s|s| |s m e]; try destruct s; cbn; tauto.
Qed.

(** ** Squares and distances *)

Lemma sub_swap_square (x y : PrimFloat.float) :
  PrimFloat.mul (PrimFloat.sub y x) (PrimFloat.sub y x)
  = PrimFloat.mul (PrimFloat.sub x y) (PrimFloat.sub x y)
  /\ PrimFloat.is_finite (PrimFloat.sub y x)
     = PrimFloat.is_finite (PrimFloat.sub x y).
Proof.
  assert (Hfin : forall a b,
             finite_number (Prim2SF a) <-> finite_number (Prim2SF b) ->
             PrimFloat.is_finite a = PrimFloat.is_finite b).
  { intros a b H. rewrite <- !is_finite_iff in H.
    destruct (PrimFloat.is_finite a), (PrimFloat.is_finite b);
      intuition congruence. }
  destruct (SFsub_swap (Prim2SF x) (Prim2SF y)) as [Hopp|[Hz Hz']].
  - split.
    + apply Prim2SF_inj. rewrite !mul_spec, !sub_spec.
      unfold SF64sub, SF64mul. rewrite Hopp. apply SFmul_opp.
    + apply Hfin. rewrite !sub_spec. unfold SF64sub. rewrite Hopp.
      apply finite_number_opp.
  - split.
    + apply Prim2SF_inj. rewrite !mul_spec, !sub_spec.
      now apply SFmul_zero.
    + apply Hfin. rewrite !sub_spec. unfold SF64sub.
      destruct (SFsub prec emax (Prim2SF x) (Prim2SF y)); try contradiction.
      destruct (SFsub prec emax (Prim2SF y) (Prim2SF x)); try contradiction.
      cbn. tauto.
Qed.

Lemma square_swap (x y : PrimFloat.float) :
  B64.square (PrimFloat.sub y x) = B64.square (PrimFloat.sub x y).
Proof.
  unfold B64.square. destruct (sub_swap_square x y) as [-> ->]. reflexivity.
Qed.

Lemma square_not_negative (x y : PrimFloat.float) :
  B64.square x = B64.Returns y -> not_negative (Prim2SF y).
Proof.
  unfold B64.square.
  destruct (PrimFloat.is_finite x && PrimFloat.is_infinity (PrimFloat.mul x x));
    intros H; [discriminate H|]. injection H as <-.
  rewrite mul_spec. apply SFmul_self_not_negative.
Qed.

Lemma math_sqrt_not_negative (x y : PrimFloat.float) :
  B64.math_sqrt x = B64.Returns y -> PrimFloat.ltb y 0 = false.
Proof.
  unfold B64.math_sqrt. destruct (PrimFloat.ltb x 0); intros H;
    [discriminate H|]. injection H as <-.
  apply not_negative_ltb_zero. rewrite sqrt_spec.
  apply SFsqrt_not_negative.
Qed.

(** The sum of squares is never below zero: [math.sqrt] does not raise. *)
Lemma math_sqrt_sum (x : PrimFloat.float) :
  not_negative (Prim2SF x) ->
  B64.math_sqrt x = B64.Returns (PrimFloat.sqrt x).
Proof.
  intros H. unfold B64.math_sqrt.
  now rewrite (not_negative_ltb_zero x H).
Qed.

Lemma add_not_negative (x y : PrimFloat.float) :
  not_negative (Prim2SF x) -> not_negative (Prim2SF y) ->
  not_negative (Prim2SF (PrimFloat.add x y)).
Proof. rewrite add_spec. apply SFadd_not_negative. Qed.

End FloatSigns.

(** * The binary64 detector *)

(** ** Runs *)

Lemma bind_returns {A B : Type} (m : B64.Run A) (k : A -> B64.Run B) (b : B) :
  B64.bind m k = B64.Returns b ->
  exists a, m = B64.Returns a /\ k a = B64.Returns b.
Proof.
  destruct m as [a| |]; cbn [B64.bind]; intros H; try discriminate H.
  now exists a.
Qed.

Lemma collect_returns {A B : Type} (f : A -> B64.Run (list B)) (l : list A)
      (evs : list B) :
  B64.collect f l = B64.Returns evs ->
  evs = flat_map (fun a => events_of (f a)) l.
Proof.
  revert evs. induction l as [|a l IH]; intros evs H; cbn [B64.collect] in H.
  - now injection H as <-.
  - apply bind_returns in H. destruct H as (here & Hhere & H).
    apply bind_returns in H. destruct H as (later & Hlater & H).
    injection H as <-. cbn [flat_map]. rewrite Hhere. cbn [events_of].
    f_equal. now apply IH.
Qed.

(** ** Counting *)

Lemma length_flat_map_filter {A B : Type} (g : A -> list B) (l : list A) :
  (forall a, length (g a) <= 1)%nat ->
  length (flat_map g l)
  = length (filter (fun a => negb (Nat.eqb (length (g a)) 0)) l).
Proof.
  intros Hone. induction l as [|a l IH]; [reflexivity|].
  cbn [flat_map filter]. rewrite length_app, IH.
  specialize (Hone a). destruct (g a) as [|b [|c rest]]; cbn in *;
    [reflexivity|reflexivity|lia].
Qed.

Lemma length_flat_map_incl {A B : Type} (g : A -> list B) (l l' : list A) :
  (forall a, length (g a) <= 1)%nat ->
  NoDup l -> incl l l' ->
  (length (flat_map g l) <= length (flat_map g l'))%nat.
Proof.
  intros Hone Hnd Hincl.
  rewrite !length_flat_map_filter by exact Hone.
  apply NoDup_incl_length.
  - now apply NoDup_filter.
  - intros a Ha. apply filter_In in Ha. apply filter_In.
    split; [apply Hincl|]; tauto.
Qed.

Section BinaryDetector.

Context {W P : Type}.
Variable stamp : W -> PrimFloat.float.
Variable interpolate : W -> W -> PrimFloat.float -> B64.Run P.
Variable distance : P -> P -> B64.Run PrimFloat.float.
Variable round_location : P -> P.

Local Abbreviation sample_at :=
  (B64.sample_at stamp interpolate distance round_location).
Local Abbreviation sampling_loop :=
  (B64.sampling_loop stamp interpolate distance round_location).
Local Abbreviation pair_conflicts :=
  (B64.pair_conflicts stamp interpolate distance round_location).
Local Abbreviation pairwise :=
  (B64.pairwise stamp interpolate distance round_location).
Local Abbreviation check :=
  (B64.check_all_paths_conflict stamp interpolate distance round_location).
Local Abbreviation sort := (B64.sort_path_by_time stamp).
Local Abbreviation pair_sample_times := (B64.pair_sample_times stamp).

(** *** The loop *)

Lemma sample_at_one d1 d2 path1 path2 safety t :
  (length (events_of (sample_at d1 d2 path1 path2 safety t)) <= 1)%nat.
Proof.
  unfold B64.sample_at.
  destruct (B64.get_position_at_time stamp interpolate path1 t)
    as [[pos1|]| |]; cbn [B64.bind events_of length]; try lia;
    destruct (B64.get_position_at_time stamp interpolate path2 t)
      as [[pos2|]| |]; cbn [B64.bind events_of length]; try lia.
  destruct (distance pos1 pos2) as [dist| |];
    cbn [B64.bind events_of length]; try lia.
  destruct (PrimFloat.leb dist safety); cbn [events_of length]; lia.
Qed.

(** A loop that returns has ended, and its events are those of its body at
    the sample times. *)
Lemma sampling_loop_returns turns d1 d2 path1 path2 safety step end_t t evs :
  sampling_loop turns d1 d2 path1 path2 safety step end_t t
  = B64.Returns evs ->
  B64.loop_ends turns step end_t t = true
  /\ evs = flat_map (fun u => events_of (sample_at d1 d2 path1 path2 safety u))
                    (B64.sample_times turns step end_t t).
Proof.
  revert t evs. induction turns as [|turns IH]; intros t evs H;
    cbn [B64.sampling_loop B64.loop_ends B64.sample_times] in *;
    [discriminate H|].
  destruct (PrimFloat.leb t end_t).
  - apply bind_returns in H. destruct H as (here & Hhere & H).
    apply bind_returns in H. destruct H as (later & Hlater & H).
    injection H as <-. apply IH in Hlater. destruct Hlater as [Hends ->].
    split; [exact Hends|]. cbn [flat_map]. now rewrite Hhere.
  - injection H as <-. now split.
Qed.

(** More turns change nothing for a loop that has ended. *)
Lemma loop_ends_more turns turns' step end_t t :
  (turns <= turns')%nat ->
  B64.loop_ends turns step end_t t = true ->
  B64.loop_ends turns' step end_t t = true
  /\ B64.sample_times turns' step end_t t
     = B64.sample_times turns step end_t t.
Proof.
  revert turns' t. induction turns as [|turns IH]; intros turns' t Hle H;
    cbn [B64.loop_ends] in H; [discriminate H|].
  destruct turns' as [|turns']; [lia|].
  cbn [B64.loop_ends B64.sample_times].
  destruct (PrimFloat.leb t end_t); [|now split].
  destruct (IH turns' (PrimFloat.add t step) ltac:(lia) H) as [H1 H2].
  split; [exact H1|]. now rewrite H2.
Qed.

(** A sample time that comes again would come again for ever. *)
Lemma sample_times_suffix turns step end_t t u :
  In u (B64.sample_times turns step end_t t) ->
  exists turns' before,
    (turns' <= turns)%nat
    /\ B64.sample_times turns step end_t t
       = before ++ B64.sample_times turns' step end_t u
    /\ (B64.loop_ends turns step end_t t = true ->
        B64.loop_ends turns' step end_t u = true).
Proof.
  revert t. induction turns as [|turns IH]; intros t Hin;
    cbn [B64.sample_times B64.loop_ends] in *; [destruct Hin|].
  destruct (PrimFloat.leb t end_t) eqn:Hguard; [|destruct Hin].
  destruct Hin as [<-|Hin].
  - exists (S turns), []. cbn [B64.sample_times B64.loop_ends app].
    rewrite Hguard. split; [lia|]. now split.
  - destruct (IH _ Hin) as (turns' & before & Hle & Heq & Hends).
    exists turns', (t :: before). split; [lia|].
    split; [cbn [app]; now rewrite Heq | exact Hends].
Qed.

Lemma sample_times_NoDup turns step end_t t :
  B64.loop_ends turns step end_t t = true ->
  NoDup (B64.sample_times turns step end_t t).
Proof.
  revert t. induction turns as [|turns IH]; intros t Hends;
    [constructor|].
  cbn [B64.sample_times B64.loop_ends] in *.
  destruct (PrimFloat.leb t end_t) eqn:Hguard; [|constructor].
  constructor; [|now apply IH].
  intros Hin.
  destruct (sample_times_suffix _ _ _ _ _ Hin)
    as (turns' & before & Hle & Heq & Hends').
  specialize (Hends' Hends).
  destruct (loop_ends_more turns' (S turns) step end_t t ltac:(lia) Hends')
    as [_ Hsame].
  cbn [B64.sample_times] in Hsame. rewrite Hguard in Hsame.
  apply (f_equal (@length _)) in Heq.
  apply (f_equal (@length _)) in Hsame.
  rewrite length_app in Heq. cbn [length] in Hsame. lia.
Qed.

(** *** A pair *)

Lemma pair_conflicts_returns turns d1 d2 p1 p2 safety time_step evs :
  pair_conflicts turns d1 d2 p1 p2 safety time_step = B64.Returns evs ->
  NoDup (pair_sample_times turns p1 p2 time_step)
  /\ evs = flat_map (fun u => events_of (sample_at d1 d2 (sort p1) (sort p2)
                                                   safety u))
                    (pair_sample_times turns p1 p2 time_step).
Proof.
  unfold B64.pair_conflicts, B64.pair_sample_times.
  destruct (B64.sampling_plan stamp p1 p2 time_step)
    as [[[end_t step] t]|].
  - intros H. apply sampling_loop_returns in H. destruct H as [Hends ->].
    split; [now apply sample_times_NoDup | reflexivity].
  - intros H. injection H as <-. split; [constructor | reflexivity].
Qed.

(** The events of a pair do not get fewer when the sample times of one
    step are among those of another. *)
Lemma pair_conflicts_incl turns turns' d1 d2 p1 p2 safety time_step
      time_step' evs evs' :
  pair_conflicts turns d1 d2 p1 p2 safety time_step = B64.Returns evs ->
  pair_conflicts turns' d1 d2 p1 p2 safety time_step' = B64.Returns evs' ->
  incl (pair_sample_times turns p1 p2 time_step)
       (pair_sample_times turns' p1 p2 time_step') ->
  (length evs <= length evs')%nat.
Proof.
  intros H H' Hincl.
  apply pair_conflicts_returns in H. destruct H as [Hnd ->].
  apply pair_conflicts_returns in H'. destruct H' as [_ ->].
  apply length_flat_map_incl; [|exact Hnd|exact Hincl].
  intros u. apply sample_at_one.
Qed.

(** *** The fleet *)

Lemma collect_pairs_incl turns turns' fleet safety time_step time_step' d1
      later evs evs' :
  B64.collect (fun d2 => pair_conflicts turns d1 d2 (dict_get fleet d1)
                                        (dict_get fleet d2) safety time_step)
              later = B64.Returns evs ->
  B64.collect (fun d2 => pair_conflicts turns' d1 d2 (dict_get fleet d1)
                                        (dict_get fleet d2) safety time_step')
              later = B64.Returns evs' ->
  (forall d2, In d2 later ->
      incl (pair_sample_times turns (dict_get fleet d1) (dict_get fleet d2)
                              time_step)
           (pair_sample_times turns' (dict_get fleet d1) (dict_get fleet d2)
                              time_step')) ->
  (length evs <= length evs')%nat.
Proof.
  revert evs evs'. induction later as [|d2 later IH]; intros evs evs' H H' Hincl;
    cbn [B64.collect] in *.
  - injection H as <-. cbn. lia.
  - apply bind_returns in H. destruct H as (here & Hhere & H).
    apply bind_returns in H. destruct H as (rest & Hrest & H).
    injection H as <-.
    apply bind_returns in H'. destruct H' as (here' & Hhere' & H').
    apply bind_returns in H'. destruct H' as (rest' & Hrest' & H').
    injection H' as <-.
    rewrite !length_app.
    pose proof (pair_conflicts_incl _ _ _ _ _ _ _ _ _ _ _ Hhere Hhere'
                  (Hincl d2 (or_introl eq_refl))) as Hpair.
    pose proof (IH _ _ Hrest Hrest'
                   (fun d Hd => Hincl d (or_intror Hd))) as Hlater.
    lia.
Qed.

Lemma pairwise_incl turns turns' fleet safety time_step time_step' names
      evs evs' :
  pairwise turns fleet safety time_step names = B64.Returns evs ->
  pairwise turns' fleet safety time_step' names = B64.Returns evs' ->
  (forall d1 d2, In d1 names -> In d2 names ->
      incl (pair_sample_times turns (dict_get fleet d1) (dict_get fleet d2)
                              time_step)
           (pair_sample_times turns' (dict_get fleet d1) (dict_get fleet d2)
                              time_step')) ->
  (length evs <= length evs')%nat.
Proof.
  revert evs evs'. induction names as [|d1 later IH];
    intros evs evs' H H' Hincl; cbn [B64.pairwise] in *.
  - injection H as <-. cbn. lia.
  - apply bind_returns in H. destruct H as (here & Hhere & H).
    apply bind_returns in H. destruct H as (rest & Hrest & H).
    injection H as <-.
    apply bind_returns in H'. destruct H' as (here' & Hhere' & H').
    apply bind_returns in H'. destruct H' as (rest' & Hrest' & H').
    injection H' as <-.
    rewrite !length_app.
    pose proof (collect_pairs_incl _ _ _ _ _ _ _ _ _ _ Hhere Hhere'
                  (fun d2 Hd2 => Hincl d1 d2 (or_introl eq_refl)
                                       (or_intror Hd2))) as Hfirst.
    pose proof (IH _ _ Hrest Hrest'
                   (fun a b Ha Hb => Hincl a b (or_intror Ha) (or_intror Hb)))
      as Hlater.
    lia.
Qed.

Lemma check_returns turns fleet safety time_step r :
  check turns fleet safety time_step = B64.Returns r ->
  pairwise turns fleet safety time_step (drone_names fleet)
  = B64.Returns (B64.conflicts_of r).
Proof.
  unfold B64.check_all_paths_conflict. intros H.
  apply bind_returns in H. destruct H as (evs & Hevs & H).
  rewrite Hevs. destruct evs; injection H as <-; reflexivity.
Qed.

Lemma check_incl turns turns' fleet safety time_step time_step' r r' :
  check turns fleet safety time_step = B64.Returns r ->
  check turns' fleet safety time_step' = B64.Returns r' ->
  (forall d1 d2, In d1 (drone_names fleet) -> In d2 (drone_names fleet) ->
      incl (pair_sample_times turns (dict_get fleet d1) (dict_get fleet d2)
                              time_step)
           (pair_sample_times turns' (dict_get fleet d1) (dict_get fleet d2)
                              time_step')) ->
  (length (B64.conflicts_of r) <= length (B64.conflicts_of r'))%nat.
Proof.
  intros H H' Hincl. apply check_returns in H, H'.
  eapply pairwise_incl; eassumption.
Qed.

End BinaryDetector.

(** ** The sampling loop on binary64 numbers *)

Lemma adaptive_step_coarse (time_step mission_duration : PrimFloat.float) :
  PrimFloat.leb mission_duration time_step = true ->
  B64.adaptive_step time_step mission_duration
  = PrimFloat.div mission_duration 20.
Proof. unfold B64.adaptive_step. now intros ->. Qed.

(** As long as the guard holds, the loop visits the rounded sums. *)
Lemma sample_times_partial_sums (n turns : nat)
      (step end_t t : PrimFloat.float) :
  (n <= turns)%nat ->
  (forall u, In u (B64.partial_sums n step t) ->
             PrimFloat.leb u end_t = true) ->
  firstn n (B64.sample_times turns step end_t t) = B64.partial_sums n step t.
Proof.
  revert turns t. induction n as [|n IH]; intros turns t Hle Hguard;
    [reflexivity|].
  destruct turns as [|turns]; [lia|].
  cbn [B64.sample_times B64.partial_sums firstn] in *.
  rewrite (Hguard t (or_introl eq_refl)). cbn [firstn]. f_equal.
  apply IH; [lia|]. intros u Hu. apply Hguard. now right.
Qed.

Lemma length_filter_firstn {A : Type} (f : A -> bool) (n : nat) (l : list A) :
  (length (filter f (firstn n l)) <= length (filter f l))%nat.
Proof.
  rewrite <- (firstn_skipn n l) at 2.
  rewrite filter_app, length_app. lia.
Qed.

Lemma length_partial_sums (n : nat) (step t : PrimFloat.float) :
  length (B64.partial_sums n step t) = n.
Proof.
  revert t. induction n as [|n IH]; intros t; cbn; [|rewrite IH]; reflexivity.
Qed.

Lemma filter_all {A : Type} (f : A -> bool) (l : list A) :
  (forall a, In a l -> f a = true) -> filter f l = l.
Proof.
  induction l as [|a l IH]; intros Hall; [reflexivity|].
  cbn [filter]. rewrite (Hall a (or_introl eq_refl)). f_equal.
  apply IH. intros b Hb. apply Hall. now right.
Qed.

(** When the first [n] rounded sums lie strictly inside the window, the
    loop evaluates them, and so at least [n] interior sample times. *)
Lemma interior_partial_sums (n turns : nat)
      (step start end_t : PrimFloat.float) :
  (n <= turns)%nat ->
  (forall u, In u (B64.partial_sums n step (PrimFloat.add start step)) ->
             PrimFloat.ltb start u = true /\ PrimFloat.ltb u end_t = true) ->
  firstn n (B64.sample_times turns step end_t (PrimFloat.add start step))
  = B64.partial_sums n step (PrimFloat.add start step)
  /\ (n <= length (B64.interior_samples
                     start end_t
                     (B64.sample_times turns step end_t
                                       (PrimFloat.add start step))))%nat.
Proof.
  intros Hle Hinside.
  assert (Hfirst :
           firstn n (B64.sample_times turns step end_t
                                      (PrimFloat.add start step))
           = B64.partial_sums n step (PrimFloat.add start step)).
  { apply sample_times_partial_sums; [exact Hle|].
    intros u Hu. apply FloatFacts.ltb_leb. now apply Hinside. }
  split; [exact Hfirst|].
  unfold B64.interior_samples.
  eapply Nat.le_trans; [|apply (length_filter_firstn _ n)].
  rewrite Hfirst, filter_all, length_partial_sums; [lia|].
  intros u Hu. destruct (Hinside u Hu) as [-> ->]. reflexivity.
Qed.

Section BinaryPlan.

Context {W : Type}.
Variable stamp : W -> PrimFloat.float.

(** The plan of a pair whose window has a positive duration, for a step
    that is not below the duration and a twentieth that is positive. *)
Lemma sampling_plan_coarse (p1 p2 : list W)
      (time_step start end_t : PrimFloat.float) :
  B64.mission_window stamp (B64.sort_path_by_time stamp p1)
                     (B64.sort_path_by_time stamp p2) = Some (start, end_t) ->
  PrimFloat.ltb 0 (PrimFloat.sub end_t start) = true ->
  PrimFloat.leb (PrimFloat.sub end_t start) time_step = true ->
  PrimFloat.ltb 0 (PrimFloat.div (PrimFloat.sub end_t start) 20) = true ->
  B64.sampling_plan stamp p1 p2 time_step
  = Some (end_t, PrimFloat.div (PrimFloat.sub end_t start) 20,
          PrimFloat.add start (PrimFloat.div (PrimFloat.sub end_t start) 20)).
Proof.
  intros Hw Hd Hts Hstep. unfold B64.sampling_plan. rewrite Hw.
  rewrite (FloatFacts.ltb_not_leb _ _ Hd).
  rewrite (adaptive_step_coarse _ _ Hts).
  now rewrite (FloatFacts.ltb_not_leb _ _ Hstep).
Qed.

End BinaryPlan.

(** ** The lookup on binary64 numbers *)

Section BinaryLookup.

Context {W P : Type}.
Variable stamp : W -> PrimFloat.float.
Variable interpolate : W -> W -> PrimFloat.float -> B64.Run P.

Local Abbreviation gpat := (B64.get_position_at_time stamp interpolate).
Local Abbreviation sorted := (B64.sorted_by_time stamp).

Lemma b64_sorted_tail (a : W) (rest : list W) :
  sorted (a :: rest) -> sorted rest.
Proof. destruct rest; cbn; tauto. Qed.

Lemma b64_sorted_later (b : W) (rest : list W) (k : nat) (w : W) :
  sorted (b :: rest) -> nth_error rest k = Some w ->
  PrimFloat.leb (stamp b) (stamp w) = true.
Proof.
  revert b k. induction rest as [|c rest IH]; intros b k Hs Hk;
    [destruct k; discriminate Hk|].
  destruct Hs as [Hbc Hs].
  destruct k as [|k]; cbn [nth_error] in Hk.
  - now injection Hk as <-.
  - eapply FloatFacts.leb_trans; [exact Hbc|]. eapply IH; eassumption.
Qed.

(** At the timestamp of a waypoint the lookup interpolates on the first
    segment of the path, at its start, or on a segment that starts
    strictly earlier and ends with that timestamp. *)
Lemma gpat_at_waypoint (path : list W) (i : nat) (w : W) :
  sorted path -> (2 <= length path)%nat -> nth_error path i = Some w ->
  exists j a b,
    nth_error path j = Some a /\ nth_error path (S j) = Some b
    /\ gpat path (stamp w)
       = B64.bind (interpolate a b (stamp w))
                  (fun pos => B64.Returns (Some pos))
    /\ PrimFloat.leb (stamp a) (stamp b) = true
    /\ ((j = 0%nat /\ PrimFloat.eqb (stamp a) (stamp w) = true)
        \/ (PrimFloat.ltb (stamp a) (stamp w) = true
            /\ PrimFloat.eqb (stamp b) (stamp w) = true
            /\ (S j <= i)%nat)).
Proof.
  revert i. induction path as [|a path IH]; intros i Hs Hlen Hi;
    [cbn in Hlen; lia|].
  destruct path as [|b rest]; [cbn in Hlen; lia|].
  destruct Hs as [Hab Hs].
  pose proof (FloatFacts.leb_refl_l _ _ Hab) as Haa.
  pose proof (FloatFacts.leb_refl_r _ _ Hab) as Hbb.
  cbn [B64.get_position_at_time].
  destruct i as [|[|i]]; cbn [nth_error] in Hi.
  - injection Hi as <-. rewrite Haa, Hab. cbn [andb].
    exists 0%nat, a, b. repeat split; [exact Hab|].
    left. split; [reflexivity|].
    clear - Haa. FloatFacts.float_order.
  - injection Hi as <-. rewrite Hab, Hbb. cbn [andb].
    exists 0%nat, a, b. repeat split; [exact Hab|].
    destruct (FloatFacts.leb_cases _ _ Hab) as [Hlt|Heq].
    + right. split; [exact Hlt|]. split; [|lia].
      clear - Hbb. FloatFacts.float_order.
    + left. now split.
  - pose proof (b64_sorted_later b rest i w Hs Hi) as Hbw.
    pose proof (FloatFacts.leb_trans _ _ _ Hab Hbw) as Haw.
    rewrite Haw. cbn [andb].
    destruct (PrimFloat.leb (stamp w) (stamp b)) eqn:Hwb.
    + exists 0%nat, a, b. repeat split; [exact Hab|].
      assert (Heq : PrimFloat.eqb (stamp b) (stamp w) = true)
        by (clear - Hbw Hwb; FloatFacts.float_order).
      destruct (FloatFacts.leb_cases _ _ Hab) as [Hlt|Heq'].
      * right. split; [|split; [exact Heq|lia]].
        eapply FloatFacts.ltb_eqb_trans; eassumption.
      * left. split; [reflexivity|].
        eapply FloatFacts.eqb_trans; eassumption.
    + assert (Hlen' : (2 <= length (b :: rest))%nat).
      { destruct rest; [destruct i; discriminate Hi|cbn; lia]. }
      destruct (IH (S i) Hs Hlen' Hi)
        as (j & a' & b' & Ha' & Hb' & Hgpat & Hab' & Hcase).
      exists (S j), a', b'. split; [exact Ha'|]. split; [exact Hb'|].
      split; [exact Hgpat|]. split; [exact Hab'|].
      destruct Hcase as [[-> Heq]|(Hlt & Heq & Hle)].
      * cbn [nth_error] in Ha'. injection Ha' as <-.
        exfalso. clear - Heq Hwb. FloatFacts.float_order.
      * right. split; [exact Hlt|]. split; [exact Heq|lia].
Qed.

End BinaryLookup.

(** *** Interpolation at the ends of a segment *)

Section BinaryEnds.

Import FloatOpsFacts.

(** The ratio at a time that compares equal to the first timestamp is a
    zero, and [x1 + 0.0 * (x2 - x1)] compares equal to [x1]. *)
Lemma start_coordinate (x1 x2 t1 t2 t : PrimFloat.float) :
  PrimFloat.eqb t1 t = true -> PrimFloat.ltb t1 t2 = true ->
  PrimFloat.is_finite t1 = true ->
  PrimFloat.is_finite (PrimFloat.sub x2 x1) = true ->
  PrimFloat.eqb
    (PrimFloat.add x1
       (PrimFloat.mul (PrimFloat.div (PrimFloat.sub t t1)
                                     (PrimFloat.sub t2 t1))
                      (PrimFloat.sub x2 x1)))
    x1 = true.
Proof.
  intros Heq Hlt Hfin Hdx.
  apply add_zero_r.
  - apply mul_zero_l; [|exact Hdx].
    apply div_zero_l; [now apply sub_same | now apply sub_of_smaller].
  - apply finite_not_nan. now apply (sub_finite x1 x2).
Qed.

Lemma divide_ordered (n t1 t2 : PrimFloat.float) :
  PrimFloat.ltb t1 t2 = true ->
  B64.divide n (PrimFloat.sub t2 t1)
  = B64.Returns (PrimFloat.div n (PrimFloat.sub t2 t1)).
Proof.
  intros Hlt. unfold B64.divide.
  now rewrite (nonzero_eqb_zero _ (sub_of_smaller _ _ Hlt)).
Qed.

(** The ratio at a time that compares equal to the second timestamp is
    [1.0] when the duration of the segment is finite. *)
Lemma end_ratio (t1 t2 t : PrimFloat.float) :
  PrimFloat.ltb t1 t = true -> PrimFloat.eqb t2 t = true ->
  PrimFloat.is_finite (PrimFloat.sub t2 t1) = true ->
  PrimFloat.ltb t1 t2 = true
  /\ PrimFloat.div (PrimFloat.sub t t1) (PrimFloat.sub t2 t1) = 1%float.
Proof.
  intros Hlt Heq Hfin.
  assert (Hlt2 : PrimFloat.ltb t1 t2 = true)
    by (clear - Hlt Heq; FloatFacts.float_order).
  split; [exact Hlt2|].
  rewrite (sub_eqb t1 t t2 (eqb_sym _ _ Heq) Hlt).
  apply div_self; [now apply sub_of_smaller | exact Hfin].
Qed.

Lemma interpolate_start (v : Variant) (a b : B64.Both.Waypoint v)
      (t : PrimFloat.float) :
  PrimFloat.eqb (B64.Both.stamp v a) t = true ->
  PrimFloat.leb (B64.Both.stamp v a) (B64.Both.stamp v b) = true ->
  PrimFloat.is_finite (B64.Both.stamp v a) = true ->
  Forall (fun c => PrimFloat.is_finite c = true)
         (B64.Both.displacement v a b) ->
  exists pos,
    B64.Both.interpolate v a b t = B64.Returns pos
    /\ Forall2 (fun c x => PrimFloat.eqb c x = true)
               (B64.Both.coordinates v pos)
               (B64.Both.coordinates v (B64.Both.position v a)).
Proof.
  destruct v; cbn [B64.Both.stamp B64.Both.Waypoint B64.Both.interpolate
                     B64.Both.position B64.Both.coordinates
                     B64.Both.displacement] in *.
  - destruct a as [[x1 y1] t1], b as [[x2 y2] t2].
    unfold B64.D2.stamp, B64.D2.position, B64.D2.interpolate.
    cbn [fst snd map combine]. intros Heq Hle Hfin Hd.
    inversion Hd as [|? ? Hdx Hd']; subst.
    inversion Hd' as [|? ? Hdy _]; subst.
    destruct (PrimFloat.eqb t2 t1) eqn:Hguard.
    + eexists. split; [reflexivity|]. cbn [fst snd].
      repeat constructor; apply finite_not_nan;
        [now apply (sub_finite x1 x2) | now apply (sub_finite y1 y2)].
    + assert (Hlt : PrimFloat.ltb t1 t2 = true)
        by (clear - Hle Hguard; FloatFacts.float_order).
      rewrite (divide_ordered _ _ _ Hlt). cbn [B64.bind].
      eexists. split; [reflexivity|]. cbn [fst snd].
      repeat constructor; now apply start_coordinate.
  - destruct a as [[[x1 y1] z1] t1], b as [[[x2 y2] z2] t2].
    unfold B64.D3.stamp, B64.D3.position, B64.D3.interpolate.
    cbn [fst snd map combine]. intros Heq Hle Hfin Hd.
    inversion Hd as [|? ? Hdx Hd']; subst.
    inversion Hd' as [|? ? Hdy Hd'']; subst.
    inversion Hd'' as [|? ? Hdz _]; subst.
    destruct (PrimFloat.eqb t2 t1) eqn:Hguard.
    + eexists. split; [reflexivity|].
      repeat constructor; apply finite_not_nan;
        [ now apply (sub_finite x1 x2) | now apply (sub_finite y1 y2)
        | now apply (sub_finite z1 z2) ].
    + assert (Hlt : PrimFloat.ltb t1 t2 = true)
        by (clear - Hle Hguard; FloatFacts.float_order).
      rewrite (divide_ordered _ _ _ Hlt). cbn [B64.bind].
      eexists. split; [reflexivity|].
      repeat constructor; now apply start_coordinate.
Qed.

Lemma interpolate_end (v : Variant) (a b : B64.Both.Waypoint v)
      (t : PrimFloat.float) :
  PrimFloat.ltb (B64.Both.stamp v a) t = true ->
  PrimFloat.eqb (B64.Both.stamp v b) t = true ->
  PrimFloat.is_finite
    (PrimFloat.sub (B64.Both.stamp v b) (B64.Both.stamp v a)) = true ->
  B64.Both.interpolate v a b t = B64.Returns (B64.Both.end_of_leg v a b).
Proof.
  destruct v; cbn [B64.Both.stamp B64.Both.Waypoint B64.Both.interpolate
                     B64.Both.end_of_leg] in *.
  - destruct a as [[x1 y1] t1], b as [[x2 y2] t2].
    unfold B64.D2.stamp, B64.D2.interpolate. cbn [fst snd].
    intros Hlt Heq Hfin.
    destruct (end_ratio _ _ _ Hlt Heq Hfin) as [Hlt2 Hratio].
    rewrite (proj2 (ltb_not_eqb _ _ Hlt2)).
    rewrite (divide_ordered _ _ _ Hlt2), Hratio. cbn [B64.bind].
    now rewrite !mul_one_l.
  - destruct a as [[[x1 y1] z1] t1], b as [[[x2 y2] z2] t2].
    unfold B64.D3.stamp, B64.D3.interpolate. cbn [fst snd].
    intros Hlt Heq Hfin.
    destruct (end_ratio _ _ _ Hlt Heq Hfin) as [Hlt2 Hratio].
    rewrite (proj2 (ltb_not_eqb _ _ Hlt2)).
    rewrite (divide_ordered _ _ _ Hlt2), Hratio. cbn [B64.bind].
    now rewrite !mul_one_l.
Qed.

End BinaryEnds.

(** ** Distances on binary64 numbers *)

Section BinaryDistance.

Import FloatOpsFacts FloatSigns.

Lemma sub_self (x : PrimFloat.float) :
  PrimFloat.is_finite x = true -> PrimFloat.sub x x = 0%float.
Proof.
  intros Hfin. apply is_finite_iff in Hfin.
  apply FloatAxioms.Prim2SF_inj. rewrite FloatAxioms.sub_spec.
  change (FloatOps.Prim2SF 0) with (SpecFloat.S754_zero false).
  destruct (FloatOps.Prim2SF x) as [s|s| |s m e]; try contradiction.
  - now destruct s.
  - unfold FloatAxioms.SF64sub, SpecFloat.SFsub. now rewrite Z.sub_diag.
Qed.

Lemma distance_swap (v : Variant) (p q : B64.Both.Point v) :
  B64.Both.distance v p q = B64.Both.distance v q p.
Proof.
  destruct v; cbn [B64.Both.distance B64.Both.Point] in *.
  - destruct p as [x1 y1], q as [x2 y2]. unfold B64.D2.distance_2d.
    cbn [fst snd]. now rewrite (square_swap x1 x2), (square_swap y1 y2).
  - destruct p as [[x1 y1] z1], q as [[x2 y2] z2].
    unfold B64.D3.distance_3d.
    now rewrite (square_swap x1 x2), (square_swap y1 y2),
      (square_swap z1 z2).
Qed.

Lemma distance_not_negative (v : Variant) (p q : B64.Both.Point v)
      (d : PrimFloat.float) :
  B64.Both.distance v p q = B64.Returns d -> PrimFloat.ltb d 0 = false.
Proof.
  destruct v; cbn [B64.Both.distance B64.Both.Point] in *.
  - destruct p as [x1 y1], q as [x2 y2]. unfold B64.D2.distance_2d.
    intros H.
    apply bind_returns in H. destruct H as (dx2 & _ & H).
    apply bind_returns in H. destruct H as (dy2 & _ & H).
    now apply math_sqrt_not_negative in H.
  - destruct p as [[x1 y1] z1], q as [[x2 y2] z2].
    unfold B64.D3.distance_3d. intros H.
    apply bind_returns in H. destruct H as (dx2 & _ & H).
    apply bind_returns in H. destruct H as (dy2 & _ & H).
    apply bind_returns in H. destruct H as (dz2 & _ & H).
    now apply math_sqrt_not_negative in H.
Qed.

Lemma bind_raises_value {A B : Type} (m : B64.Run A) (k : A -> B64.Run B) :
  m <> B64.Raises B64.ValueError ->
  (forall a, m = B64.Returns a -> k a <> B64.Raises B64.ValueError) ->
  B64.bind m k <> B64.Raises B64.ValueError.
Proof.
  destruct m as [a|e|]; cbn [B64.bind]; intros Hm Hk;
    [now apply Hk | intros H; apply Hm; now injection H as -> | discriminate].
Qed.

Lemma square_no_value_error (x : PrimFloat.float) :
  B64.square x <> B64.Raises B64.ValueError.
Proof.
  unfold B64.square.
  now destruct (PrimFloat.is_finite x
                && PrimFloat.is_infinity (PrimFloat.mul x x)).
Qed.

(** [math.sqrt] never sees a number below zero. *)
Lemma distance_no_value_error (v : Variant) (p q : B64.Both.Point v) :
  B64.Both.distance v p q <> B64.Raises B64.ValueError.
Proof.
  destruct v; cbn [B64.Both.distance B64.Both.Point] in *.
  - destruct p as [x1 y1], q as [x2 y2]. unfold B64.D2.distance_2d.
    apply bind_raises_value; [apply square_no_value_error|].
    intros dx2 Hx.
    apply bind_raises_value; [apply square_no_value_error|].
    intros dy2 Hy.
    rewrite math_sqrt_sum; [discriminate|].
    apply add_not_negative; eapply square_not_negative; eassumption.
  - destruct p as [[x1 y1] z1], q as [[x2 y2] z2].
    unfold B64.D3.distance_3d.
    apply bind_raises_value; [apply square_no_value_error|].
    intros dx2 Hx.
    apply bind_raises_value; [apply square_no_value_error|].
    intros dy2 Hy.
    apply bind_raises_value; [apply square_no_value_error|].
    intros dz2 Hz.
    rewrite math_sqrt_sum; [discriminate|].
    repeat apply add_not_negative; eapply square_not_negative; eassumption.
Qed.

Lemma distance_self (v : Variant) (p : B64.Both.Point v) :
  Forall (fun c => PrimFloat.is_finite c = true) (B64.Both.coordinates v p) ->
  B64.Both.distance v p p = B64.Returns 0%float.
Proof.
  destruct v; cbn [B64.Both.distance B64.Both.Point B64.Both.coordinates]
    in *.
  - destruct p as [x y]. cbn [fst snd]. intros H.
    inversion H as [|? ? Hx H']; subst. inversion H' as [|? ? Hy _]; subst.
    unfold B64.D2.distance_2d. cbn [fst snd].
    now rewrite (sub_self x Hx), (sub_self y Hy).
  - destruct p as [[x y] z]. intros H.
    inversion H as [|? ? Hx H']; subst.
    inversion H' as [|? ? Hy H'']; subst.
    inversion H'' as [|? ? Hz _]; subst.
    unfold B64.D3.distance_3d.
    now rewrite (sub_self x Hx), (sub_self y Hy), (sub_self z Hz).
Qed.

End BinaryDistance.

(** ** The events of the binary64 detector *)

Section BinaryEvents.

Context {W P : Type}.
Variable stamp : W -> PrimFloat.float.
Variable interpolate : W -> W -> PrimFloat.float -> B64.Run P.
Variable distance : P -> P -> B64.Run PrimFloat.float.
Variable round_location : P -> P.

Local Abbreviation gpat := (B64.get_position_at_time stamp interpolate).
Local Abbreviation sample_at :=
  (B64.sample_at stamp interpolate distance round_location).
Local Abbreviation sampling_loop :=
  (B64.sampling_loop stamp interpolate distance round_location).
Local Abbreviation pair_conflicts :=
  (B64.pair_conflicts stamp interpolate distance round_location).
Local Abbreviation pairwise :=
  (B64.pairwise stamp interpolate distance round_location).
Local Abbreviation check :=
  (B64.check_all_paths_conflict stamp interpolate distance round_location).
Local Abbreviation sort := (B64.sort_path_by_time stamp).
Local Abbreviation pair_sample_times := (B64.pair_sample_times stamp).

(** The event of the loop body, when it appends one. *)
Lemma In_sample_at_b64 e d1 d2 path1 path2 safety t :
  In e (events_of (sample_at d1 d2 path1 path2 safety t)) <->
  exists pos1 pos2 dist,
    gpat path1 t = B64.Returns (Some pos1)
    /\ gpat path2 t = B64.Returns (Some pos2)
    /\ distance pos1 pos2 = B64.Returns dist
    /\ PrimFloat.leb dist safety = true
    /\ e = B64.mkEvent (B64.round2 t) (round_location pos1)
                       (B64.round2 dist) (d1, d2).
Proof.
  unfold B64.sample_at.
  destruct (gpat path1 t) as [[pos1|]| |];
    destruct (gpat path2 t) as [[pos2|]| |]; cbn [B64.bind events_of];
    try (split; [intros []|intros (? & ? & ? & H1 & H2 & _); discriminate]).
  destruct (distance pos1 pos2) as [dist| |] eqn:Hdist;
    cbn [B64.bind events_of].
  - destruct (PrimFloat.leb dist safety) eqn:Hclose; cbn [events_of].
    + split.
      * intros [<-|[]]. exists pos1, pos2, dist. repeat split; assumption.
      * intros (q1 & q2 & d & H1 & H2 & Hd & _ & ->).
        injection H1 as <-. injection H2 as <-.
        rewrite Hdist in Hd. injection Hd as <-. now left.
    + split; [intros []|].
      intros (q1 & q2 & d & H1 & H2 & Hd & Hle & _).
      injection H1 as <-. injection H2 as <-.
      rewrite Hdist in Hd. injection Hd as <-. congruence.
  - split; [intros []|].
    intros (q1 & q2 & d & H1 & H2 & Hd & _).
    injection H1 as <-. injection H2 as <-. congruence.
  - split; [intros []|].
    intros (q1 & q2 & d & H1 & H2 & Hd & _).
    injection H1 as <-. injection H2 as <-. congruence.
Qed.

Lemma In_pair_conflicts_b64 turns e d1 d2 p1 p2 safety time_step evs :
  pair_conflicts turns d1 d2 p1 p2 safety time_step = B64.Returns evs ->
  In e evs <->
  exists t pos1 pos2 dist,
    In t (pair_sample_times turns p1 p2 time_step)
    /\ gpat (sort p1) t = B64.Returns (Some pos1)
    /\ gpat (sort p2) t = B64.Returns (Some pos2)
    /\ distance pos1 pos2 = B64.Returns dist
    /\ PrimFloat.leb dist safety = true
    /\ e = B64.mkEvent (B64.round2 t) (round_location pos1)
                       (B64.round2 dist) (d1, d2).
Proof.
  intros H. apply pair_conflicts_returns in H. destruct H as [_ ->].
  rewrite in_flat_map. split.
  - intros (t & Ht & He). apply In_sample_at_b64 in He.
    destruct He as (pos1 & pos2 & dist & He). now exists t, pos1, pos2, dist.
  - intros (t & pos1 & pos2 & dist & Ht & He).
    exists t. split; [exact Ht|]. apply In_sample_at_b64.
    now exists pos1, pos2, dist.
Qed.

(** *** Every pair of a returned report has returned *)

Lemma collect_each {A B : Type} (f : A -> B64.Run (list B)) (l : list A)
      (evs : list B) (a : A) :
  B64.collect f l = B64.Returns evs -> In a l ->
  exists here, f a = B64.Returns here /\ incl here evs.
Proof.
  revert evs. induction l as [|b l IH]; intros evs H Ha; [destruct Ha|].
  cbn [B64.collect] in H.
  apply bind_returns in H. destruct H as (here & Hhere & H).
  apply bind_returns in H. destruct H as (later & Hlater & H).
  injection H as <-. destruct Ha as [->|Ha].
  - exists here. split; [exact Hhere|]. now apply incl_appl, incl_refl.
  - destruct (IH _ Hlater Ha) as (h & Hh & Hincl).
    exists h. split; [exact Hh|]. now apply incl_appr.
Qed.

Lemma pairwise_each turns fleet safety time_step names evs l1 d1 l2 d2 l3 :
  pairwise turns fleet safety time_step names = B64.Returns evs ->
  names = l1 ++ d1 :: l2 ++ d2 :: l3 ->
  exists here,
    pair_conflicts turns d1 d2 (dict_get fleet d1) (dict_get fleet d2)
                   safety time_step = B64.Returns here
    /\ incl here evs.
Proof.
  revert names evs. induction l1 as [|x l1 IH]; intros names evs H ->;
    cbn [app B64.pairwise] in H;
    apply bind_returns in H; destruct H as (here & Hhere & H);
    apply bind_returns in H; destruct H as (rest & Hrest & H);
    injection H as <-.
  - destruct (collect_each _ _ _ d2 Hhere) as (h & Hh & Hincl).
    { apply in_or_app. right. now left. }
    exists h. split; [exact Hh|]. now apply incl_appl.
  - destruct (IH _ _ Hrest eq_refl) as (h & Hh & Hincl).
    exists h. split; [exact Hh|]. now apply incl_appr.
Qed.

Lemma pairwise_events turns fleet safety time_step names evs e :
  pairwise turns fleet safety time_step names = B64.Returns evs ->
  In e evs ->
  exists d1 d2 here,
    pair_conflicts turns d1 d2 (dict_get fleet d1) (dict_get fleet d2)
                   safety time_step = B64.Returns here
    /\ In e here.
Proof.
  revert evs. induction names as [|d1 later IH]; intros evs H He;
    cbn [B64.pairwise] in H.
  - injection H as <-. destruct He.
  - apply bind_returns in H. destruct H as (here & Hhere & H).
    apply bind_returns in H. destruct H as (rest & Hrest & H).
    injection H as <-. apply in_app_or in He. destruct He as [He|He].
    + apply collect_returns in Hhere. subst here.
      apply in_flat_map in He. destruct He as (d2 & Hd2 & He).
      destruct (pair_conflicts turns d1 d2 (dict_get fleet d1)
                               (dict_get fleet d2) safety time_step)
        as [h| |] eqn:Hpair; cbn [events_of] in He; try destruct He.
      now exists d1, d2, h.
    + now apply (IH rest).
Qed.

(** *** A safety distance below zero *)

Hypothesis distance_not_below_zero :
  forall p q d, distance p q = B64.Returns d -> PrimFloat.ltb d 0 = false.

Lemma pair_conflicts_negative_safety turns d1 d2 p1 p2 safety time_step evs :
  PrimFloat.ltb safety 0 = true ->
  pair_conflicts turns d1 d2 p1 p2 safety time_step = B64.Returns evs ->
  evs = [].
Proof.
  intros Hs H. destruct evs as [|e evs]; [reflexivity|exfalso].
  pose proof (proj1 (In_pair_conflicts_b64 turns e d1 d2 p1 p2 safety
                                           time_step _ H)
                    (or_introl eq_refl))
    as (t & pos1 & pos2 & dist & _ & _ & _ & Hd & Hle & _).
  apply distance_not_below_zero in Hd.
  clear - Hs Hd Hle. FloatFacts.float_order.
Qed.

Lemma check_negative_safety_b64 turns fleet safety time_step r :
  PrimFloat.ltb safety 0 = true ->
  check turns fleet safety time_step = B64.Returns r ->
  r = B64.CLEAR.
Proof.
  intros Hs H. pose proof (check_returns _ _ _ _ _ _ _ _ _ H) as Hpairs.
  destruct r as [|evs]; [reflexivity|exfalso].
  cbn [B64.conflicts_of] in Hpairs.
  unfold B64.check_all_paths_conflict in H. rewrite Hpairs in H.
  cbn [B64.bind] in H. destruct evs as [|e evs]; [discriminate H|].
  destruct (pairwise_events _ _ _ _ _ _ e Hpairs (or_introl eq_refl))
    as (d1 & d2 & here & Hhere & He).
  apply (pair_conflicts_negative_safety _ _ _ _ _ _ _ _ Hs) in Hhere.
  subst here. destruct He.
Qed.

End BinaryEvents.

(** ** A step that is absorbed *)

Section BinaryStall.

Context {W P : Type}.
Variable stamp : W -> PrimFloat.float.
Variable interpolate : W -> W -> PrimFloat.float -> B64.Run P.
Variable distance : P -> P -> B64.Run PrimFloat.float.
Variable round_location : P -> P.

Local Abbreviation pair_conflicts :=
  (B64.pair_conflicts stamp interpolate distance round_location).
Local Abbreviation pairwise :=
  (B64.pairwise stamp interpolate distance round_location).
Local Abbreviation check :=
  (B64.check_all_paths_conflict stamp interpolate distance round_location).

(** Where [t + step] is [t] again, the guard holds for ever. *)
Lemma loop_absorbed turns (step end_t t : PrimFloat.float) :
  PrimFloat.leb t end_t = true -> PrimFloat.add t step = t ->
  B64.loop_ends turns step end_t t = false.
Proof.
  intros Hguard Hsame. induction turns as [|turns IH]; [reflexivity|].
  cbn [B64.loop_ends]. now rewrite Hguard, Hsame.
Qed.

Lemma sample_times_more turns turns' (step end_t t u : PrimFloat.float) :
  (turns <= turns')%nat ->
  In u (B64.sample_times turns step end_t t) ->
  In u (B64.sample_times turns' step end_t t).
Proof.
  revert turns' t. induction turns as [|turns IH]; intros turns' t Hle Hin;
    [destruct Hin|].
  destruct turns' as [|turns']; [lia|].
  cbn [B64.sample_times] in *.
  destruct (PrimFloat.leb t end_t); [|destruct Hin].
  destruct Hin as [<-|Hin]; [now left|right].
  apply IH; [lia|exact Hin].
Qed.

Lemma sample_times_guard turns (step end_t t u : PrimFloat.float) :
  In u (B64.sample_times turns step end_t t) ->
  PrimFloat.leb u end_t = true.
Proof.
  revert t. induction turns as [|turns IH]; intros t Hin; [destruct Hin|].
  cbn [B64.sample_times] in Hin.
  destruct (PrimFloat.leb t end_t) eqn:Hguard; [|destruct Hin].
  destruct Hin as [<-|Hin]; [exact Hguard|]. now apply (IH _ Hin).
Qed.

(** A loop that reaches such a sample time does not end. *)
Lemma loop_never_ends turns0 turns (step end_t t u : PrimFloat.float) :
  In u (B64.sample_times turns0 step end_t t) ->
  PrimFloat.add u step = u ->
  B64.loop_ends turns step end_t t = false.
Proof.
  intros Hin Hsame.
  destruct (B64.loop_ends turns step end_t t) eqn:Hends; [|reflexivity].
  exfalso.
  destruct (loop_ends_more turns (Nat.max turns turns0) step end_t t
                           ltac:(lia) Hends) as [Hends' _].
  pose proof (sample_times_more turns0 (Nat.max turns turns0) step end_t t u
                                ltac:(lia) Hin) as Hin'.
  destruct (sample_times_suffix _ _ _ _ _ Hin')
    as (turns' & before & _ & _ & Hsuffix).
  specialize (Hsuffix Hends').
  rewrite (loop_absorbed turns' step end_t u
                         (sample_times_guard _ _ _ _ _ Hin) Hsame)
    in Hsuffix.
  discriminate Hsuffix.
Qed.

Lemma pair_never_returns turns0 turns d1 d2 p1 p2 safety time_step
      end_t step t u evs :
  B64.sampling_plan stamp p1 p2 time_step = Some (end_t, step, t) ->
  In u (B64.sample_times turns0 step end_t t) ->
  PrimFloat.add u step = u ->
  pair_conflicts turns d1 d2 p1 p2 safety time_step <> B64.Returns evs.
Proof.
  intros Hplan Hin Hsame H. unfold B64.pair_conflicts in H.
  rewrite Hplan in H. apply sampling_loop_returns in H.
  destruct H as [Hends _].
  now rewrite (loop_never_ends turns0 turns step end_t t u Hin Hsame)
    in Hends.
Qed.

Lemma check_never_returns turns0 turns fleet safety time_step l1 d1 l2 d2 l3
      end_t step t u r :
  drone_names fleet = l1 ++ d1 :: l2 ++ d2 :: l3 ->
  B64.sampling_plan stamp (dict_get fleet d1) (dict_get fleet d2) time_step
  = Some (end_t, step, t) ->
  In u (B64.sample_times turns0 step end_t t) ->
  PrimFloat.add u step = u ->
  check turns fleet safety time_step <> B64.Returns r.
Proof.
  intros Hnames Hplan Hin Hsame H.
  apply check_returns in H.
  destruct (pairwise_each _ _ _ _ _ _ _ _ _ _ _ _ _ _ _ H Hnames)
    as (here & Hhere & _).
  exact (pair_never_returns turns0 turns d1 d2 _ _ safety time_step
                            end_t step t u here Hplan Hin Hsame Hhere).
Qed.

End BinaryStall.

(** ** More turns *)

Section BinaryTurns.

Context {W P : Type}.
Variable stamp : W -> PrimFloat.float.
Variable interpolate : W -> W -> PrimFloat.float -> B64.Run P.
Variable distance : P -> P -> B64.Run PrimFloat.float.
Variable round_location : P -> P.

Local Abbreviation sampling_loop :=
  (B64.sampling_loop stamp interpolate distance round_location).
Local Abbreviation pair_conflicts :=
  (B64.pair_conflicts stamp interpolate distance round_location).
Local Abbreviation pairwise :=
  (B64.pairwise stamp interpolate distance round_location).
Local Abbreviation check :=
  (B64.check_all_paths_conflict stamp interpolate distance round_location).

Lemma bind_finished {A B : Type} (m : B64.Run A) (k : A -> B64.Run B) :
  B64.bind m k <> B64.Unfinished -> m <> B64.Unfinished.
Proof. intros H ->. now apply H. Qed.

Lemma bind_more {A B : Type} (m m' : B64.Run A) (k k' : A -> B64.Run B) :
  B64.bind m k <> B64.Unfinished ->
  (m <> B64.Unfinished -> m' = m) ->
  (forall a, m = B64.Returns a -> k a <> B64.Unfinished -> k' a = k a) ->
  B64.bind m' k' = B64.bind m k.
Proof.
  intros H Hm Hk. rewrite (Hm (bind_finished _ _ H)).
  destruct m as [a|e|]; cbn [B64.bind] in *; [|reflexivity|reflexivity].
  now apply Hk.
Qed.

Lemma sampling_loop_more turns turns' d1 d2 path1 path2 safety step end_t t :
  (turns <= turns')%nat ->
  sampling_loop turns d1 d2 path1 path2 safety step end_t t
  <> B64.Unfinished ->
  sampling_loop turns' d1 d2 path1 path2 safety step end_t t
  = sampling_loop turns d1 d2 path1 path2 safety step end_t t.
Proof.
  revert turns' t. induction turns as [|turns IH]; intros turns' t Hle H;
    cbn [B64.sampling_loop] in H; [now contradiction H|].
  destruct turns' as [|turns']; [lia|].
  cbn [B64.sampling_loop].
  destruct (PrimFloat.leb t end_t); [|reflexivity].
  apply bind_more; [exact H|reflexivity|].
  intros here _ Hrest.
  apply bind_more; [exact Hrest| |reflexivity].
  apply IH. lia.
Qed.

Lemma pair_conflicts_more turns turns' d1 d2 p1 p2 safety time_step :
  (turns <= turns')%nat ->
  pair_conflicts turns d1 d2 p1 p2 safety time_step <> B64.Unfinished ->
  pair_conflicts turns' d1 d2 p1 p2 safety time_step
  = pair_conflicts turns d1 d2 p1 p2 safety time_step.
Proof.
  unfold B64.pair_conflicts.
  destruct (B64.sampling_plan stamp p1 p2 time_step)
    as [[[end_t step] t]|]; [|reflexivity].
  apply sampling_loop_more.
Qed.

Lemma collect_more {A B : Type} (f f' : A -> B64.Run (list B))
      (l : list A) :
  (forall a, f a <> B64.Unfinished -> f' a = f a) ->
  B64.collect f l <> B64.Unfinished ->
  B64.collect f' l = B64.collect f l.
Proof.
  intros Hf. induction l as [|a l IH]; intros H; cbn [B64.collect] in *;
    [reflexivity|].
  apply bind_more; [exact H|apply Hf|].
  intros here _ Hrest.
  apply bind_more; [exact Hrest|exact IH|reflexivity].
Qed.

Lemma pairwise_more turns turns' fleet safety time_step names :
  (turns <= turns')%nat ->
  pairwise turns fleet safety time_step names <> B64.Unfinished ->
  pairwise turns' fleet safety time_step names
  = pairwise turns fleet safety time_step names.
Proof.
  intros Hle. induction names as [|d1 later IH]; intros H;
    cbn [B64.pairwise] in *; [reflexivity|].
  apply bind_more; [exact H| |].
  - apply collect_more. intros d2. now apply pair_conflicts_more.
  - intros here _ Hrest.
    apply bind_more; [exact Hrest|exact IH|reflexivity].
Qed.

Lemma check_more turns turns' fleet safety time_step :
  (turns <= turns')%nat ->
  check turns fleet safety time_step <> B64.Unfinished ->
  check turns' fleet safety time_step = check turns fleet safety time_step.
Proof.
  intros Hle H. unfold B64.check_all_paths_conflict in *.
  apply bind_more; [exact H| |reflexivity].
  now apply pairwise_more.
Qed.

End BinaryTurns.

(** ** A step that is not positive, and a larger safety distance *)

Section BinarySafety.

Context {W P : Type}.
Variable stamp : W -> PrimFloat.float.
Variable interpolate : W -> W -> PrimFloat.float -> B64.Run P.
Variable distance : P -> P -> B64.Run PrimFloat.float.
Variable round_location : P -> P.

Local Abbreviation sample_at :=
  (B64.sample_at stamp interpolate distance round_location).
Local Abbreviation sampling_loop :=
  (B64.sampling_loop stamp interpolate distance round_location).
Local Abbreviation pair_conflicts :=
  (B64.pair_conflicts stamp interpolate distance round_location).
Local Abbreviation pairwise :=
  (B64.pairwise stamp interpolate distance round_location).
Local Abbreviation check :=
  (B64.check_all_paths_conflict stamp interpolate distance round_location).

(** With a step that is not positive the third test before the loop
    skips the pair. *)
Lemma sampling_plan_nonpositive p1 p2 (time_step : PrimFloat.float) :
  PrimFloat.leb time_step 0 = true ->
  B64.sampling_plan stamp p1 p2 time_step = None.
Proof.
  intros Hts. unfold B64.sampling_plan.
  destruct (B64.mission_window stamp (B64.sort_path_by_time stamp p1)
                               (B64.sort_path_by_time stamp p2))
    as [[start end_t]|]; [|reflexivity].
  cbv zeta.
  destruct (PrimFloat.leb (PrimFloat.sub end_t start) 0) eqn:Hd;
    [reflexivity|].
  unfold B64.adaptive_step.
  destruct (PrimFloat.leb (PrimFloat.sub end_t start) time_step) eqn:Hc.
  - rewrite (FloatFacts.leb_trans _ _ _ Hc Hts) in Hd. discriminate Hd.
  - now rewrite Hts.
Qed.

Lemma collect_nothing {A B : Type} (f : A -> B64.Run (list B)) (l : list A) :
  (forall a, f a = B64.Returns []) -> B64.collect f l = B64.Returns [].
Proof.
  intros Hf. induction l as [|a l IH]; [reflexivity|].
  cbn [B64.collect]. now rewrite Hf, IH.
Qed.

Lemma check_nonpositive_step_b64 turns fleet safety (time_step : PrimFloat.float) :
  PrimFloat.leb time_step 0 = true ->
  check turns fleet safety time_step = B64.Returns B64.CLEAR.
Proof.
  intros Hts. unfold B64.check_all_paths_conflict.
  assert (Hnone : forall names,
             pairwise turns fleet safety time_step names = B64.Returns []).
  { induction names as [|d1 later IH]; [reflexivity|].
    cbn [B64.pairwise]. rewrite collect_nothing, IH; [reflexivity|].
    intros d2. unfold B64.pair_conflicts.
    now rewrite (sampling_plan_nonpositive _ _ _ Hts). }
  now rewrite Hnone.
Qed.

(** A larger safety distance keeps every event. *)
Lemma sample_at_safety d1 d2 path1 path2 (s s' t : PrimFloat.float) evs :
  PrimFloat.leb s s' = true ->
  sample_at d1 d2 path1 path2 s t = B64.Returns evs ->
  exists evs',
    sample_at d1 d2 path1 path2 s' t = B64.Returns evs'
    /\ (length evs <= length evs')%nat.
Proof.
  intros Hs. unfold B64.sample_at.
  destruct (B64.get_position_at_time stamp interpolate path1 t)
    as [[pos1|]| |];
    destruct (B64.get_position_at_time stamp interpolate path2 t)
      as [[pos2|]| |]; cbn [B64.bind]; intros H; try discriminate H;
    try (injection H as <-; exists []; split; [reflexivity|cbn; lia]).
  destruct (distance pos1 pos2) as [dist| |]; cbn [B64.bind] in *;
    try discriminate H.
  destruct (PrimFloat.leb dist s) eqn:Hclose.
  - rewrite (FloatFacts.leb_trans _ _ _ Hclose Hs).
    injection H as <-. eexists. split; [reflexivity|cbn; lia].
  - injection H as <-.
    destruct (PrimFloat.leb dist s'); eexists; (split; [reflexivity|cbn; lia]).
Qed.

Lemma sampling_loop_safety turns d1 d2 path1 path2 (s s' step end_t t : _)
      evs :
  PrimFloat.leb s s' = true ->
  sampling_loop turns d1 d2 path1 path2 s step end_t t = B64.Returns evs ->
  exists evs',
    sampling_loop turns d1 d2 path1 path2 s' step end_t t = B64.Returns evs'
    /\ (length evs <= length evs')%nat.
Proof.
  intros Hs. revert t evs. induction turns as [|turns IH]; intros t evs H;
    cbn [B64.sampling_loop] in *; [discriminate H|].
  destruct (PrimFloat.leb t end_t).
  - apply bind_returns in H. destruct H as (here & Hhere & H).
    apply bind_returns in H. destruct H as (later & Hlater & H).
    injection H as <-.
    destruct (sample_at_safety _ _ _ _ _ _ _ _ Hs Hhere)
      as (here' & -> & Hle1).
    destruct (IH _ _ Hlater) as (later' & -> & Hle2).
    cbn [B64.bind]. eexists. split; [reflexivity|].
    rewrite !length_app. lia.
  - injection H as <-. exists []. split; [reflexivity|cbn; lia].
Qed.

Lemma pair_conflicts_safety turns d1 d2 p1 p2 (s s' time_step : _) evs :
  PrimFloat.leb s s' = true ->
  pair_conflicts turns d1 d2 p1 p2 s time_step = B64.Returns evs ->
  exists evs',
    pair_conflicts turns d1 d2 p1 p2 s' time_step = B64.Returns evs'
    /\ (length evs <= length evs')%nat.
Proof.
  intros Hs. unfold B64.pair_conflicts.
  destruct (B64.sampling_plan stamp p1 p2 time_step)
    as [[[end_t step] t]|].
  - now apply sampling_loop_safety.
  - intros H. injection H as <-. exists []. split; [reflexivity|cbn; lia].
Qed.

Lemma collect_longer {A B : Type} (f f' : A -> B64.Run (list B))
      (l : list A) (evs : list B) :
  (forall a here, f a = B64.Returns here ->
      exists here', f' a = B64.Returns here'
                    /\ (length here <= length here')%nat) ->
  B64.collect f l = B64.Returns evs ->
  exists evs', B64.collect f' l = B64.Returns evs'
               /\ (length evs <= length evs')%nat.
Proof.
  intros Hf. revert evs. induction l as [|a l IH]; intros evs H;
    cbn [B64.collect] in *.
  - injection H as <-. exists []. split; [reflexivity|cbn; lia].
  - apply bind_returns in H. destruct H as (here & Hhere & H).
    apply bind_returns in H. destruct H as (later & Hlater & H).
    injection H as <-.
    destruct (Hf _ _ Hhere) as (here' & -> & Hle1).
    destruct (IH _ Hlater) as (later' & -> & Hle2).
    cbn [B64.bind]. eexists. split; [reflexivity|].
    rewrite !length_app. lia.
Qed.

Lemma pairwise_safety turns fleet (s s' time_step : _) names evs :
  PrimFloat.leb s s' = true ->
  pairwise turns fleet s time_step names = B64.Returns evs ->
  exists evs',
    pairwise turns fleet s' time_step names = B64.Returns evs'
    /\ (length evs <= length evs')%nat.
Proof.
  intros Hs. revert evs. induction names as [|d1 later IH]; intros evs H;
    cbn [B64.pairwise] in *.
  - injection H as <-. exists []. split; [reflexivity|cbn; lia].
  - apply bind_returns in H. destruct H as (here & Hhere & H).
    apply bind_returns in H. destruct H as (rest & Hrest & H).
    injection H as <-.
    destruct (collect_longer _ (fun d2 =>
                 pair_conflicts turns d1 d2 (dict_get fleet d1)
                                (dict_get fleet d2) s' time_step)
                             _ _
                (fun d2 h Hh => pair_conflicts_safety _ _ _ _ _ _ _ _ _ Hs Hh)
                Hhere) as (here' & -> & Hle1).
    destruct (IH _ Hrest) as (rest' & -> & Hle2).
    cbn [B64.bind]. eexists. split; [reflexivity|].
    rewrite !length_app. lia.
Qed.

Lemma check_safety turns fleet (s s' time_step : _) r :
  PrimFloat.leb s s' = true ->
  check turns fleet s time_step = B64.Returns r ->
  exists r',
    check turns fleet s' time_step = B64.Returns r'
    /\ (length (B64.conflicts_of r) <= length (B64.conflicts_of r'))%nat.
Proof.
  intros Hs H. apply check_returns in H.
  destruct (pairwise_safety _ _ _ _ _ _ _ Hs H) as (evs' & Hevs' & Hle).
  unfold B64.check_all_paths_conflict. rewrite Hevs'. cbn [B64.bind].
  destruct evs' as [|e evs']; eexists; (split; [reflexivity|exact Hle]).
Qed.

End BinarySafety.

(** * The properties that depend on the arithmetic *)

(** ** Claim C1 on binary64 numbers *)




(** ** Claim C4 on binary64 numbers *)

(** C4.  The claim fails on the code in two ways.  Where a timestamp
    repeats, the lookup stops at the first segment that brackets it: on
    [held], whose first two waypoints carry the timestamp [0], the lookup
    at [0] returns [(0, 0)] and not the position [(5, 5)] of the second
    waypoint.  And the end of a segment is computed, not copied: on
    [far], whose timestamps increase, the lookup at the timestamp [1] of
    the second waypoint returns [1e16 + (1 - 1e16) = 0] and not its
    [x = 1]. *)
Lemma C4_lookup_at_a_waypoint_can_miss_its_position :
  B64.Both.sorted_by_time TwoD B64Examples.held
  /\ nth_error B64Examples.held 1 = Some (5, 5, 0)%float
  /\ B64.Both.get_position_at_time TwoD B64Examples.held 0
     = B64.Returns (Some (0, 0)%float)
  /\ PrimFloat.eqb 0 5 = false
  /\ B64.Both.sorted_by_time TwoD B64Examples.far
  /\ PrimFloat.ltb 0 1 = true
  /\ nth_error B64Examples.far 1 = Some (1, 0, 1)%float
  /\ B64.Both.get_position_at_time TwoD B64Examples.far 1
     = B64.Returns (Some (0, 0)%float)
  /\ PrimFloat.eqb 0 1 = false.
Proof. repeat split; vm_compute; reflexivity. Qed.

(** C4.  What holds of the code: on a path in ascending order of time with
    at least 2 waypoints, the lookup at the timestamp of waypoint [i]
    returns the interpolation at that time on a segment [(a, b)] of the
    path.  Either this is the first segment and [a] carries the timestamp:
    then the position returned compares equal to the position of [a],
    provided the timestamp of [a] and the coordinate differences of the
    segment are finite.  Or [a] is strictly earlier and [b], at an index
    not after [i], carries the timestamp: then the position returned is
    [x1 + (x2 - x1)] in every coordinate, both operations rounded,
    provided the duration of the segment is finite. *)
Theorem C4_lookup_at_the_timestamp_of_a_waypoint :
  forall (v : Variant) (path : list (B64.Both.Waypoint v)) (i : nat)
         (w : B64.Both.Waypoint v),
    B64.Both.sorted_by_time v path ->
    (2 <= length path)%nat ->
    nth_error path i = Some w ->
    exists (j : nat) (a b : B64.Both.Waypoint v),
      nth_error path j = Some a /\ nth_error path (S j) = Some b
      /\ B64.Both.get_position_at_time v path (B64.Both.stamp v w)
         = B64.bind (B64.Both.interpolate v a b (B64.Both.stamp v w))
                    (fun pos => B64.Returns (Some pos))
      /\ ((j = 0%nat
           /\ PrimFloat.eqb (B64.Both.stamp v a) (B64.Both.stamp v w) = true
           /\ (PrimFloat.is_finite (B64.Both.stamp v a) = true ->
               Forall (fun c => PrimFloat.is_finite c = true)
                      (B64.Both.displacement v a b) ->
               exists pos,
                 B64.Both.interpolate v a b (B64.Both.stamp v w)
                 = B64.Returns pos
                 /\ Forall2 (fun c x => PrimFloat.eqb c x = true)
                            (B64.Both.coordinates v pos)
                            (B64.Both.coordinates
                               v (B64.Both.position v a))))
          \/ (PrimFloat.ltb (B64.Both.stamp v a) (B64.Both.stamp v w) = true
              /\ PrimFloat.eqb (B64.Both.stamp v b) (B64.Both.stamp v w)
                 = true
              /\ (S j <= i)%nat
              /\ (PrimFloat.is_finite
                    (PrimFloat.sub (B64.Both.stamp v b) (B64.Both.stamp v a))
                  = true ->
                  B64.Both.interpolate v a b (B64.Both.stamp v w)
                  = B64.Returns (B64.Both.end_of_leg v a b)))).
Proof.
  intros v path i w Hs Hlen Hi.
  assert (Hfound :
           exists j a b,
             nth_error path j = Some a /\ nth_error path (S j) = Some b
             /\ B64.Both.get_position_at_time v path (B64.Both.stamp v w)
                = B64.bind (B64.Both.interpolate v a b (B64.Both.stamp v w))
                           (fun pos => B64.Returns (Some pos))
             /\ PrimFloat.leb (B64.Both.stamp v a) (B64.Both.stamp v b) = true
             /\ ((j = 0%nat
                  /\ PrimFloat.eqb (B64.Both.stamp v a) (B64.Both.stamp v w)
                     = true)
                 \/ (PrimFloat.ltb (B64.Both.stamp v a) (B64.Both.stamp v w)
                     = true
                     /\ PrimFloat.eqb (B64.Both.stamp v b)
                                      (B64.Both.stamp v w) = true
                     /\ (S j <= i)%nat))).
  { destruct v.
    - exact (gpat_at_waypoint B64.D2.stamp B64.D2.interpolate
                              path i w Hs Hlen Hi).
    - exact (gpat_at_waypoint B64.D3.stamp B64.D3.interpolate
                              path i w Hs Hlen Hi). }
  destruct Hfound as (j & a & b & Ha & Hb & Hg & Hab & Hc).
  exists j, a, b. split; [exact Ha|]. split; [exact Hb|].
  split; [exact Hg|].
  destruct Hc as [[Hj Heq]|(Hlt & Heq & Hle)].
  - left. split; [exact Hj|]. split; [exact Heq|].
    intros Hfin Hd. now apply interpolate_start.
  - right. split; [exact Hlt|]. split; [exact Heq|]. split; [exact Hle|].
    intros Hfin. now apply interpolate_end.
Qed.

Lemma C4_witness :
  B64.Both.get_position_at_time TwoD B64Examples.kept 1
  = B64.Returns (Some (5, 5)%float)
  /\ exists (j : nat) (a b : B64.Both.Waypoint TwoD),
    nth_error B64Examples.kept j = Some a
    /\ nth_error B64Examples.kept (S j) = Some b
    /\ B64.Both.get_position_at_time TwoD B64Examples.kept 1
       = B64.bind (B64.Both.interpolate TwoD a b 1)
                  (fun pos => B64.Returns (Some pos))
    /\ ((j = 0%nat
         /\ PrimFloat.eqb (B64.Both.stamp TwoD a) 1 = true
         /\ (PrimFloat.is_finite (B64.Both.stamp TwoD a) = true ->
             Forall (fun c => PrimFloat.is_finite c = true)
                    (B64.Both.displacement TwoD a b) ->
             exists pos,
               B64.Both.interpolate TwoD a b 1 = B64.Returns pos
               /\ Forall2 (fun c x => PrimFloat.eqb c x = true)
                          (B64.Both.coordinates TwoD pos)
                          (B64.Both.coordinates
                             TwoD (B64.Both.position TwoD a))))
        \/ (PrimFloat.ltb (B64.Both.stamp TwoD a) 1 = true
            /\ PrimFloat.eqb (B64.Both.stamp TwoD b) 1 = true
            /\ (S j <= 2)%nat
            /\ (PrimFloat.is_finite
                  (PrimFloat.sub (B64.Both.stamp TwoD b)
                                 (B64.Both.stamp TwoD a)) = true ->
                B64.Both.interpolate TwoD a b 1
                = B64.Returns (B64.Both.end_of_leg TwoD a b)))).
Proof.
  split; [vm_compute; reflexivity|].
  apply (C4_lookup_at_the_timestamp_of_a_waypoint
           TwoD B64Examples.kept 2 (7, 7, 1)%float).
  - cbn. repeat split; reflexivity.
  - cbn. lia.
  - reflexivity.
Defined.

(** ** Claim C6 on binary64 numbers *)




(** ** Further properties on binary64 numbers *)

(** X1.  In both files the distance of two points is the same in both
    directions; [math.sqrt] never raises [ValueError] in it; a distance
    that is returned is not below zero; and the distance of a point with
    finite coordinates to itself is zero.  A distance of zero does not
    tell that the points are equal, and the call can raise: the square of
    [1e-200] is rounded to zero, and the square of [1e200] overflows. *)
Theorem X1_distance_is_symmetric_and_never_negative :
  (forall (v : Variant) (p q : B64.Both.Point v),
      B64.Both.distance v p q = B64.Both.distance v q p
      /\ B64.Both.distance v p q <> B64.Raises B64.ValueError
      /\ (forall d, B64.Both.distance v p q = B64.Returns d ->
                    PrimFloat.ltb d 0 = false)
      /\ (Forall (fun c => PrimFloat.is_finite c = true)
                 (B64.Both.coordinates v p) ->
          B64.Both.distance v p p = B64.Returns 0%float))
  /\ B64.D2.distance_2d (1e-200, 0)%float (0, 0)%float = B64.Returns 0%float
  /\ B64.D2.distance_2d (1e200, 0)%float (0, 0)%float
     = B64.Raises B64.OverflowError.
Proof.
  split; [|split; vm_compute; reflexivity].
  intros v p q. split; [apply distance_swap|].
  split; [apply distance_no_value_error|].
  split; [intros d; apply distance_not_negative|apply distance_self].
Qed.

(** X13.  When the body of the two [for] loops returns for a pair of
    drones, an event is in the pair's list exactly when the [while] loop
    visited a time [t] at which both sorted paths gave a position and the
    distance of the two positions was returned and is at most
    [safety_distance]; the event then holds [round(t, 2)], the rounded
    position of the first drone, the rounded distance and the pair
    [(d1, d2)]. *)
Theorem X13_pair_events_are_exactly_the_close_samples :
  forall (v : Variant) (turns : nat) (d1 d2 : string)
         (p1 p2 : list (B64.Both.Waypoint v))
         (safety_distance time_step : PrimFloat.float)
         (evs : list (B64.ConflictEvent (B64.Both.Point v)))
         (e : B64.ConflictEvent (B64.Both.Point v)),
    B64.Both.pair_conflicts v turns d1 d2 p1 p2 safety_distance time_step
    = B64.Returns evs ->
    In e evs <->
    exists t pos1 pos2 dist,
      In t (B64.Both.pair_sample_times v turns p1 p2 time_step)
      /\ B64.Both.get_position_at_time v (B64.Both.sort_path_by_time v p1) t
         = B64.Returns (Some pos1)
      /\ B64.Both.get_position_at_time v (B64.Both.sort_path_by_time v p2) t
         = B64.Returns (Some pos2)
      /\ B64.Both.distance v pos1 pos2 = B64.Returns dist
      /\ PrimFloat.leb dist safety_distance = true
      /\ e = B64.mkEvent (B64.round2 t) (B64.Both.round_location v pos1)
                         (B64.round2 dist) (d1, d2).
Proof.
  intros v; destruct v; intros turns d1 d2 p1 p2 s ts evs e H.
  - exact (In_pair_conflicts_b64 B64.D2.stamp B64.D2.interpolate
                                 B64.D2.distance_2d B64.D2.round_location
                                 turns e d1 d2 p1 p2 s ts evs H).
  - exact (In_pair_conflicts_b64 B64.D3.stamp B64.D3.interpolate
                                 B64.D3.distance_3d B64.D3.round_location
                                 turns e d1 d2 p1 p2 s ts evs H).
Qed.

Lemma X13_witness :
  B64.Both.pair_conflicts TwoD 20 "A" "B" B64Examples.crossing_A
                          B64Examples.crossing_B 1 5
  = B64.Returns [B64.mkEvent 5 (5, 0) 0 ("A"%string, "B"%string)]%float
  /\ exists t pos1 pos2 dist,
      In t (B64.Both.pair_sample_times TwoD 20 B64Examples.crossing_A
                                       B64Examples.crossing_B 5)
      /\ B64.Both.get_position_at_time
           TwoD (B64.Both.sort_path_by_time TwoD B64Examples.crossing_A) t
         = B64.Returns (Some pos1)
      /\ B64.Both.get_position_at_time
           TwoD (B64.Both.sort_path_by_time TwoD B64Examples.crossing_B) t
         = B64.Returns (Some pos2)
      /\ B64.Both.distance TwoD pos1 pos2 = B64.Returns dist
      /\ PrimFloat.leb dist 1 = true
      /\ (B64.mkEvent 5 (5, 0) 0 ("A"%string, "B"%string))%float
         = B64.mkEvent (B64.round2 t) (B64.Both.round_location TwoD pos1)
                       (B64.round2 dist) ("A"%string, "B"%string).
Proof.
  assert (H : B64.Both.pair_conflicts TwoD 20 "A" "B" B64Examples.crossing_A
                                      B64Examples.crossing_B 1 5
              = B64.Returns
                  [B64.mkEvent 5 (5, 0) 0 ("A"%string, "B"%string)]%float)
    by (vm_compute; reflexivity).
  split; [exact H|].
  exact (proj1 (X13_pair_events_are_exactly_the_close_samples
                  TwoD 20 "A" "B" B64Examples.crossing_A
                  B64Examples.crossing_B 1 5 _
                  (B64.mkEvent 5 (5, 0) 0 ("A"%string, "B"%string))%float H)
               (or_introl eq_refl)).
Defined.

(** X18.  With a safety distance below zero the detector reports no
    conflict: whenever it returns, it returns CLEAR, for every fleet and
    every time step, since no distance that is returned is below zero. *)
Theorem X18_negative_safety_distance_reports_clear :
  forall (v : Variant) (turns : nat) (fleet : B64.Both.Fleet v)
         (safety_distance time_step : PrimFloat.float)
         (r : B64.Report (B64.Both.Point v)),
    PrimFloat.ltb safety_distance 0 = true ->
    B64.Both.check_all_paths_conflict v turns fleet safety_distance time_step
    = B64.Returns r ->
    r = B64.CLEAR.
Proof.
  intros v; destruct v; intros turns fleet s ts r Hs H.
  - exact (check_negative_safety_b64
             B64.D2.stamp B64.D2.interpolate B64.D2.distance_2d
             B64.D2.round_location (distance_not_negative TwoD)
             turns fleet s ts r Hs H).
  - exact (check_negative_safety_b64
             B64.D3.stamp B64.D3.interpolate B64.D3.distance_3d
             B64.D3.round_location (distance_not_negative ThreeD)
             turns fleet s ts r Hs H).
Qed.

Lemma X18_witness :
  PrimFloat.ltb (-1) 0 = true
  /\ exists r,
      B64.Both.check_all_paths_conflict TwoD 20 B64Examples.hovering (-1) 2
      = B64.Returns r
      /\ r = B64.CLEAR.
Proof.
  split; [reflexivity|].
  destruct (B64.Both.check_all_paths_conflict TwoD 20 B64Examples.hovering
                                              (-1) 2) as [r| |] eqn:H;
    [|vm_compute in H; discriminate H|vm_compute in H; discriminate H].
  exists r. split; [reflexivity|].
  exact (X18_negative_safety_distance_reports_clear
           TwoD 20 B64Examples.hovering (-1) 2 r eq_refl H).
Defined.

(** X31.  The [while] loop need not end.  When a pair of drones is sampled
    with a positive effective step and the loop reaches a time [u] at which
    the step is absorbed by the rounding ([u + effective_step] is [u]
    again), the guard [t <= end_time] holds for ever:
    [check_all_paths_conflict] returns no report, however many turns the
    loop is given. *)
Theorem X31_absorbed_step_never_returns :
  forall (v : Variant) (fleet : B64.Both.Fleet v)
         (safety_distance time_step : PrimFloat.float)
         (l1 : list string) (d1 : string) (l2 : list string) (d2 : string)
         (l3 : list string) (end_time effective_step t u : PrimFloat.float)
         (reached : nat),
    drone_names fleet = l1 ++ d1 :: l2 ++ d2 :: l3 ->
    B64.Both.sampling_plan v (dict_get fleet d1) (dict_get fleet d2) time_step
    = Some (end_time, effective_step, t) ->
    In u (B64.sample_times reached effective_step end_time t) ->
    PrimFloat.add u effective_step = u ->
    ~ exists turns r,
        B64.Both.check_all_paths_conflict v turns fleet safety_distance
                                          time_step
        = B64.Returns r.
Proof.
  intros v; destruct v;
    intros fleet s ts l1 d1 l2 d2 l3 end_t step t u reached Hnames Hplan Hin
           Hsame (turns & r & H).
  - exact (check_never_returns
             B64.D2.stamp B64.D2.interpolate B64.D2.distance_2d
             B64.D2.round_location reached turns fleet s ts l1 d1 l2 d2 l3
             end_t step t u r Hnames Hplan Hin Hsame H).
  - exact (check_never_returns
             B64.D3.stamp B64.D3.interpolate B64.D3.distance_3d
             B64.D3.round_location reached turns fleet s ts l1 d1 l2 d2 l3
             end_t step t u r Hnames Hplan Hin Hsame H).
Qed.

Lemma X31_witness :
  B64.Both.sampling_plan TwoD B64Examples.stuck_A B64Examples.stuck_B 1
  = Some (1e16 + 2, 1, 1e16)%float
  /\ PrimFloat.add 1e16 1 = 1e16%float
  /\ ~ exists turns r,
         B64.Both.check_all_paths_conflict TwoD turns B64Examples.stuck 5 1
         = B64.Returns r.
Proof.
  split; [vm_compute; reflexivity|]. split; [vm_compute; reflexivity|].
  apply (X31_absorbed_step_never_returns
           TwoD B64Examples.stuck 5 1 [] "A" [] "B" []
           (1e16 + 2)%float 1%float 1e16%float 1e16%float 1).
  - reflexivity.
  - vm_compute. reflexivity.
  - vm_compute. left. reflexivity.
  - vm_compute. reflexivity.
Defined.



(** X33.  With a time step that is zero or below zero the detector enters
    no [while] loop and returns CLEAR, for every fleet and every safety
    distance. *)
Theorem X33_nonpositive_step_returns_clear :
  forall (v : Variant) (turns : nat) (fleet : B64.Both.Fleet v)
         (safety_distance time_step : PrimFloat.float),
    PrimFloat.leb time_step 0 = true ->
    B64.Both.check_all_paths_conflict v turns fleet safety_distance time_step
    = B64.Returns B64.CLEAR.
Proof.
  intros v; destruct v; intros turns fleet s ts Hts.
  - exact (check_nonpositive_step_b64
             B64.D2.stamp B64.D2.interpolate B64.D2.distance_2d
             B64.D2.round_location turns fleet s ts Hts).
  - exact (check_nonpositive_step_b64
             B64.D3.stamp B64.D3.interpolate B64.D3.distance_3d
             B64.D3.round_location turns fleet s ts Hts).
Qed.

Lemma X33_witness :
  PrimFloat.leb (-1) 0 = true
  /\ B64.Both.check_all_paths_conflict TwoD 0 B64Examples.crossing 100 (-1)
     = B64.Returns B64.CLEAR.
Proof.
  split; [reflexivity|].
  apply (X33_nonpositive_step_returns_clear TwoD 0 B64Examples.crossing
                                            100 (-1)).
  reflexivity.
Defined.

(** X34.  For a fixed fleet and time step, a call with a larger safety
    distance returns whenever the call with the smaller one returns, and
    its report has at least as many events. *)
Theorem X34_larger_safety_distance_keeps_the_conflicts :
  forall (v : Variant) (turns : nat) (fleet : B64.Both.Fleet v)
         (safety_distance safety_distance' time_step : PrimFloat.float)
         (r : B64.Report (B64.Both.Point v)),
    PrimFloat.leb safety_distance safety_distance' = true ->
    B64.Both.check_all_paths_conflict v turns fleet safety_distance time_step
    = B64.Returns r ->
    exists r',
      B64.Both.check_all_paths_conflict v turns fleet safety_distance'
                                        time_step
      = B64.Returns r'
      /\ (length (B64.conflicts_of r) <= length (B64.conflicts_of r'))%nat.
Proof.
  intros v; destruct v; intros turns fleet s s' ts r Hs H.
  - exact (check_safety B64.D2.stamp B64.D2.interpolate B64.D2.distance_2d
                        B64.D2.round_location turns fleet s s' ts r Hs H).
  - exact (check_safety B64.D3.stamp B64.D3.interpolate B64.D3.distance_3d
                        B64.D3.round_location turns fleet s s' ts r Hs H).
Qed.

Lemma X34_witness :
  B64.Both.check_all_paths_conflict TwoD 20 B64Examples.crossing 1 1
  = B64.Returns
      (B64.CONFLICT [B64.mkEvent 5 (5, 0) 0 ("A"%string, "B"%string)])%float
  /\ exists r',
      B64.Both.check_all_paths_conflict TwoD 20 B64Examples.crossing 3 1
      = B64.Returns r'
      /\ (1 <= length (B64.conflicts_of r'))%nat.
Proof.
  assert (H : B64.Both.check_all_paths_conflict TwoD 20 B64Examples.crossing
                                               1 1
              = B64.Returns
                  (B64.CONFLICT
                     [B64.mkEvent 5 (5, 0) 0 ("A"%string, "B"%string)])%float)
    by (vm_compute; reflexivity).
  split; [exact H|].
  exact (X34_larger_safety_distance_keeps_the_conflicts
           TwoD 20 B64Examples.crossing 1 3 1 _ eq_refl H).
Defined.
